(** * build-analyzer: the normalizer, the treemap hierarchy and the module filter

    A shallow embedding of
    - [src/data/processing.ts]  ([approximateGzipSize], [getTypeFromName],
                                 [normalizeWebpackStats],
                                 [loadAndProcessStatsFile]),
    - [src/data/ingestion.ts]   ([loadWebpackStats], [mockWebpackStats]),
    - [TreemapVisualization.tsx] and [GraphVisualization.tsx]
                                 ([filteredModules], the construction of
                                 [rootData] and the d3 hierarchy built on it),
    and the properties the specification states about them.

    Conventions.  JavaScript numbers are restricted to the integers ([Z]);
    a value of type [number] is [Some z] or [None], where [None] stands for
    the two non-numeric outcomes the code can meet, [undefined] (a field that
    is absent from the parsed JSON) and [NaN] (arithmetic on it).  The one
    product that leaves the integers, [rawSize * 0.3] of the size estimate,
    is computed in binary64, with the Standard Library's specification of
    IEEE 754 arithmetic ([SpecFloat]).  Strings are Rocq strings;
    [toLowerCase] acts on the ASCII letters.  A thrown exception is the
    [Throw] case of [result]. *)

From Stdlib Require Import ZArith Lia List Sorted Permutation SpecFloat.
From Stdlib Require Import Ascii String.
From stdpp Require Import base option list strings gmap pretty.

Set Warnings "-register-all".
Local Open Scope string_scope.
Local Open Scope list_scope.
Local Open Scope Z_scope.

(** ** JavaScript values *)

Definition number := option Z.

(** [x || 0] on a number: [undefined], [NaN] and [0] all give [0]. *)
Definition orZero (x : number) : Z := default 0 x.

(** [x + y]: anything non-numeric makes the sum [NaN]. *)
Definition jsAdd (x y : number) : number :=
  match x, y with
  | Some a, Some b => Some (a + b)
  | _, _ => None
  end.

Inductive Error := InvalidFormat | TypeError.

Inductive result (A : Type) :=
  | Ok (a : A)
  | Throw (e : Error).
Arguments Ok {A} a.
Arguments Throw {A} e.

#[export] Instance result_bind : MBind result := fun A B k r =>
  match r with
  | Ok a => k a
  | Throw e => Throw e
  end.

(** [xs.forEach(f)] where [f] updates a state and may throw. *)
Fixpoint forEachM {A S} (f : S -> A -> result S) (xs : list A) (s : S)
  : result S :=
  match xs with
  | [] => Ok s
  | x :: xs' => s' ← f s x; forEachM f xs' s'
  end.

(** ** Strings *)

Module Str.

Definition lowerAscii (c : ascii) : ascii :=
  let n := nat_of_ascii c in
  if ((65 <=? n) && (n <=? 90))%nat then ascii_of_nat (n + 32) else c.

Fixpoint toLowerCase (s : string) : string :=
  match s with
  | EmptyString => EmptyString
  | String c s' => String (lowerAscii c) (toLowerCase s')
  end.

Fixpoint startsWith (s t : string) {struct t} : bool :=
  match t, s with
  | EmptyString, _ => true
  | String b t', String a s' => if Ascii.eqb a b then startsWith s' t' else false
  | String _ _, EmptyString => false
  end.

(** [s.endsWith(t)]: the last [length t] characters of [s] are [t]. *)
Definition endsWith (s t : string) : bool :=
  (String.length t <=? String.length s)%nat &&
  String.eqb
    (String.substring (String.length s - String.length t) (String.length t) s) t.

(** [s.includes(t)]: [t] occurs at some position of [s]. *)
Fixpoint includes (s t : string) : bool :=
  startsWith s t ||
  match s with
  | EmptyString => false
  | String _ s' => includes s' t
  end.

(** [s.split(sep)] for a one-character separator; never empty:
    [splitOn "/" ""] is [[""]]. *)
Fixpoint splitOn (sep : ascii) (s : string) : list string :=
  match s with
  | EmptyString => [EmptyString]
  | String c s' =>
      if Ascii.eqb c sep then EmptyString :: splitOn sep s'
      else match splitOn sep s' with
           | [] => [String c EmptyString]
           | w :: ws => String c w :: ws
           end
  end.

(** [parts.join(sep)]. *)
Fixpoint join (sep : string) (parts : list string) : string :=
  match parts with
  | [] => EmptyString
  | [p] => p
  | p :: ps => p +:+ sep +:+ join sep ps
  end.

(** A string is falsy exactly when it is empty. *)
Definition truthy (s : string) : bool := negb (String.eqb s EmptyString).

End Str.

Definition slash : ascii := "/"%char.

(** ** The data model ([src/data/types.ts]) *)

Inductive ModuleType :=
  | js | css | image | font | json | wasm | unknown | map_ | html.

Definition typeName (t : ModuleType) : string :=
  match t with
  | js => "js" | css => "css" | image => "image" | font => "font"
  | json => "json" | wasm => "wasm" | unknown => "unknown"
  | map_ => "map" | html => "html"
  end.

Definition allTypes : list ModuleType :=
  [js; css; image; font; json; wasm; unknown; map_; html].

Record Size := { raw : number; gzip : number }.

Record NormalizedModule := {
  nm_id : string;
  nm_name : string;
  nm_path : string;
  nm_size : Size;
  nm_type : ModuleType;
  nm_dependencies : list string;
  nm_dependents : list string
}.

Record NormalizedAsset := {
  na_name : string;
  na_size : Size;
  na_type : ModuleType;
  na_chunks : list string
}.

Record NormalizedChunk := {
  nc_id : string;
  nc_name : string;
  nc_size : Size;
  nc_modules : list string
}.

Record NormalizedBuildStats := {
  timestamp : Z;
  totalSize : Size;
  totalTime : number;
  modules : list NormalizedModule;
  assets : list NormalizedAsset;
  chunks : list NormalizedChunk;
  entrypoints : list string
}.

(** Raw Webpack records.  The interfaces declare [name] and [size] as
    required, but the object is the unchecked result of [JSON.parse], so a
    record can lack them: such a field reads as [undefined], here [None]. *)

Inductive RawId := IdStr (s : string) | IdNum (n : Z).

(** [String(id)]. *)
Definition String_ (id : RawId) : string :=
  match id with
  | IdStr s => s
  | IdNum n => pretty n
  end.

Record Reason := { moduleIdentifier : string; reasonType : string }.

Record WebpackModule := {
  wm_id : RawId;
  wm_name : option string;
  wm_size : number;
  wm_reasons : option (list Reason);
  wm_chunks : option (list RawId)
}.

Record WebpackAsset := {
  wa_name : option string;
  wa_size : number;
  wa_chunks : option (list RawId)
}.

Record WebpackChunk := {
  wc_id : RawId;
  wc_names : option (list string);
  wc_size : number;
  wc_modules : option (list WebpackModule)
}.

Record WebpackStats := {
  ws_time : number;
  ws_assets : option (list WebpackAsset);
  ws_modules : option (list WebpackModule);
  ws_chunks : option (list WebpackChunk)
}.

(** ** [processing.ts] *)

(** An integer as a binary64 (53 bits of precision, exponents below 1024):
    itself up to [2 ^ 53], the nearest binary64 beyond. *)
Definition toFloat (n : Z) : spec_float := binary_normalize 53 1024 n 0 false.

(** The literal [0.3]: the binary64 nearest to 3/10, which is what the
    correctly rounded division gives. *)
Definition threeTenths : spec_float := SFdiv 53 1024 (toFloat 3) (toFloat 10).

(** [Math.floor(x)]; [None] where the result is not a finite number ([NaN],
    or the infinity that only a size beyond every binary64 gives). *)
Definition mathFloor (x : spec_float) : number :=
  match x with
  | S754_zero _ => Some 0
  | S754_finite s m e =>
      let v := if s then Z.neg m else Z.pos m in
      Some (if 0 <=? e then v * 2 ^ e else v / 2 ^ (- e))
  | _ => None
  end.

(** [Math.floor(rawSize * 0.3)]: a binary64 product, rounded to the
    nearest, then [Math.floor]. *)
Definition approximateGzipSize (rawSize : number) : number :=
  match rawSize with
  | Some n => mathFloor (SFmul 53 1024 (toFloat n) threeTenths)
  | None => None
  end.

Definition getTypeFromName (name : string) : ModuleType :=
  let lowerName := Str.toLowerCase name in
  let ends := Str.endsWith lowerName in
  if ends ".js" || ends ".jsx" || ends ".ts" || ends ".tsx" then js
  else if ends ".css" || ends ".scss" || ends ".less" then css
  else if ends ".png" || ends ".jpg" || ends ".jpeg" || ends ".gif"
          || ends ".svg" then image
  else if ends ".woff" || ends ".woff2" || ends ".ttf" || ends ".otf" then font
  else if ends ".json" then json
  else if ends ".wasm" then wasm
  else if ends ".map" then map_
  else if ends ".html" then html
  else unknown.

(** [name.split('/').pop() || name]. *)
Definition lastSegmentOr (name : string) : string :=
  let popped := List.last (Str.splitOn slash name) EmptyString in
  if Str.truthy popped then popped else name.

(** The object literal of the creation pass.  [m.name.split] throws a
    [TypeError] when the record has no [name]. *)
Definition createModule (m : WebpackModule) : result NormalizedModule :=
  match wm_name m with
  | None => Throw TypeError
  | Some name =>
      Ok {| nm_id := String_ (wm_id m);
            nm_name := lastSegmentOr name;
            nm_path := name;
            nm_size := {| raw := wm_size m;
                          gzip := approximateGzipSize (wm_size m) |};
            nm_type := getTypeFromName name;
            nm_dependencies := [];
            nm_dependents := [] |}
  end.

(** The module objects live in the array [normalizedModules]; [moduleMap]
    holds references to the same objects, here their positions in the
    array. *)
Record ModuleStore := {
  normalizedModules : list NormalizedModule;
  moduleMap : gmap string nat
}.

Definition emptyStore : ModuleStore :=
  {| normalizedModules := []; moduleMap := ∅ |}.

Definition pushModule (st : ModuleStore) (nm : NormalizedModule) : ModuleStore :=
  {| normalizedModules := normalizedModules st ++ [nm];
     moduleMap := <[nm_id nm := length (normalizedModules st)]> (moduleMap st) |}.

Definition creationStep (st : ModuleStore) (m : WebpackModule)
  : result ModuleStore :=
  nm ← createModule m; Ok (pushModule st nm).

Definition pushDependency (target : string) (nm : NormalizedModule)
  : NormalizedModule :=
  {| nm_id := nm_id nm; nm_name := nm_name nm; nm_path := nm_path nm;
     nm_size := nm_size nm; nm_type := nm_type nm;
     nm_dependencies := nm_dependencies nm ++ [target];
     nm_dependents := nm_dependents nm |}.

Definition pushDependent (source : string) (nm : NormalizedModule)
  : NormalizedModule :=
  {| nm_id := nm_id nm; nm_name := nm_name nm; nm_path := nm_path nm;
     nm_size := nm_size nm; nm_type := nm_type nm;
     nm_dependencies := nm_dependencies nm;
     nm_dependents := nm_dependents nm ++ [source] |}.

(** The body of [m.reasons.forEach], for source object [i]. *)
Definition linkReason (sourceModuleId : string) (i : nat)
    (st : ModuleStore) (reason : Reason) : ModuleStore :=
  let targetModuleId := moduleIdentifier reason in
  match moduleMap st !! targetModuleId with
  | Some j =>
      if decide (sourceModuleId ≠ targetModuleId) then
        {| normalizedModules :=
             alter (pushDependent sourceModuleId) j
               (alter (pushDependency targetModuleId) i (normalizedModules st));
           moduleMap := moduleMap st |}
      else st
  | None => st
  end.

(** The body of the second [rawStats.modules.forEach]. *)
Definition resolutionStep (st : ModuleStore) (m : WebpackModule) : ModuleStore :=
  let sourceModuleId := String_ (wm_id m) in
  match moduleMap st !! sourceModuleId, wm_reasons m with
  | Some i, Some reasons => fold_left (linkReason sourceModuleId i) reasons st
  | _, _ => st
  end.

Definition processModules (ms : option (list WebpackModule))
  : result ModuleStore :=
  match ms with
  | None => Ok emptyStore
  | Some ms =>
      st ← forEachM creationStep ms emptyStore;
      Ok (fold_left resolutionStep ms st)
  end.

(** [getTypeFromName(a.name)] throws when the asset has no [name]; the
    [name] field itself would be stored as [undefined]. *)
Definition createAsset (a : WebpackAsset) : result NormalizedAsset :=
  match wa_name a with
  | None => Throw TypeError
  | Some name =>
      Ok {| na_name := name;
            na_size := {| raw := wa_size a;
                          gzip := approximateGzipSize (wa_size a) |};
            na_type := getTypeFromName name;
            na_chunks := match wa_chunks a with
                         | Some cs => String_ <$> cs
                         | None => []
                         end |}
  end.

Record AssetAcc := {
  normalizedAssets : list NormalizedAsset;
  totalRawSize : number;
  totalGzipSize : Z
}.

Definition assetStep (acc : AssetAcc) (a : WebpackAsset) : result AssetAcc :=
  normalizedAsset ← createAsset a;
  Ok {| normalizedAssets := normalizedAssets acc ++ [normalizedAsset];
        totalRawSize := jsAdd (totalRawSize acc) (wa_size a);
        totalGzipSize :=
          totalGzipSize acc + orZero (gzip (na_size normalizedAsset)) |}.

Definition processAssets (assets : option (list WebpackAsset))
  : result AssetAcc :=
  forEachM assetStep (default [] assets)
    {| normalizedAssets := []; totalRawSize := Some 0; totalGzipSize := 0 |}.

Definition createChunk (c : WebpackChunk) : NormalizedChunk :=
  let id := String_ (wc_id c) in
  {| nc_id := id;
     nc_name := match wc_names c with
                | Some (n :: _) => n
                | _ => id
                end;
     nc_size := {| raw := wc_size c; gzip := approximateGzipSize (wc_size c) |};
     nc_modules := match wc_modules c with
                   | Some ms => (fun m => String_ (wm_id m)) <$> ms
                   | None => []
                   end |}.

Definition processChunks (chunks : option (list WebpackChunk))
  : list NormalizedChunk :=
  createChunk <$> default [] chunks.

(** The body of [normalizedChunks.forEach]: the entrypoint of one chunk, if
    it contributes one. *)
Definition chunkEntrypoint (moduleMap : gmap string nat) (chunk : NormalizedChunk)
  : option string :=
  if Str.truthy (nc_name chunk) && (0 <? length (nc_modules chunk))%nat then
    match List.find (fun moduleId => bool_decide (is_Some (moduleMap !! moduleId)))
            (nc_modules chunk) with
    | Some firstModuleInChunk =>
        if Str.truthy firstModuleInChunk then Some firstModuleInChunk else None
    | None => None
    end
  else None.

Definition determineEntrypoints (moduleMap : gmap string nat)
    (chunks : list NormalizedChunk) : list string :=
  omap (chunkEntrypoint moduleMap) chunks.

(** [now] is the value [Date.now()] returns. *)
Definition normalizeWebpackStats (now : Z) (rawStats : WebpackStats)
  : result NormalizedBuildStats :=
  st ← processModules (ws_modules rawStats);
  acc ← processAssets (ws_assets rawStats);
  let normalizedChunks := processChunks (ws_chunks rawStats) in
  Ok {| timestamp := now;
        totalSize := {| raw := totalRawSize acc;
                        gzip := Some (totalGzipSize acc) |};
        totalTime := ws_time rawStats;
        modules := normalizedModules st;
        assets := normalizedAssets acc;
        chunks := normalizedChunks;
        entrypoints := determineEntrypoints (moduleMap st) normalizedChunks |}.

(** ** [ingestion.ts] *)

Definition present {A} (field : option A) : bool :=
  match field with Some _ => true | None => false end.

(** The check of [loadWebpackStats] on the parsed file; [None] is a parsed
    value that is [null].  An empty array is truthy. *)
Definition loadWebpackStats (parsed : option WebpackStats) : result WebpackStats :=
  match parsed with
  | None => Throw InvalidFormat
  | Some stats =>
      if negb (present (ws_assets stats)) && negb (present (ws_modules stats))
         && negb (present (ws_chunks stats))
      then Throw InvalidFormat
      else Ok stats
  end.

Definition loadAndProcessStatsFile (now : Z) (parsed : option WebpackStats)
  : result NormalizedBuildStats :=
  rawStats ← loadWebpackStats parsed;
  normalizeWebpackStats now rawStats.

(** The mock stats of [ingestion.ts]. *)

Definition harmony (moduleIdentifier : string) : Reason :=
  {| moduleIdentifier := moduleIdentifier; reasonType := "harmony import" |}.

Definition mockModule (name : string) (size : Z) (reasons : list Reason)
    (chunk : string) : WebpackModule :=
  {| wm_id := IdStr name; wm_name := Some name; wm_size := Some size;
     wm_reasons := Some reasons; wm_chunks := Some [IdStr chunk] |}.

(** A module as listed inside a chunk: [{ id, name, size }]. *)
Definition mockChunkModule (name : string) (size : Z) : WebpackModule :=
  {| wm_id := IdStr name; wm_name := Some name; wm_size := Some size;
     wm_reasons := None; wm_chunks := None |}.

Definition mockAsset (name : string) (size : Z) (chunks : list string)
  : WebpackAsset :=
  {| wa_name := Some name; wa_size := Some size;
     wa_chunks := Some (IdStr <$> chunks) |}.

Definition mockWebpackStats : WebpackStats :=
  {| ws_time := Some 5200;
     ws_assets := Some
       [ mockAsset "main.js" 1200000 ["main"];
         mockAsset "vendors.js" 800000 ["vendors"];
         mockAsset "style.css" 150000 ["main"];
         mockAsset "logo.png" 75000 [];
         mockAsset "app.js.map" 300000 ["main"] ];
     ws_modules := Some
       [ mockModule "./src/index.js" 50000 [harmony "./src/App.js"] "main";
         mockModule "./src/App.js" 80000
           [harmony "./src/components/Button.js";
            harmony "./node_modules/react/index.js"] "main";
         mockModule "./src/components/Button.js" 15000
           [harmony "./src/App.js"] "main";
         mockModule "./node_modules/react/index.js" 180000
           [harmony "./src/App.js"] "vendors";
         mockModule "./node_modules/lodash/index.js" 250000
           [harmony "./src/utils/data.js"] "vendors";
         mockModule "./src/utils/data.js" 10000 [harmony "./src/App.js"] "main";
         mockModule "./src/styles/main.css" 70000 [] "main" ];
     ws_chunks := Some
       [ {| wc_id := IdStr "main"; wc_names := Some ["main"];
            wc_size := Some 1350000;
            wc_modules := Some
              [ mockChunkModule "./src/index.js" 50000;
                mockChunkModule "./src/App.js" 80000;
                mockChunkModule "./src/components/Button.js" 15000;
                mockChunkModule "./src/utils/data.js" 10000;
                mockChunkModule "./src/styles/main.css" 70000 ] |};
         {| wc_id := IdStr "vendors"; wc_names := Some ["vendors"];
            wc_size := Some 430000;
            wc_modules := Some
              [ mockChunkModule "./node_modules/react/index.js" 180000;
                mockChunkModule "./node_modules/lodash/index.js" 250000 ] |} ]
  |}.

(** ** The module filter ([GraphVisualization.tsx], [TreemapVisualization.tsx]) *)

(** [activeTypes[key]] as a condition: a missing key is [undefined]. *)
Definition isActive (activeTypes : gmap string bool) (key : string) : bool :=
  default false (activeTypes !! key).

Definition filteredModules (stats : option NormalizedBuildStats)
    (searchTerm : string) (activeTypes : gmap string bool)
  : list NormalizedModule :=
  match stats with
  | None => []
  | Some stats =>
      let lowerSearchTerm := Str.toLowerCase searchTerm in
      List.filter
        (fun module =>
           isActive activeTypes (typeName (nm_type module)) &&
           (Str.includes (Str.toLowerCase (nm_name module)) lowerSearchTerm ||
            Str.includes (Str.toLowerCase (nm_path module)) lowerSearchTerm))
        (modules stats)
  end.

(** The initial filter state of [App.tsx]. *)
Definition initialActiveTypes : gmap string bool :=
  list_to_map
    [("js", true); ("css", true); ("image", true); ("font", true);
     ("json", true); ("wasm", true); ("unknown", true)].

(** ** The treemap hierarchy ([TreemapVisualization.tsx]) *)

Inductive NodeType := folder | ofModule (t : ModuleType).

Inductive TreemapNodeData := TreemapNode {
  name : string;
  path : string;
  children : list TreemapNodeData;
  value : number;
  type : NodeType;
  data : option NormalizedModule
}.

Definition setChildren (children : list TreemapNodeData) (n : TreemapNodeData)
  : TreemapNodeData :=
  TreemapNode (name n) (path n) children (value n) (type n) (data n).

(** [rootData]; the later revision in the same file sets [type] and [value]
    as below, the earlier one leaves both unset, which reads the same
    through [d.value || 0]. *)
Definition rootData : TreemapNodeData :=
  TreemapNode "root" "" [] (Some 0) folder None.

(** The loop over [pathParts] of one module, from [currentParent] on, and
    the two assignments after it.  [currentParent.children.find] returns a
    reference to the child, which is then updated in place. *)
Fixpoint insertPath (module : NormalizedModule) (currentPathArray : list string)
    (pathParts : list string) (currentParent : TreemapNodeData)
  : TreemapNodeData :=
  match pathParts with
  | [] =>
      TreemapNode (name currentParent) (path currentParent)
        (children currentParent) (raw (nm_size module)) (type currentParent)
        (Some module)
  | part :: rest =>
      let currentPathArray := currentPathArray ++ [part] in
      let fullPath := Str.join "/" currentPathArray in
      match list_find (fun c => name c = part) (children currentParent) with
      | Some (k, _) =>
          setChildren
            (alter (insertPath module currentPathArray rest) k
               (children currentParent))
            currentParent
      | None =>
          let existingChild :=
            TreemapNode part fullPath [] (Some 0)
              (match rest with
               | [] => ofModule (nm_type module)
               | _ => folder
               end)
              None in
          setChildren
            (children currentParent ++
               [insertPath module currentPathArray rest existingChild])
            currentParent
      end
  end.

Definition addModule (root : TreemapNodeData) (module : NormalizedModule)
  : TreemapNodeData :=
  insertPath module [] (Str.splitOn slash (nm_path module)) root.

Definition buildRootData (modules : list NormalizedModule) : TreemapNodeData :=
  fold_left addModule modules rootData.

(** *** d3-hierarchy *)

Inductive HierarchyNode := HNode {
  hdata : TreemapNodeData;
  hvalue : number;
  hchildren : list HierarchyNode
}.

(** [d3.hierarchy(data)]: one node per datum, [value] not yet set. *)
Fixpoint hierarchy (d : TreemapNodeData) : HierarchyNode :=
  match d with
  | TreemapNode _ _ cs _ _ _ => HNode d None (List.map hierarchy cs)
  end.

(** [node.sum(value)], a post-order traversal: the node's own value plus
    the values of its children. *)
Fixpoint sum (valueOf : TreemapNodeData -> Z) (node : HierarchyNode)
  : HierarchyNode :=
  match node with
  | HNode d _ cs =>
      let cs' := List.map (sum valueOf) cs in
      HNode d (fold_left jsAdd (List.map hvalue cs') (Some (valueOf d))) cs'
  end.

(** [Array.prototype.sort(compare)], which is stable: an element stays in
    front of the later elements it compares equal to. *)
Fixpoint sortInsert {A} (compare : A -> A -> Z) (x : A) (l : list A) : list A :=
  match l with
  | [] => [x]
  | y :: l' =>
      if compare x y <=? 0 then x :: y :: l' else y :: sortInsert compare x l'
  end.

Fixpoint jsSort {A} (compare : A -> A -> Z) (l : list A) : list A :=
  match l with
  | [] => []
  | x :: l' => sortInsert compare x (jsSort compare l')
  end.

(** [node.sort(compare)]: the children of every node are sorted.  The
    comparator used here reads [value] only, which sorting leaves alone, so
    the order in which the nodes are visited does not matter. *)
Fixpoint sort (compare : HierarchyNode -> HierarchyNode -> Z)
    (node : HierarchyNode) : HierarchyNode :=
  match node with
  | HNode d v cs => HNode d v (jsSort compare (List.map (sort compare) cs))
  end.

(** [node.descendants()]. *)
Fixpoint descendants (node : HierarchyNode) : list HierarchyNode :=
  match node with
  | HNode _ _ cs => node :: flat_map descendants cs
  end.

Definition byValueDesc (a b : HierarchyNode) : Z :=
  orZero (hvalue b) - orZero (hvalue a).

(** [d3.hierarchy(rootData).sum(d => d.value || 0).sort(...)]. *)
Definition treemapRoot (modules : list NormalizedModule) : HierarchyNode :=
  sort byValueDesc
    (sum (fun d => orZero (value d)) (hierarchy (buildRootData modules))).


(** ** The statements of the specification, in its own words *)



(** Every module record and every asset record carries its [name]. *)
Definition namesPresent (stats : WebpackStats) : Prop :=
  Forall (fun m => is_Some (wm_name m)) (default [] (ws_modules stats)) ∧
  Forall (fun a => is_Some (wa_name a)) (default [] (ws_assets stats)).

(** Section 7, [MalformedEntry]: a module record that lacks [name] or [size]
    is skipped and the remaining records are normalized. *)
Definition wellFormedModule (m : WebpackModule) : bool :=
  present (wm_name m) && present (wm_size m).

Definition skipsMalformedModules (now : Z) (stats : WebpackStats) : Prop :=
  ∃ bs, normalizeWebpackStats now stats = Ok bs ∧
        nm_id <$> modules bs =
        (fun m => String_ (wm_id m)) <$>
          List.filter wellFormedModule (default [] (ws_modules stats)).

Definition plainModule (id : string) (name : option string) (size : number)
  : WebpackModule :=
  {| wm_id := IdStr id; wm_name := name; wm_size := size;
     wm_reasons := None; wm_chunks := None |}.

Definition onlyModules (ms : list WebpackModule) : WebpackStats :=
  {| ws_time := None; ws_assets := None; ws_modules := Some ms;
     ws_chunks := None |}.

(** Two records, the first without [name]. *)
Definition missingNameStats : WebpackStats :=
  onlyModules [plainModule "a" None (Some 10);
               plainModule "b" (Some "./b.js") (Some 20)].

(** Two records, the first without [size]. *)
Definition missingSizeStats : WebpackStats :=
  onlyModules [plainModule "a" (Some "./a.js") None;
               plainModule "b" (Some "./b.js") (Some 20)].

(** Section 4.3: the entrypoint a chunk contributes according to the
    specification, from the raw chunk: only a chunk with a declared name
    contributes, and then its first resolvable module id. *)
Definition declaredName (c : WebpackChunk) : bool :=
  match wc_names c with
  | Some (_ :: _) => true
  | _ => false
  end.

Definition specEntrypoint (moduleIds : list string) (c : WebpackChunk)
  : option string :=
  if declaredName c then
    List.find (fun id => bool_decide (id ∈ moduleIds))
      ((fun m => String_ (wm_id m)) <$> default [] (wc_modules c))
  else None.

(** One module and one chunk that has no name. *)
Definition unnamedChunkStats : WebpackStats :=
  {| ws_time := None; ws_assets := None;
     ws_modules := Some [plainModule "./a.js" (Some "./a.js") (Some 10)];
     ws_chunks := Some
       [ {| wc_id := IdNum 0; wc_names := Some []; wc_size := Some 10;
            wc_modules := Some [plainModule "./a.js" (Some "./a.js") (Some 10)]
         |} ] |}.

Definition allActive : gmap string bool :=
  list_to_map ((fun t => (typeName t, true)) <$> allTypes).

(** The normalized record a raw module record gives rise to: everything but
    the two dependency lists, which the resolution pass fills. *)
Definition normalizedFrom (m : WebpackModule) (nm : NormalizedModule) : Prop :=
  ∃ name, wm_name m = Some name ∧
    nm_id nm = String_ (wm_id m) ∧
    nm_name nm = lastSegmentOr name ∧
    nm_path nm = name ∧
    nm_size nm = {| raw := wm_size m; gzip := approximateGzipSize (wm_size m) |} ∧
    nm_type nm = getTypeFromName name.

Definition sumZ (l : list Z) : Z := foldr Z.add 0 l.

Definition emptyBuildStats : NormalizedBuildStats :=
  {| timestamp := 0; totalSize := {| raw := Some 0; gzip := Some 0 |};
     totalTime := None; modules := []; assets := []; chunks := [];
     entrypoints := [] |}.

(** The normalized mock stats. *)
Definition mockBuildStats : NormalizedBuildStats :=
  match normalizeWebpackStats 0 mockWebpackStats with
  | Ok bs => bs
  | Throw _ => emptyBuildStats
  end.

(** The index agrees with the array: an id is mapped to the position of an
    object that has this id, and the id of every object is a key. *)
Definition indexed (st : ModuleStore) : Prop :=
  (∀ id i, moduleMap st !! id = Some i →
     ∃ nm, normalizedModules st !! i = Some nm ∧ nm_id nm = id) ∧
  (∀ i nm, normalizedModules st !! i = Some nm →
     is_Some (moduleMap st !! nm_id nm)).

(** Every recorded edge has its two ends: a dependency [t] of the object at
    position [i] is the id of an indexed object that lists this one as a
    dependent, and the other way round. *)
Definition linked (st : ModuleStore) : Prop :=
  ∀ i nm, normalizedModules st !! i = Some nm →
    (∀ t, t ∈ nm_dependencies nm →
       moduleMap st !! nm_id nm = Some i ∧ t ≠ nm_id nm ∧
       ∃ j nt, moduleMap st !! t = Some j ∧
               normalizedModules st !! j = Some nt ∧
               nm_id nm ∈ nm_dependents nt) ∧
    (∀ s, s ∈ nm_dependents nm →
       moduleMap st !! nm_id nm = Some i ∧ s ≠ nm_id nm ∧
       ∃ k ns, moduleMap st !! s = Some k ∧
               normalizedModules st !! k = Some ns ∧
               nm_id nm ∈ nm_dependencies ns).

(** What one reason does to the object at position [k]. *)
Definition linkAt (source target : string) (i j k : nat)
    (nm : NormalizedModule) : NormalizedModule :=
  (if decide (k = j) then pushDependent source else id)
    ((if decide (k = i) then pushDependency target else id) nm).

(** The state of the module store during the resolution pass over the raw
    records [raws]. *)
Definition resolved (raws : list WebpackModule) (st : ModuleStore) : Prop :=
  indexed st ∧ linked st ∧ Forall2 normalizedFrom raws (normalizedModules st).

(** The per-asset gzip estimate as the total reads it: [size.gzip || 0]. *)
Definition assetGzip (a : NormalizedAsset) : Z := orZero (gzip (na_size a)).

(** Section 3, the invariant of the dependency relations. *)
Definition symmetricEdges (ms : list NormalizedModule) : Prop :=
  ∀ a b, a ∈ ms → b ∈ ms →
    (nm_id b ∈ nm_dependencies a ↔ nm_id a ∈ nm_dependents b).

Definition noSelfReference (ms : list NormalizedModule) : Prop :=
  ∀ a, a ∈ ms →
    (nm_id a ∉ nm_dependencies a) ∧ (nm_id a ∉ nm_dependents a).

Definition closedEdges (ms : list NormalizedModule) : Prop :=
  ∀ a x, a ∈ ms → x ∈ nm_dependencies a ∨ x ∈ nm_dependents a →
    ∃ b, b ∈ ms ∧ nm_id b = x.

(** Three records, two of which have the id ["1"] once coerced; the first
    has the second as its reason. *)
Definition duplicateIdStats : WebpackStats :=
  onlyModules
    [ {| wm_id := IdNum 1; wm_name := Some "./a.js"; wm_size := Some 10;
         wm_reasons := Some [harmony "2"]; wm_chunks := None |};
      {| wm_id := IdNum 2; wm_name := Some "./b.js"; wm_size := Some 20;
         wm_reasons := None; wm_chunks := None |};
      {| wm_id := IdStr "1"; wm_name := Some "./c.js"; wm_size := Some 30;
         wm_reasons := None; wm_chunks := None |} ].

(** Section 8: what the specification expects of the mock input. *)
Definition mockExpectation (bs : NormalizedBuildStats) : Prop :=
  raw (totalSize bs) = Some 2525000 ∧
  length (modules bs) = 7%nat ∧
  length (chunks bs) = 2%nat ∧
  ∀ m, m ∈ modules bs → nm_id m = "./src/App.js" →
    (∀ x, x ∈ nm_dependencies m ↔
          x = "./src/components/Button.js" ∨ x = "./node_modules/react/index.js") ∧
    (∀ x, x ∈ nm_dependents m ↔ x = "./src/index.js").

(** Binary64 rounding: the mantissa [m] after its [k] low bits are dropped
    and the rest is rounded to the nearest, to even at a tie. *)
Definition rounded (m k : Z) : Z :=
  round_nearest_even (m / 2 ^ k)
    (loc_of_shr_record {| shr_m := m / 2 ^ k;
                          shr_r := Z.testbit m (k - 1);
                          shr_s := negb (m mod 2 ^ (k - 1) =? 0) |}).

(** The first size at which [Math.floor(rawSize * 0.3)] is not the floor of
    three tenths of the size: the product is then above [2 ^ 51], where
    binary64 has halves only, and [.9] is rounded up. *)
Definition firstInexact : Z := 7505999378950833.

(** The size record of an entity whose record in the input has the size
    [size]: the raw part is that size; for a size from 0 up to
    [firstInexact] the gzip part is the floor of three tenths of it; for
    every size from 0 that a binary64 holds exactly the gzip part is that
    floor or one more, and lies between 0 and the size; without a size there
    is no gzip part. *)
Definition gzipEstimated (size : number) (s : Size) : Prop :=
  raw s = size ∧
  match size with
  | Some r =>
      (0 <= r < firstInexact → gzip s = Some (3 * r / 10)) ∧
      (0 <= r < 2 ^ 53 →
       ∃ g, gzip s = Some g ∧ 3 * r / 10 <= g <= 3 * r / 10 + 1 ∧ 0 <= g <= r)
  | None => gzip s = None
  end.

(** The estimate as the specification states it: the gzip part is present
    and is the floor of three tenths of the raw part. *)
Definition exactEstimate (s : Size) : Prop :=
  ∃ g, gzip s = Some g ∧ ∀ r, raw s = Some r → g = 3 * r / 10.

Definition exactEstimates (bs : NormalizedBuildStats) : Prop :=
  (∀ m, m ∈ modules bs → exactEstimate (nm_size m)) ∧
  (∀ a, a ∈ assets bs → exactEstimate (na_size a)).

(** One module of 7505999378950833 bytes. *)
Definition largeModuleStats : WebpackStats :=
  onlyModules [plainModule "a" (Some "./a.js") (Some firstInexact)].

(** A chunk with a declared, non-empty first name whose module ids are
    non-empty strings. *)
Definition properlyNamed (c : WebpackChunk) : Prop :=
  (∃ n names, wc_names c = Some (n :: names) ∧ n ≠ "") ∧
  Forall (fun m => String_ (wm_id m) ≠ "") (default [] (wc_modules c)).

(** *** The hierarchy *)

(** [module.path.split('/')]. *)
Definition segments (m : NormalizedModule) : list string :=
  Str.splitOn slash (nm_path m).

(** [p] is a proper prefix of [q]. *)
Fixpoint properPrefixb (p q : list string) : bool :=
  match p, q with
  | [], _ :: _ => true
  | x :: p', y :: q' => String.eqb x y && properPrefixb p' q'
  | _, _ => false
  end.

(** No module's path continues the whole path of another module, as with
    files, where a path cannot be a file and a directory at once. *)
Definition prefixFree (ms : list NormalizedModule) : Prop :=
  forallb (fun a =>
    forallb (fun b => negb (properPrefixb (segments a) (segments b))) ms) ms
  = true.

(** [P] holds of a node, reached along the segments [p], and of all the
    nodes below it. *)
Inductive allNodesAt (P : list string → TreemapNodeData → Prop)
  : list string → TreemapNodeData → Prop :=
  | allNodesAt_intro p n :
      P p n →
      Forall (fun c => allNodesAt P (p ++ [name c]) c) (children n) →
      allNodesAt P p n.

(** What the builder maintains of the node at [p] after the modules [ms]:
    a node that carries a module carries one of [ms] whose path is [p], with
    its raw size as value; a node that carries none has value 0; and a node
    with children lies on the way to a module of [ms]. *)
Definition nodeOk (ms : list NormalizedModule) (p : list string)
    (n : TreemapNodeData) : Prop :=
  match data n with
  | Some m => m ∈ ms ∧ segments m = p ∧ value n = raw (nm_size m)
  | None => value n = Some 0
  end ∧
  (children n ≠ [] → ∃ m r, m ∈ ms ∧ r ≠ [] ∧ segments m = p ++ r).

(** A node without children carries a module. *)
Definition hasLeafData (_ : list string) (n : TreemapNodeData) : Prop :=
  children n = [] → is_Some (data n).

(** The value [sum] gives the node of a datum: its own value and those of
    everything below. *)
Fixpoint total (d : TreemapNodeData) : Z :=
  match d with
  | TreemapNode _ _ cs v _ _ => orZero v + sumZ (List.map total cs)
  end.

(** The datum and everything below it. *)
Fixpoint nodes (d : TreemapNodeData) : list TreemapNodeData :=
  match d with
  | TreemapNode _ _ cs _ _ _ => d :: flat_map nodes cs
  end.

Definition ownValue (d : TreemapNodeData) : Z := orZero (value d).

Definition childValues (h : HierarchyNode) : Z :=
  sumZ ((fun c => orZero (hvalue c)) <$> hchildren h).

(** The hierarchy node of a datum, after [sum] and [sort]. *)
Definition view (d : TreemapNodeData) : HierarchyNode :=
  sort byValueDesc (sum ownValue (hierarchy d)).

(** Section 8, the aggregation invariant, of one node. *)
Definition aggregates (h : HierarchyNode) : Prop :=
  (hchildren h ≠ [] → hvalue h = Some (childValues h)) ∧
  (hchildren h = [] →
   ∀ m, data (hdata h) = Some m → hvalue h = Some (orZero (raw (nm_size m)))).

Definition pathModule (id path : string) (size : Z) : NormalizedModule :=
  {| nm_id := id; nm_name := lastSegmentOr path; nm_path := path;
     nm_size := {| raw := Some size; gzip := approximateGzipSize (Some size) |};
     nm_type := getTypeFromName path;
     nm_dependencies := []; nm_dependents := [] |}.

(** A module below the path of another module. *)
Definition nestedModules : list NormalizedModule :=
  [pathModule "1" "a/b" 1; pathModule "2" "a" 2].






(** The raw stats that normalize to [nestedModules]. *)
Definition nestedStats : WebpackStats :=
  onlyModules [plainModule "1" (Some "a/b") (Some 1);
               plainModule "2" (Some "a") (Some 2)].

(** ** More of the code *)

(** *** [utils/vscode.ts] *)

Definition getTypeColor (type : string) : string :=
  if String.eqb type "js" then "#007ACC"
  else if String.eqb type "css" then "#28A745"
  else if String.eqb type "image" then "#FFC107"
  else if String.eqb type "font" then "#6F42C1"
  else if String.eqb type "json" then "#FF6F00"
  else if String.eqb type "wasm" then "#663399"
  else if String.eqb type "map" then "#999999"
  else if String.eqb type "html" then "#E34C26"
  else if String.eqb type "unknown" then "#BBBBBB"
  else "#BBBBBB".

(** [parts[parts.length - 1]]; [parts] is never empty. *)
Definition getShortModuleName (path : string) : string :=
  let parts := Str.splitOn slash path in
  List.last parts EmptyString.

(** [[...modules].sort((a, b) => (b.size.raw || 0) - (a.size.raw || 0))]. *)
Definition bySizeDesc (a b : NormalizedModule) : Z :=
  orZero (raw (nm_size b)) - orZero (raw (nm_size a)).

Definition sortModulesBySize (modules : list NormalizedModule)
  : list NormalizedModule :=
  jsSort bySizeDesc modules.

(** *** [Dashbord.tsx] *)

(** [stats ? sortModulesBySize(stats.modules).slice(0, 5) : []]. *)
Definition topModules (stats : option NormalizedBuildStats)
  : list NormalizedModule :=
  match stats with
  | Some stats => take 5 (sortModulesBySize (modules stats))
  | None => []
  end.

(** *** [GraphVisualization.tsx]: the links *)

Definition visibleModuleIds (modules : list NormalizedModule) : gset string :=
  list_to_set (nm_id <$> modules).

(** The two nested [forEach] that fill [links], as (source, target). *)
Definition links (modules : list NormalizedModule) : list (string * string) :=
  flat_map
    (fun sourceModule =>
       (fun targetId => (nm_id sourceModule, targetId)) <$>
         List.filter
           (fun targetId => bool_decide (targetId ∈ visibleModuleIds modules))
           (nm_dependencies sourceModule))
    modules.

(** *** [App.tsx] and [FilterControls.tsx]: the type filter *)

(** [{ ...prev, [type]: !prev[type] }]. *)
Definition handleToggleType (type : string) (prev : gmap string bool)
  : gmap string bool :=
  <[type := negb (isActive prev type)]> prev.

(** The check boxes [FilterControls] offers. *)
Definition moduleTypes : list string :=
  ["js"; "css"; "image"; "font"; "json"; "wasm"; "unknown"].

(** *** [TreemapVisualization.tsx]: drilling down *)

(** [node.descendants()] as an array: d3 iterates a hierarchy level by
    level, every level from left to right.  [fuel] bounds the number of
    levels; [height] is enough. *)
Fixpoint height (node : HierarchyNode) : nat :=
  match node with
  | HNode _ _ cs => S (foldr Nat.max 0%nat (List.map height cs))
  end.

Fixpoint levels (fuel : nat) (current : list HierarchyNode)
  : list HierarchyNode :=
  match fuel, current with
  | S fuel, _ :: _ => current ++ levels fuel (flat_map hchildren current)
  | _, _ => []
  end.

Definition descendantsInOrder (root : HierarchyNode) : list HierarchyNode :=
  levels (height root) [root].

(** [currentPath.length === 0 ? root
     : root.descendants().find(d => d.data.path === currentPath.join('/'))
       || root]. *)
Definition currentRootNode (root : HierarchyNode) (currentPath : list string)
  : HierarchyNode :=
  match currentPath with
  | [] => root
  | _ =>
      default root
        (List.find
           (fun d => String.eqb (path (hdata d)) (Str.join "/" currentPath))
           (descendantsInOrder root))
  end.

(** [node.leaves()]: the nodes without children, in traversal order. *)
Fixpoint leaves (node : HierarchyNode) : list HierarchyNode :=
  match node with
  | HNode _ _ [] => [node]
  | HNode _ _ cs => flat_map leaves cs
  end.

(** The click handler of a cell, as the new value of [currentPath]. *)
Definition onCellClick (d : HierarchyNode) (currentPath : list string)
  : list string :=
  if (0 <? length (children (hdata d)))%nat
  then Str.splitOn slash (path (hdata d))
  else currentPath.

(** *** Statements about the added code *)

(** The extensions [getTypeFromName] knows, in lower case. *)
Definition extensionTable : list (string * ModuleType) :=
  [(".js", js); (".jsx", js); (".ts", js); (".tsx", js);
   (".css", css); (".scss", css); (".less", css);
   (".png", image); (".jpg", image); (".jpeg", image); (".gif", image);
   (".svg", image);
   (".woff", font); (".woff2", font); (".ttf", font); (".otf", font);
   (".json", json); (".wasm", wasm); (".map", map_); (".html", html)].

(** A string without the character [/]. *)
Definition slashFree (w : string) : Prop := Str.includes w "/" = false.

(** The [type] of a node as the string the code holds. *)
Definition nodeTypeName (t : NodeType) : string :=
  match t with
  | folder => "folder"
  | ofModule t => typeName t
  end.

#[export] Instance ModuleType_eq_dec : EqDecision ModuleType.
Proof. solve_decision. Defined.

Definition rawSize (m : NormalizedModule) : Z := orZero (raw (nm_size m)).

(** The filter state after the user has clicked the check boxes [toggles],
    one after the other. *)
Definition afterToggles (toggles : list string) (start : gmap string bool)
  : gmap string bool :=
  fold_left (fun prev type => handleToggleType type prev) toggles start.

(** All recorded dependency edges of a module list, as (source, target). *)
Definition allEdges (modules : list NormalizedModule) : list (string * string) :=
  flat_map
    (fun m => (fun targetId => (nm_id m, targetId)) <$> nm_dependencies m)
    modules.

(** What the builder maintains of the [name] and [path] of the node at the
    segments [p], the root apart. *)
Definition pathOk (p : list string) (n : TreemapNodeData) : Prop :=
  p ≠ [] → path n = Str.join "/" p ∧ name n = List.last p EmptyString.

(** The number of entries in the dependency lists, and in the dependent
    lists, of a module list. *)
Definition dependencyCount (ms : list NormalizedModule) : nat :=
  sum_list_with (fun m => length (nm_dependencies m)) ms.

Definition dependentCount (ms : list NormalizedModule) : nat :=
  sum_list_with (fun m => length (nm_dependents m)) ms.

(** The dependency list, and the dependent list, of the object at
    position [k] of the store. *)
Definition depsAt (st : ModuleStore) (k : nat) : list string :=
  match normalizedModules st !! k with
  | Some nm => nm_dependencies nm
  | None => []
  end.

Definition dptsAt (st : ModuleStore) (k : nat) : list string :=
  match normalizedModules st !! k with
  | Some nm => nm_dependents nm
  | None => []
  end.

(** [moduleMap.has(targetModuleId) && sourceModuleId !== targetModuleId]. *)
Definition resolvableFrom (moduleMap : gmap string nat)
    (sourceModuleId targetModuleId : string) : bool :=
  bool_decide (is_Some (moduleMap !! targetModuleId)) &&
  negb (String.eqb sourceModuleId targetModuleId).

(** The identifiers a raw record names as reasons. *)
Definition reasonIds (m : WebpackModule) : list string :=
  moduleIdentifier <$> default [] (wm_reasons m).

(** What one reason [t] of the record with id [src] adds to the dependents
    of the object at position [k]. *)
Definition dependentEntry (moduleMap : gmap string nat) (src : string)
    (k : nat) (t : string) : list string :=
  if bool_decide (moduleMap !! t = Some k) && negb (String.eqb src t)
  then [src] else [].

(** The children of a node have pairwise different names. *)
Definition siblingsDistinct (_ : list string) (n : TreemapNodeData) : Prop :=
  NoDup (name <$> children n).

(** The normalized stats of [duplicateIdStats]. *)
Definition duplicateIdBuildStats : NormalizedBuildStats :=
  match normalizeWebpackStats 0 duplicateIdStats with
  | Ok bs => bs
  | Throw _ => emptyBuildStats
  end.

(** * Properties *)

(** ** Strings *)

Lemma append_cons a (s t : string) : String a s +:+ t = String a (s +:+ t).
Proof. reflexivity. Qed.

Lemma append_empty (t : string) : "" +:+ t = t.
Proof. reflexivity. Qed.

Lemma startsWith_spec s t :
  Str.startsWith s t = true ↔ ∃ after, s = t +:+ after.
Proof.
  revert s. induction t as [|b t IH]; intros s; simpl.
  - split; eauto.
  - destruct s as [|a s]; simpl.
    + split; [discriminate | intros [? ?]; discriminate].
    + setoid_rewrite append_cons.
      destruct (Ascii.eqb_spec a b) as [->|Hne].
      * rewrite IH. split; intros [after H]; exists after; congruence.
      * split; [discriminate | intros [? H]; congruence].
Qed.

Lemma includes_spec s t :
  Str.includes s t = true ↔ ∃ before after, s = before +:+ t +:+ after.
Proof.
  induction s as [|a s IH]; simpl.
  - rewrite orb_false_r, startsWith_spec. split.
    + intros [after H]. by exists "", after.
    + intros [before [after H]]. destruct before;
        [by exists after|discriminate].
  - rewrite orb_true_iff, startsWith_spec, IH. split.
    + intros [[after H]|[before [after H]]].
      * by exists "", after.
      * exists (String a before), after. rewrite append_cons. by rewrite H.
    + intros [before [after H]]. destruct before as [|c before].
      * left. by exists after.
      * right. exists before, after. rewrite append_cons in H. congruence.
Qed.

Lemma includes_empty s : Str.includes s "" = true.
Proof. by destruct s. Qed.

Lemma toLowerCase_empty_inv q : Str.toLowerCase q = "" → q = "".
Proof. by destruct q. Qed.

(** ** The filter *)

Lemma isActive_spec activeTypes key :
  isActive activeTypes key = true ↔ activeTypes !! key = Some true.
Proof.
  unfold isActive. destruct (activeTypes !! key) as [[]|]; simpl;
    split; congruence.
Qed.


(** C9. With every type active and the empty query, the filter returns the
    module list as it is. *)
Theorem filteredModules_unfiltered (stats : NormalizedBuildStats)
    (activeTypes : gmap string bool) :
  (∀ t, activeTypes !! typeName t = Some true) →
  filteredModules (Some stats) "" activeTypes = modules stats.
Proof.
  intros Hall. simpl. induction (modules stats) as [|m ms IH]; [done|].
  simpl. rewrite IH, includes_empty.
  by rewrite (proj2 (isActive_spec _ _) (Hall (nm_type m))).
Qed.

Lemma filteredModules_unfiltered_witness :
  (∀ t, allActive !! typeName t = Some true) ∧
  filteredModules (Some mockBuildStats) "" allActive = modules mockBuildStats.
Proof.
  assert (H : ∀ t, allActive !! typeName t = Some true)
    by (intros []; vm_compute; reflexivity).
  split; [exact H|]. apply (filteredModules_unfiltered mockBuildStats allActive H).
Defined.

(** Section 8: searching for ["button"] with every type active yields the
    one module [./src/components/Button.js]. *)
Example search_button :
  nm_id <$> filteredModules (Some mockBuildStats) "button" allActive
  = ["./src/components/Button.js"].
Proof. vm_compute. reflexivity. Qed.

(** The filter state [App.tsx] starts from has no entry for the types [map]
    and [html]: modules of these two types are hidden from the start. *)
Lemma initialActiveTypes_hides_map_html :
  isActive initialActiveTypes (typeName map_) = false ∧
  isActive initialActiveTypes (typeName html) = false.
Proof. split; vm_compute; reflexivity. Qed.

(** ** The normalizer *)

Lemma bind_Ok {A B} (a : A) (k : A → result B) : Ok a ≫= k = k a.
Proof. reflexivity. Qed.

Lemma bind_Throw {A B} e (k : A → result B) : Throw e ≫= k = Throw e.
Proof. reflexivity. Qed.

Lemma bind_Ok_inv {A B} (r : result A) (k : A → result B) b :
  r ≫= k = Ok b → ∃ a, r = Ok a ∧ k a = Ok b.
Proof. destruct r as [a|e]; [eauto | discriminate]. Qed.

Lemma bind_Throw_inv {A B} (r : result A) (k : A → result B) e :
  r ≫= k = Throw e → r = Throw e ∨ ∃ a, r = Ok a ∧ k a = Throw e.
Proof. destruct r as [a|e']; [eauto | intros [= <-]; by left]. Qed.

Lemma createModule_normalizedFrom m nm :
  createModule m = Ok nm → normalizedFrom m nm.
Proof.
  unfold createModule. destruct (wm_name m) as [name|] eqn:Hn; [|discriminate].
  intros [= <-]. exists name. by repeat split.
Qed.

Lemma createModule_fresh m nm :
  createModule m = Ok nm → nm_dependencies nm = [] ∧ nm_dependents nm = [].
Proof.
  unfold createModule. destruct (wm_name m); [|discriminate].
  by intros [= <-].
Qed.

Lemma createModule_Throw m e :
  createModule m = Throw e ↔ wm_name m = None ∧ e = TypeError.
Proof.
  unfold createModule. destruct (wm_name m); split; try discriminate.
  - intros [? ?]; discriminate.
  - by intros [= <-].
  - by intros [_ ->].
Qed.

Lemma normalizedFrom_pushDependency m nm t :
  normalizedFrom m nm → normalizedFrom m (pushDependency t nm).
Proof. intros [name H]. by exists name. Qed.

Lemma normalizedFrom_pushDependent m nm s :
  normalizedFrom m nm → normalizedFrom m (pushDependent s nm).
Proof. intros [name H]. by exists name. Qed.

Lemma creationStep_Ok st m nm :
  createModule m = Ok nm → creationStep st m = Ok (pushModule st nm).
Proof. unfold creationStep. by intros ->. Qed.

Lemma creationStep_Throw st m e :
  createModule m = Throw e → creationStep st m = Throw e.
Proof. unfold creationStep. by intros ->. Qed.

(** The creation pass appends one record per raw record, or throws. *)
Lemma creation_Ok ms : ∀ st st',
  forEachM creationStep ms st = Ok st' →
  ∃ nms, Forall2 (fun m nm => createModule m = Ok nm) ms nms ∧
         normalizedModules st' = normalizedModules st ++ nms.
Proof.
  induction ms as [|m ms IH]; intros st st' H; simpl in H.
  - injection H as <-. exists []. split; [constructor|]. by rewrite app_nil_r.
  - apply bind_Ok_inv in H as [st1 [H1 H2]].
    unfold creationStep in H1. apply bind_Ok_inv in H1 as [nm [Hc H1]].
    injection H1 as <-. apply IH in H2 as [nms [HF Hl]].
    exists (nm :: nms). split; [by constructor|].
    rewrite Hl. simpl. by rewrite <- app_assoc.
Qed.

Lemma creation_Throw ms : ∀ st e,
  forEachM creationStep ms st = Throw e ↔
  e = TypeError ∧ Exists (fun m => wm_name m = None) ms.
Proof.
  induction ms as [|m ms IH]; intros st e.
  - simpl. split; [discriminate | intros [_ H]; inversion H].
  - change (forEachM creationStep (m :: ms) st)
      with (creationStep st m ≫= forEachM creationStep ms).
    destruct (createModule m) as [nm|e'] eqn:Hc;
      [rewrite (creationStep_Ok st m nm Hc), bind_Ok
      |rewrite (creationStep_Throw st m e' Hc), bind_Throw].
    + rewrite IH. split; intros [-> H]; split; try done.
      * by apply Exists_cons_tl.
      * inversion H as [? ? Hm|]; subst; [|done].
        unfold createModule in Hc. by rewrite Hm in Hc.
    + apply createModule_Throw in Hc as [Hm ->]. split.
      * intros [= <-]. split; [done|]. by apply Exists_cons_hd.
      * by intros [-> _].
Qed.

(** *** The index after the creation pass *)

Lemma indexed_empty : indexed emptyStore.
Proof. split; intros ? ?; simpl; [by rewrite lookup_empty | done]. Qed.

Lemma indexed_pushModule st nm : indexed st → indexed (pushModule st nm).
Proof.
  intros [I1 I2]. split; simpl.
  - intros id i. rewrite lookup_insert. case_decide as Hid.
    + intros [= <-]. exists nm. split; [|done].
      by rewrite lookup_app_r, Nat.sub_diag.
    + intros Hi. destruct (I1 id i Hi) as [nm' [Hl Hnm']].
      exists nm'. split; [|done]. by apply lookup_app_l_Some.
  - intros i nm' Hl. rewrite lookup_insert. case_decide; [by eexists|].
    apply lookup_app_Some in Hl as [Hl|[Hge Hl]]; [by eapply I2|].
    destruct (i - length (normalizedModules st))%nat; simpl in Hl;
      [|by rewrite lookup_nil in Hl].
    congruence.
Qed.

Lemma creation_indexed ms : ∀ st st',
  forEachM creationStep ms st = Ok st' → indexed st → indexed st'.
Proof.
  induction ms as [|m ms IH]; intros st st' H Hst; simpl in H.
  - by injection H as <-.
  - apply bind_Ok_inv in H as [st1 [H1 H2]].
    unfold creationStep in H1. apply bind_Ok_inv in H1 as [nm [_ H1]].
    injection H1 as <-. eapply IH; [exact H2|]. by apply indexed_pushModule.
Qed.

(** *** The resolution pass *)

Lemma linkAt_id s t i j k nm : nm_id (linkAt s t i j k nm) = nm_id nm.
Proof. unfold linkAt. by repeat case_decide. Qed.

Lemma linkAt_dependencies s t i j k nm :
  nm_dependencies (linkAt s t i j k nm)
  = nm_dependencies nm ++ (if decide (k = i) then [t] else []).
Proof. unfold linkAt. repeat case_decide; simpl; by rewrite ?app_nil_r. Qed.

Lemma linkAt_dependents s t i j k nm :
  nm_dependents (linkAt s t i j k nm)
  = nm_dependents nm ++ (if decide (k = j) then [s] else []).
Proof. unfold linkAt. repeat case_decide; simpl; by rewrite ?app_nil_r. Qed.

Lemma linkAt_normalizedFrom s t i j k m nm :
  normalizedFrom m nm → normalizedFrom m (linkAt s t i j k nm).
Proof.
  unfold linkAt. repeat case_decide; simpl;
    eauto using normalizedFrom_pushDependency, normalizedFrom_pushDependent.
Qed.

Lemma lookup_two_alters s t i j k (l : list NormalizedModule) :
  alter (pushDependent s) j (alter (pushDependency t) i l) !! k
  = linkAt s t i j k <$> l !! k.
Proof.
  unfold linkAt. destruct (decide (k = j)) as [->|Hj].
  - rewrite list_lookup_alter_eq. destruct (decide (j = i)) as [->|Hi].
    + rewrite list_lookup_alter_eq. by destruct (l !! i).
    + rewrite list_lookup_alter_ne by done. by destruct (l !! j).
  - rewrite list_lookup_alter_ne by done. destruct (decide (k = i)) as [->|Hi].
    + rewrite list_lookup_alter_eq. by destruct (l !! i).
    + rewrite list_lookup_alter_ne by done. by destruct (l !! k).
Qed.

(** A reason either leaves the store alone or links two indexed objects. *)
Lemma linkReason_cases src i st reason :
  linkReason src i st reason = st ∨
  ∃ j, moduleMap st !! moduleIdentifier reason = Some j ∧
       src ≠ moduleIdentifier reason ∧
       moduleMap (linkReason src i st reason) = moduleMap st ∧
       ∀ k, normalizedModules (linkReason src i st reason) !! k
            = linkAt src (moduleIdentifier reason) i j k
                <$> normalizedModules st !! k.
Proof.
  unfold linkReason.
  destruct (moduleMap st !! moduleIdentifier reason) as [j|] eqn:Hj; [|by left].
  case_decide as Hne; [|by left]. right. exists j. repeat split; [done|].
  intros k. simpl. apply lookup_two_alters.
Qed.

Lemma linkReason_indexed src i st reason :
  indexed st → indexed (linkReason src i st reason).
Proof.
  intros Hst. destruct (linkReason_cases src i st reason)
    as [->|[j [Hj [Hne [Hm Hl]]]]]; [done|].
  destruct Hst as [I1 I2]. split.
  - intros id k. rewrite Hm, Hl. intros Hk.
    destruct (I1 id k Hk) as [nm [Hnm Hid]].
    eexists. rewrite Hnm. split; [done|]. by rewrite linkAt_id.
  - intros k nm'. rewrite Hm, Hl.
    destruct (normalizedModules st !! k) as [nm|] eqn:Hk; [|done].
    intros [= <-]. rewrite linkAt_id. by eapply I2.
Qed.

Lemma linkReason_moduleMap src i st reason :
  moduleMap (linkReason src i st reason) = moduleMap st.
Proof.
  destruct (linkReason_cases src i st reason) as [->|[j [_ [_ [Hm _]]]]]; done.
Qed.

Lemma linkReason_linked src i st reason :
  indexed st → moduleMap st !! src = Some i →
  linked st → linked (linkReason src i st reason).
Proof.
  intros [I1 I2] Hsrc Hst.
  destruct (linkReason_cases src i st reason)
    as [->|[j [Hj [Hne [Hm Hl]]]]]; [done|].
  set (t := moduleIdentifier reason) in *.
  destruct (I1 src i Hsrc) as [ns [Hns Hnsid]].
  destruct (I1 t j Hj) as [nt [Hnt Hntid]].
  intros k nm'. rewrite Hm, Hl.
  destruct (normalizedModules st !! k) as [nm|] eqn:Hk; [|done].
  intros [= <-]. rewrite linkAt_id, linkAt_dependencies, linkAt_dependents.
  destruct (Hst k nm Hk) as [Hdeps Hdpts]. split.
  - intros x [Hx|Hx]%elem_of_app.
    + destruct (Hdeps x Hx) as [Hmk [Hxne [j0 [nt0 [Hj0 [Hnt0 Hin]]]]]].
      repeat split; [done..|]. exists j0, (linkAt src t i j j0 nt0).
      rewrite Hl, Hnt0, linkAt_dependents. repeat split; [done|].
      apply elem_of_app. by left.
    + case_decide as Hki; [subst k|by apply elem_of_nil in Hx].
      apply list_elem_of_singleton in Hx as ->.
      assert (nm = ns) as -> by congruence.
      rewrite Hnsid. repeat split; [done..|].
      exists j, (linkAt src t i j j nt).
      rewrite Hl, Hnt, linkAt_dependents. repeat split; [done|].
      apply elem_of_app. right. rewrite decide_True by done.
      by apply list_elem_of_singleton.
  - intros x [Hx|Hx]%elem_of_app.
    + destruct (Hdpts x Hx) as [Hmk [Hxne [k0 [ns0 [Hk0 [Hns0 Hin]]]]]].
      repeat split; [done..|]. exists k0, (linkAt src t i j k0 ns0).
      rewrite Hl, Hns0, linkAt_dependencies. repeat split; [done|].
      apply elem_of_app. by left.
    + case_decide as Hkj; [subst k|by apply elem_of_nil in Hx].
      apply list_elem_of_singleton in Hx as ->.
      assert (nm = nt) as -> by congruence.
      rewrite Hntid. repeat split; [done| |].
      { intros ->. by apply Hne. }
      exists i, (linkAt src t i j i ns).
      rewrite Hl, Hns, linkAt_dependencies. repeat split; [done|].
      apply elem_of_app. right. rewrite decide_True by done.
      by apply list_elem_of_singleton.
Qed.

Lemma linkReason_normalizedFrom raws src i st reason :
  Forall2 normalizedFrom raws (normalizedModules st) →
  Forall2 normalizedFrom raws (normalizedModules (linkReason src i st reason)).
Proof.
  intros HF. destruct (linkReason_cases src i st reason)
    as [->|[j [_ [_ [_ Hl]]]]]; [done|].
  apply Forall2_lookup. intros k. rewrite Hl.
  rewrite Forall2_lookup in HF. specialize (HF k).
  destruct HF as [m nm Hm|]; simpl; constructor.
  by apply linkAt_normalizedFrom.
Qed.

Lemma reasons_resolved raws src i reasons : ∀ st,
  moduleMap st !! src = Some i → resolved raws st →
  resolved raws (fold_left (linkReason src i) reasons st) ∧
  moduleMap (fold_left (linkReason src i) reasons st) = moduleMap st.
Proof.
  induction reasons as [|reason reasons IH]; intros st Hsrc Hst; [done|].
  simpl. destruct Hst as [Hi [Hl HF]].
  destruct (IH (linkReason src i st reason)) as [Hres Hmap].
  - by rewrite linkReason_moduleMap.
  - split; [by apply linkReason_indexed|].
    split; [by apply linkReason_linked|]. by apply linkReason_normalizedFrom.
  - split; [done|]. by rewrite Hmap, linkReason_moduleMap.
Qed.

Lemma resolutionStep_resolved raws st m :
  resolved raws st →
  resolved raws (resolutionStep st m) ∧
  moduleMap (resolutionStep st m) = moduleMap st.
Proof.
  intros Hst. unfold resolutionStep.
  destruct (moduleMap st !! String_ (wm_id m)) as [i|] eqn:Hi; [|done].
  destruct (wm_reasons m) as [reasons|]; [|done].
  by apply reasons_resolved.
Qed.

Lemma resolution_resolved raws ms : ∀ st,
  resolved raws st →
  resolved raws (fold_left resolutionStep ms st) ∧
  moduleMap (fold_left resolutionStep ms st) = moduleMap st.
Proof.
  induction ms as [|m ms IH]; intros st Hst; [done|]. simpl.
  destruct (resolutionStep_resolved raws st m Hst) as [H1 H2].
  destruct (IH _ H1) as [H3 H4]. split; [done|]. by rewrite H4.
Qed.

Lemma linked_fresh st :
  Forall (fun nm => nm_dependencies nm = [] ∧ nm_dependents nm = [])
    (normalizedModules st) →
  linked st.
Proof.
  intros HF i nm Hi. rewrite Forall_lookup in HF.
  destruct (HF i nm Hi) as [-> ->]. split; intros x Hx; by apply elem_of_nil in Hx.
Qed.

Lemma resolved_empty : resolved [] emptyStore.
Proof.
  split; [apply indexed_empty|]. split; [|constructor].
  apply linked_fresh. constructor.
Qed.

(** The two passes over the modules. *)
Lemma processModules_resolved oms st :
  processModules oms = Ok st → resolved (default [] oms) st.
Proof.
  destruct oms as [ms|]; simpl.
  - intros H. apply bind_Ok_inv in H as [st1 [H1 H2]]. injection H2 as <-.
    apply resolution_resolved.
    destruct (creation_Ok ms _ _ H1) as [nms [HF Hl]]. simpl in Hl.
    split; [by apply (creation_indexed ms _ _ H1), indexed_empty|].
    rewrite Hl. split.
    + apply linked_fresh. rewrite Hl.
      clear -HF. induction HF as [|m nm ms nms Hc _ IH]; constructor; [|done].
      by eapply createModule_fresh.
    + eapply Forall2_impl; [exact HF|]. apply createModule_normalizedFrom.
  - intros [= <-]. apply resolved_empty.
Qed.

Lemma processModules_Throw oms e :
  processModules oms = Throw e ↔
  e = TypeError ∧ Exists (fun m => wm_name m = None) (default [] oms).
Proof.
  destruct oms as [ms|]; simpl.
  - rewrite <- (creation_Throw ms emptyStore e).
    destruct (forEachM creationStep ms emptyStore); by rewrite ?bind_Ok, ?bind_Throw.
  - split; [discriminate | intros [_ H]; inversion H].
Qed.

(** *** Assets *)

Lemma createAsset_Throw a e :
  createAsset a = Throw e ↔ wa_name a = None ∧ e = TypeError.
Proof.
  unfold createAsset. destruct (wa_name a); split; try discriminate.
  - intros [? ?]; discriminate.
  - by intros [= <-].
  - by intros [_ ->].
Qed.

Lemma createAsset_size a na :
  createAsset a = Ok na →
  na_size na = {| raw := wa_size a; gzip := approximateGzipSize (wa_size a) |}.
Proof.
  unfold createAsset. destruct (wa_name a); [|discriminate]. by intros [= <-].
Qed.

Lemma assetStep_Ok acc a na :
  createAsset a = Ok na →
  assetStep acc a =
    Ok {| normalizedAssets := normalizedAssets acc ++ [na];
          totalRawSize := jsAdd (totalRawSize acc) (wa_size a);
          totalGzipSize := totalGzipSize acc + assetGzip na |}.
Proof. unfold assetStep. by intros ->. Qed.

Lemma assetStep_Throw acc a e :
  createAsset a = Throw e → assetStep acc a = Throw e.
Proof. unfold assetStep. by intros ->. Qed.

Lemma sumZ_app l k : sumZ (l ++ k) = sumZ l + sumZ k.
Proof. unfold sumZ. induction l as [|x l IH]; simpl; lia. Qed.

Lemma assets_Ok ws : ∀ acc acc',
  forEachM assetStep ws acc = Ok acc' →
  ∃ nas, Forall2 (fun a na => createAsset a = Ok na) ws nas ∧
         normalizedAssets acc' = normalizedAssets acc ++ nas ∧
         totalGzipSize acc' = totalGzipSize acc + sumZ (assetGzip <$> nas) ∧
         totalRawSize acc' = fold_left jsAdd (wa_size <$> ws) (totalRawSize acc).
Proof.
  induction ws as [|a ws IH]; intros acc acc' H.
  - injection H as <-. exists []. split; [constructor|].
    rewrite app_nil_r. simpl. repeat split. lia.
  - change (forEachM assetStep (a :: ws) acc)
      with (assetStep acc a ≫= forEachM assetStep ws) in H.
    destruct (createAsset a) as [na|e] eqn:Hc.
    + rewrite (assetStep_Ok acc a na Hc), bind_Ok in H.
      apply IH in H as [nas [HF [Hl [Hg Hr]]]]. simpl in *.
      exists (na :: nas). split; [by constructor|].
      split; [by rewrite Hl, <- app_assoc|]. split; [|exact Hr].
      rewrite Hg.
      change (sumZ (assetGzip <$> na :: nas))
        with (assetGzip na + sumZ (assetGzip <$> nas)).
      lia.
    + by rewrite (assetStep_Throw acc a e Hc), bind_Throw in H.
Qed.

Lemma assets_Throw ws : ∀ acc e,
  forEachM assetStep ws acc = Throw e ↔
  e = TypeError ∧ Exists (fun a => wa_name a = None) ws.
Proof.
  induction ws as [|a ws IH]; intros acc e.
  - simpl. split; [discriminate | intros [_ H]; inversion H].
  - change (forEachM assetStep (a :: ws) acc)
      with (assetStep acc a ≫= forEachM assetStep ws).
    destruct (createAsset a) as [na|e'] eqn:Hc;
      [rewrite (assetStep_Ok acc a na Hc), bind_Ok
      |rewrite (assetStep_Throw acc a e' Hc), bind_Throw].
    + rewrite IH. split; intros [-> H]; split; try done.
      * by apply Exists_cons_tl.
      * inversion H as [? ? Ha|]; subst; [|done].
        unfold createAsset in Hc. by rewrite Ha in Hc.
    + apply createAsset_Throw in Hc as [Ha ->]. split.
      * intros [= <-]. split; [done|]. by apply Exists_cons_hd.
      * by intros [-> _].
Qed.

(** *** The whole normalization *)

Lemma normalize_Ok_inv now stats bs :
  normalizeWebpackStats now stats = Ok bs →
  ∃ st acc,
    processModules (ws_modules stats) = Ok st ∧
    processAssets (ws_assets stats) = Ok acc ∧
    modules bs = normalizedModules st ∧
    assets bs = normalizedAssets acc ∧
    totalSize bs = {| raw := totalRawSize acc; gzip := Some (totalGzipSize acc) |} ∧
    chunks bs = processChunks (ws_chunks stats) ∧
    entrypoints bs
      = determineEntrypoints (moduleMap st) (processChunks (ws_chunks stats)).
Proof.
  unfold normalizeWebpackStats. intros H.
  apply bind_Ok_inv in H as [st [Hst H]].
  apply bind_Ok_inv in H as [acc [Hacc H]].
  injection H as <-. by exists st, acc.
Qed.

Lemma normalize_Throw now stats e :
  normalizeWebpackStats now stats = Throw e ↔
  e = TypeError ∧
  (Exists (fun m => wm_name m = None) (default [] (ws_modules stats)) ∨
   Exists (fun a => wa_name a = None) (default [] (ws_assets stats))).
Proof.
  unfold normalizeWebpackStats.
  destruct (processModules (ws_modules stats)) as [st|e1] eqn:Hm;
    rewrite ?bind_Ok, ?bind_Throw.
  - destruct (processAssets (ws_assets stats)) as [acc|e2] eqn:Ha;
      rewrite ?bind_Ok, ?bind_Throw.
    + split; [discriminate|]. intros [-> [H|H]].
      * assert (processModules (ws_modules stats) = Throw TypeError) as Hm'
          by by apply processModules_Throw.
        congruence.
      * assert (processAssets (ws_assets stats) = Throw TypeError) as Ha'
          by by apply assets_Throw.
        congruence.
    + apply assets_Throw in Ha as [-> Ha]. split.
      * intros [= <-]. split; [done|]. by right.
      * by intros [-> _].
  - apply processModules_Throw in Hm as [-> Hm]. split.
    + intros [= <-]. split; [done|]. by left.
    + by intros [-> _].
Qed.

Lemma normalize_total now stats :
  namesPresent stats → ∃ bs, normalizeWebpackStats now stats = Ok bs.
Proof.
  intros [Hm Ha].
  destruct (normalizeWebpackStats now stats) as [bs|e] eqn:H; [by eexists|].
  apply normalize_Throw in H as [_ [H|H]]; exfalso;
    apply Exists_exists in H as [x [Hx Hnone]].
  - rewrite Forall_forall in Hm. destruct (Hm x Hx) as [? ?]; congruence.
  - rewrite Forall_forall in Ha. destruct (Ha x Hx) as [? ?]; congruence.
Qed.

(** *** The dependency relations *)

Lemma resolved_noSelfReference raws st :
  resolved raws st → noSelfReference (normalizedModules st).
Proof.
  intros [_ [Hl _]] a [i Hi]%list_elem_of_lookup.
  destruct (Hl i a Hi) as [Hd Hp].
  split; intros Hin; [apply Hd in Hin|apply Hp in Hin]; by destruct Hin as [_ [? _]].
Qed.

Lemma resolved_closedEdges raws st :
  resolved raws st → closedEdges (normalizedModules st).
Proof.
  intros [[I1 _] [Hl _]] a x [i Hi]%list_elem_of_lookup Hx.
  destruct (Hl i a Hi) as [Hd Hp].
  destruct Hx as [Hx|Hx]; [apply Hd in Hx|apply Hp in Hx];
    destruct Hx as [_ [_ [j [b [Hj [Hb _]]]]]];
    exists b; (split; [by eapply list_elem_of_lookup_2|]);
    destruct (I1 x j Hj) as [b' [Hb' Hid]]; congruence.
Qed.

Lemma resolved_symmetricEdges raws st :
  resolved raws st →
  NoDup (nm_id <$> normalizedModules st) →
  symmetricEdges (normalizedModules st).
Proof.
  intros [[I1 _] [Hl _]] Hnd a b [ia Ha]%list_elem_of_lookup
    [ib Hb]%list_elem_of_lookup.
  assert (Hsame : ∀ j c, normalizedModules st !! j = Some c →
                         nm_id c = nm_id b → c = b).
  { intros j c Hc Hid.
    assert (j = ib) as ->; [|congruence].
    eapply (NoDup_lookup _ _ _ (nm_id b) Hnd);
      rewrite list_lookup_fmap; [rewrite Hc|rewrite Hb]; simpl; congruence. }
  assert (Hsame' : ∀ j c, normalizedModules st !! j = Some c →
                          nm_id c = nm_id a → c = a).
  { intros j c Hc Hid.
    assert (j = ia) as ->; [|congruence].
    eapply (NoDup_lookup _ _ _ (nm_id a) Hnd);
      rewrite list_lookup_fmap; [rewrite Hc|rewrite Ha]; simpl; congruence. }
  split; intros Hin.
  - destruct (Hl ia a Ha) as [Hd _].
    destruct (Hd _ Hin) as [_ [_ [j [c [Hj [Hc Hin']]]]]].
    destruct (I1 _ _ Hj) as [c' [Hc' Hid]].
    assert (c = b) as <-; [|done]. apply (Hsame j); congruence.
  - destruct (Hl ib b Hb) as [_ Hp].
    destruct (Hp _ Hin) as [_ [_ [j [c [Hj [Hc Hin']]]]]].
    destruct (I1 _ _ Hj) as [c' [Hc' Hid]].
    assert (c = a) as <-; [|done]. apply (Hsame' j); congruence.
Qed.

(** C2, as the code has it.  In every [NormalizedBuildStats] that
    [normalizeWebpackStats] returns, no module lists itself as a dependency
    or as a dependent, every listed id is the id of a module of the
    collection, and, when the ids of the modules are pairwise distinct,
    [b] is a dependency of [a] exactly when [a] is a dependent of [b]. *)
Theorem dependency_relations (now : Z) (stats : WebpackStats)
    (bs : NormalizedBuildStats) :
  normalizeWebpackStats now stats = Ok bs →
  noSelfReference (modules bs) ∧
  closedEdges (modules bs) ∧
  (NoDup (nm_id <$> modules bs) → symmetricEdges (modules bs)).
Proof.
  intros H. apply normalize_Ok_inv in H as [st [acc [Hst [_ [-> _]]]]].
  apply processModules_resolved in Hst.
  split; [by eapply resolved_noSelfReference|].
  split; [by eapply resolved_closedEdges|].
  by eapply resolved_symmetricEdges.
Qed.

Lemma dependency_relations_witness :
  normalizeWebpackStats 0 mockWebpackStats = Ok mockBuildStats ∧
  NoDup (nm_id <$> modules mockBuildStats) ∧
  noSelfReference (modules mockBuildStats) ∧
  closedEdges (modules mockBuildStats) ∧
  symmetricEdges (modules mockBuildStats).
Proof.
  assert (H : normalizeWebpackStats 0 mockWebpackStats = Ok mockBuildStats)
    by (vm_compute; reflexivity).
  assert (Hnd : NoDup (nm_id <$> modules mockBuildStats))
    by (apply (bool_decide_unpack _); vm_compute; reflexivity).
  destruct (dependency_relations 0 mockWebpackStats mockBuildStats H)
    as [Hself [Hclosed Hsym]].
  split; [exact H|]. split; [exact Hnd|]. split; [exact Hself|].
  split; [exact Hclosed|]. exact (Hsym Hnd).
Defined.

(** C2, as the specification states it, fails when two records have the
    same id: the edges of both are recorded on the last of them. *)
Lemma duplicate_ids_break_symmetry :
  ∃ bs, normalizeWebpackStats 0 duplicateIdStats = Ok bs ∧
        ¬ symmetricEdges (modules bs).
Proof.
  eexists. split; [vm_compute; reflexivity|]. intros Hsym.
  cbn [modules] in Hsym.
  match type of Hsym with
  | symmetricEdges [?a; ?b; ?c] =>
      destruct (Hsym a b) as [_ Hback];
        [apply list_elem_of_here
        |apply list_elem_of_further, list_elem_of_here|]
  end.
  cbn in Hback.
  assert (Hin : "2" ∈ (@nil string)); [|by apply elem_of_nil in Hin].
  apply Hback. apply list_elem_of_here.
Qed.

(** *** The mock input *)

(** C3, as the code has it.  On the mock input the normalizer returns a
    total raw size of 2,525,000, 7 modules and 2 chunks; its one module
    [./src/App.js] has the dependencies [Button.js] and [react/index.js],
    and the dependents [index.js], [Button.js], [react/index.js] and
    [utils/data.js]: each of the last three names [App.js] as a reason. *)
Theorem mock_normalization (now : Z) :
  ∃ bs, normalizeWebpackStats now mockWebpackStats = Ok bs ∧
    raw (totalSize bs) = Some 2525000 ∧
    length (modules bs) = 7%nat ∧
    length (chunks bs) = 2%nat ∧
    ∃ app, List.filter (fun m => String.eqb (nm_id m) "./src/App.js") (modules bs)
             = [app] ∧
      nm_dependencies app
        = ["./src/components/Button.js"; "./node_modules/react/index.js"] ∧
      nm_dependents app
        = ["./src/index.js"; "./src/components/Button.js";
           "./node_modules/react/index.js"; "./src/utils/data.js"].
Proof.
  eexists. split; [vm_compute; reflexivity|].
  repeat split. eexists. split; [vm_compute; reflexivity|]. split; reflexivity.
Qed.

(** C3, as the specification states it, fails: [./src/App.js] has more
    dependents than [./src/index.js]. *)
Lemma mock_dependents_counterexample :
  ∃ bs, normalizeWebpackStats 0 mockWebpackStats = Ok bs ∧ ¬ mockExpectation bs.
Proof.
  eexists. split; [vm_compute; reflexivity|].
  intros [_ [_ [_ Happ]]]. cbn [modules] in Happ.
  match type of Happ with
  | ∀ m, m ∈ (_ :: ?app :: _) → _ =>
      destruct (Happ app) as [_ Hdependents];
        [apply list_elem_of_further, list_elem_of_here|reflexivity|]
  end.
  cbn in Hdependents.
  assert (H : "./src/utils/data.js" = "./src/index.js"); [|discriminate H].
  apply Hdependents. do 3 apply list_elem_of_further. apply list_elem_of_here.
Qed.

(** *** Rejected inputs *)

(** C5. Loading fails with [InvalidFormat] exactly when the raw stats lack
    all three of [modules], [assets] and [chunks].  Stats whose records
    carry their names and that have a collection present are accepted, and
    a collection that is present and empty comes out as the empty list. *)
Theorem invalidFormat_iff (now : Z) (stats : WebpackStats) :
  (loadAndProcessStatsFile now (Some stats) = Throw InvalidFormat ↔
   ws_modules stats = None ∧ ws_assets stats = None ∧ ws_chunks stats = None) ∧
  (namesPresent stats →
   ws_modules stats = Some [] ∨ ws_assets stats = Some [] ∨
   ws_chunks stats = Some [] →
   ∃ bs, loadAndProcessStatsFile now (Some stats) = Ok bs ∧
     (ws_modules stats = Some [] → modules bs = []) ∧
     (ws_assets stats = Some [] → assets bs = []) ∧
     (ws_chunks stats = Some [] → chunks bs = [])).
Proof.
  assert (Hload : loadAndProcessStatsFile now (Some stats) =
            if negb (present (ws_assets stats))
               && negb (present (ws_modules stats))
               && negb (present (ws_chunks stats))
            then Throw InvalidFormat else normalizeWebpackStats now stats).
  { unfold loadAndProcessStatsFile, loadWebpackStats.
    by destruct (_ && _). }
  rewrite Hload. split.
  - destruct (ws_assets stats), (ws_modules stats), (ws_chunks stats); simpl;
      (split; [intros H; try (by apply normalize_Throw in H as [? _])
              |try by intros [? [? ?]]]); done.
  - intros Hnames Hempty.
    destruct (normalize_total now stats Hnames) as [bs Hbs].
    exists bs. split.
    + assert (negb (present (ws_assets stats)) && negb (present (ws_modules stats))
              && negb (present (ws_chunks stats)) = false) as ->; [|done].
      destruct Hempty as [ -> | [ -> | -> ] ]; simpl;
        rewrite ?andb_false_r; reflexivity.
    + apply normalize_Ok_inv in Hbs
        as [st [acc [Hst [Hacc [-> [-> [_ [-> _]]]]]]]].
      repeat split.
      * intros Hm. rewrite Hm in Hst. simpl in Hst. by injection Hst as <-.
      * intros Ha. rewrite Ha in Hacc. simpl in Hacc. by injection Hacc as <-.
      * by intros ->.
Qed.

Lemma invalidFormat_iff_witness :
  ∃ bs, loadAndProcessStatsFile 0 (Some (onlyModules [])) = Ok bs ∧
        modules bs = [].
Proof.
  destruct (proj2 (invalidFormat_iff 0 (onlyModules []))) as [bs [H [Hm _]]].
  - split; constructor.
  - by left.
  - exists bs. split; [exact H|]. by apply Hm.
Defined.

(** *** Malformed records *)

(** C6, as the code has it.  No module record is ever skipped.  When a
    module record lacks its [name], [normalizeWebpackStats] throws a
    [TypeError] and returns nothing; when all module and asset records
    carry their names it returns, and whenever it returns the output has
    one module for every raw module record, in order, with the [size] of
    the record as its raw size, a missing [size] included. *)
Theorem malformed_records_not_skipped (now : Z) (stats : WebpackStats) :
  (Exists (fun m => wm_name m = None) (default [] (ws_modules stats)) →
   normalizeWebpackStats now stats = Throw TypeError) ∧
  (namesPresent stats → ∃ bs, normalizeWebpackStats now stats = Ok bs) ∧
  (∀ bs, normalizeWebpackStats now stats = Ok bs →
     Forall2 normalizedFrom (default [] (ws_modules stats)) (modules bs)).
Proof.
  split; [|split].
  - intros H. apply normalize_Throw. split; [done|]. by left.
  - apply normalize_total.
  - intros bs H. apply normalize_Ok_inv in H as [st [acc [Hst [_ [-> _]]]]].
    by apply processModules_resolved in Hst as [_ [_ HF]].
Qed.

Lemma malformed_records_not_skipped_witness :
  normalizeWebpackStats 0 missingNameStats = Throw TypeError ∧
  ∃ bs, normalizeWebpackStats 0 missingSizeStats = Ok bs ∧
        Forall2 normalizedFrom (default [] (ws_modules missingSizeStats))
          (modules bs).
Proof.
  split.
  - apply (proj1 (malformed_records_not_skipped 0 missingNameStats)).
    by apply Exists_cons_hd.
  - destruct (malformed_records_not_skipped 0 missingSizeStats)
      as [_ [Htotal Hkept]].
    destruct Htotal as [bs Hbs].
    + split; repeat constructor; by eexists.
    + exists bs. split; [exact Hbs|]. by apply Hkept.
Defined.

(** C6, as the specification states it, fails: a record without [name]
    aborts the normalization, and a record without [size] is kept. *)
Lemma malformed_records_counterexample :
  ¬ skipsMalformedModules 0 missingNameStats ∧
  ¬ skipsMalformedModules 0 missingSizeStats.
Proof.
  split; intros [bs [H Hids]].
  - vm_compute in H. discriminate H.
  - vm_compute in H. injection H as <-. vm_compute in Hids. discriminate Hids.
Qed.

(** *** The size estimate *)

(** **** Binary64 rounding *)

(** The number of binary digits of a mantissa. *)
Lemma digits2_pos_bounds p :
  2 ^ (Z.pos (digits2_pos p) - 1) <= Z.pos p < 2 ^ Z.pos (digits2_pos p).
Proof.
  induction p as [p IH|p IH|]; simpl digits2_pos.
  - rewrite Pos2Z.inj_succ, Z.pow_succ_r by lia.
    replace (Z.succ (Z.pos (digits2_pos p)) - 1)
      with (Z.succ (Z.pos (digits2_pos p) - 1)) by lia.
    rewrite Z.pow_succ_r by lia. lia.
  - rewrite Pos2Z.inj_succ, Z.pow_succ_r by lia.
    replace (Z.succ (Z.pos (digits2_pos p)) - 1)
      with (Z.succ (Z.pos (digits2_pos p) - 1)) by lia.
    rewrite Z.pow_succ_r by lia. lia.
  - simpl. lia.
Qed.

Lemma digits2_pos_unique p d :
  2 ^ (d - 1) <= Z.pos p < 2 ^ d → Z.pos (digits2_pos p) = d.
Proof.
  intros [Hl Hu]. pose proof (digits2_pos_bounds p) as [Hl' Hu'].
  assert (0 < d).
  { destruct (Z.lt_trichotomy d 0) as [Hd|[->|Hd]]; [|simpl in Hu; lia|done].
    rewrite Z.pow_neg_r in Hu by done. lia. }
  destruct (Z.lt_trichotomy (Z.pos (digits2_pos p)) d) as [Hd|[Hd|Hd]]; [|done|].
  - assert (2 ^ Z.pos (digits2_pos p) <= 2 ^ (d - 1))
      by (apply Z.pow_le_mono_r; lia). lia.
  - assert (2 ^ d <= 2 ^ (Z.pos (digits2_pos p) - 1))
      by (apply Z.pow_le_mono_r; lia). lia.
Qed.

Lemma iter_pos_nat {A} (f : A → A) k x :
  SpecFloat.iter_pos f k x = Nat.iter (Pos.to_nat k) f x.
Proof.
  revert x. induction k as [k IH|k IH|]; intros x; simpl SpecFloat.iter_pos.
  - rewrite !IH, Pos2Nat.inj_xI.
    replace (S (2 * Pos.to_nat k)) with (Pos.to_nat k + (Pos.to_nat k + 1))%nat by lia.
    rewrite !Nat.iter_add. simpl. done.
  - rewrite !IH, Pos2Nat.inj_xO.
    replace (2 * Pos.to_nat k)%nat with (Pos.to_nat k + Pos.to_nat k)%nat by lia.
    by rewrite Nat.iter_add.
  - done.
Qed.

(** One shift to the right: the bit that leaves becomes the round bit, the
    round bit joins the sticky bit. *)
Lemma shr_1_spec m r s :
  0 <= m →
  shr_1 {| shr_m := m; shr_r := r; shr_s := s |}
  = {| shr_m := m / 2; shr_r := Z.odd m; shr_s := r || s |}.
Proof.
  intros Hm. destruct m as [|[p|p|]|p]; try lia; simpl shr_1.
  - done.
  - f_equal. rewrite Pos2Z.inj_xI. 
    apply (Z.div_unique _ _ _ 1); lia.
  - f_equal. rewrite Pos2Z.inj_xO. 
    apply (Z.div_unique _ _ _ 0); lia.
  - done.
Qed.

(** [i + 1] shifts of an exact record. *)
Lemma shr_iter m i :
  0 <= m →
  Nat.iter (S i) shr_1 {| shr_m := m; shr_r := false; shr_s := false |}
  = {| shr_m := m / 2 ^ Z.of_nat (S i);
       shr_r := Z.testbit m (Z.of_nat i);
       shr_s := negb (m mod 2 ^ Z.of_nat i =? 0) |}.
Proof.
  intros Hm. induction i as [|i IH].
  - change (Nat.iter 1 shr_1 ?x) with (shr_1 x).
    rewrite shr_1_spec by done. change (Z.of_nat 0) with 0.
    change (Z.of_nat 1) with 1. f_equal.
    by rewrite Z.pow_0_r, Z.mod_1_r.
  - change (Nat.iter (S (S i)) shr_1 ?x) with (shr_1 (Nat.iter (S i) shr_1 x)).
    rewrite IH, shr_1_spec by (apply Z.div_pos; lia). f_equal.
    + rewrite (Nat2Z.inj_succ (S i)), Z.pow_succ_r by lia.
      rewrite Z.mul_comm, Z.div_div by lia. done.
    + rewrite (Z.testbit_odd m (Z.of_nat (S i))), Z.shiftr_div_pow2 by lia. done.
    + rewrite (Nat2Z.inj_succ i), Z.pow_succ_r by lia.
      rewrite (Z.mul_comm 2), Z.rem_mul_r by lia.
      rewrite Z.testbit_odd, Z.shiftr_div_pow2 by lia.
      rewrite (Zmod_odd (m / 2 ^ Z.of_nat i)).
      pose proof (Z.mod_pos_bound m (2 ^ Z.of_nat i) ltac:(lia)).
      destruct (Z.odd _); destruct (Z.eqb_spec (m mod 2 ^ Z.of_nat i) 0) as [E|E];
        simpl; symmetry;
        [apply negb_true_iff, Z.eqb_neq; lia | apply negb_true_iff, Z.eqb_neq; lia
        |apply negb_false_iff, Z.eqb_eq; lia | apply negb_true_iff, Z.eqb_neq; lia].
Qed.

Lemma shr_exact m e k :
  0 <= m → 0 < k →
  shr {| shr_m := m; shr_r := false; shr_s := false |} e k
  = ({| shr_m := m / 2 ^ k;
        shr_r := Z.testbit m (k - 1);
        shr_s := negb (m mod 2 ^ (k - 1) =? 0) |}, e + k).
Proof.
  intros Hm Hk. destruct k as [|p|p]; try lia. unfold shr.
  rewrite iter_pos_nat.
  destruct (Pos.to_nat p) as [|i] eqn:Hp; [lia|].
  rewrite shr_iter by done.
  replace (Z.of_nat (S i)) with (Z.pos p) by lia.
  replace (Z.of_nat i) with (Z.pos p - 1) by lia. done.
Qed.

Lemma rounded_cases m k :
  0 <= m → 0 < k →
  (rounded m k = m / 2 ^ k ∧ 2 * (m mod 2 ^ k) <= 2 ^ k) ∨
  (rounded m k = m / 2 ^ k + 1 ∧ 2 ^ k <= 2 * (m mod 2 ^ k)).
Proof.
  intros Hm Hk. unfold rounded.
  assert (Hp : 2 ^ k = 2 ^ (k - 1) * 2).
  { replace k with (Z.succ (k - 1)) at 1 by lia.
    rewrite Z.pow_succ_r by lia. lia. }
  assert (0 < 2 ^ (k - 1)) by (apply Z.pow_pos_nonneg; lia).
  rewrite Z.testbit_odd, Z.shiftr_div_pow2 by lia.
  assert (Hrem : m mod 2 ^ k
                 = m mod 2 ^ (k - 1)
                   + 2 ^ (k - 1) * ((m / 2 ^ (k - 1)) mod 2))
    by (rewrite Hp; apply Z.rem_mul_r; lia).
  rewrite Hrem.
  rewrite (Zmod_odd (m / 2 ^ (k - 1))).
  pose proof (Z.mod_pos_bound m (2 ^ (k - 1)) ltac:(lia)).
  destruct (Z.odd (m / 2 ^ (k - 1)));
    destruct (Z.eqb_spec (m mod 2 ^ (k - 1)) 0) as [E|E]; simpl.
  - destruct (Z.even _); [left|right]; lia.
  - right. lia.
  - left. lia.
  - left. lia.
Qed.

(** A product of 53 digits is the result as it is; a longer one loses its
    low digits and is rounded. *)
Lemma binary_round_aux_exact s pm e :
  Z.pos (digits2_pos pm) = 53 → -1074 <= e <= 971 →
  binary_round_aux 53 1024 s (Z.pos pm) e loc_Exact = S754_finite s pm e.
Proof.
  intros Hd He. unfold binary_round_aux, shr_fexp, Zdigits2, fexp, emin.
  rewrite Hd. replace (Z.max (53 + e - 53) (3 - 1024 - 53) - e) with 0 by lia.
  simpl. rewrite Hd.
  replace (Z.max (53 + e - 53) (3 - 1024 - 53) - e) with 0 by lia.
  simpl. destruct (Z.leb_spec e (1024 - 53)); [done|lia].
Qed.

Lemma binary_round_aux_shift s pm e k :
  Z.pos (digits2_pos pm) = 53 + k → 0 < k → -1074 <= e + k <= 971 →
  2 ^ 52 <= rounded (Z.pos pm) k < 2 ^ 53 →
  binary_round_aux 53 1024 s (Z.pos pm) e loc_Exact
  = S754_finite s (Z.to_pos (rounded (Z.pos pm) k)) (e + k).
Proof.
  intros Hd Hk He Hr. unfold binary_round_aux, shr_fexp, Zdigits2, fexp, emin.
  rewrite Hd. replace (Z.max (53 + k + e - 53) (3 - 1024 - 53) - e) with k by lia.
  simpl shr_record_of_loc. rewrite shr_exact by lia.
  cbn [shr_m]. fold (rounded (Z.pos pm) k).
  destruct (rounded (Z.pos pm) k) as [|q|q] eqn:Hq; try lia.
  rewrite (digits2_pos_unique q 53) by lia.
  replace (Z.max (53 + (e + k) - 53) (3 - 1024 - 53) - (e + k)) with 0 by lia.
  simpl. destruct (Z.leb_spec (e + k) (1024 - 53)); [done|lia].
Qed.

Lemma iter_xO p d : Z.pos (Pos.iter xO p d) = Z.pos p * 2 ^ Z.pos d.
Proof.
  induction d as [|d IH] using Pos.peano_ind.
  - simpl. lia.
  - rewrite Pos.iter_succ, Pos2Z.inj_xO, IH, Pos2Z.inj_succ, Z.pow_succ_r by lia.
    lia.
Qed.

(** An integer below [2 ^ 53] is a binary64 as it is: [toFloat] only
    moves its digits to the top of the mantissa. *)
Lemma toFloat_normal n :
  0 < n < 2 ^ 53 →
  ∃ a mx, 0 <= a <= 52 ∧ Z.pos mx = n * 2 ^ a ∧ 2 ^ 52 <= Z.pos mx < 2 ^ 53 ∧
          toFloat n = S754_finite false mx (- a).
Proof.
  intros [Hn Hu]. destruct n as [|p|p]; try lia.
  pose proof (digits2_pos_bounds p) as [Hl Hh].
  assert (Hd : 1 <= Z.pos (digits2_pos p) <= 53).
  { split; [lia|]. destruct (Z.le_gt_cases (Z.pos (digits2_pos p)) 53); [done|].
    assert (2 ^ 53 <= 2 ^ (Z.pos (digits2_pos p) - 1))
      by (apply Z.pow_le_mono_r; lia). lia. }
  unfold toFloat, binary_normalize, binary_round, shl_align, fexp, emin.
  replace (Z.max (Z.pos (digits2_pos p) + 0 - 53) (3 - 1024 - 53) - 0)
    with (Z.pos (digits2_pos p) - 53) by lia.
  replace (Z.max (Z.pos (digits2_pos p) + 0 - 53) (3 - 1024 - 53))
    with (Z.pos (digits2_pos p) - 53) by lia.
  destruct (Z.pos (digits2_pos p) - 53) as [|d|d] eqn:Hs; try lia.
  - exists 0, p. rewrite binary_round_aux_exact by lia.
    replace (Z.pos (digits2_pos p)) with 53 in * by lia.
    repeat split; try lia. 
  - exists (Z.pos d), (Pos.iter xO p d).
    assert (Hm : Z.pos (Pos.iter xO p d) = Z.pos p * 2 ^ Z.pos d)
      by apply iter_xO.
    assert (Hb : 2 ^ 52 <= Z.pos p * 2 ^ Z.pos d < 2 ^ 53).
    { replace 52 with (Z.pos (digits2_pos p) - 1 + Z.pos d) by lia.
      replace 53 with (Z.pos (digits2_pos p) + Z.pos d) by lia.
      rewrite !Z.pow_add_r by lia.
      assert (0 < 2 ^ Z.pos d) by (apply Z.pow_pos_nonneg; lia). nia. }
    rewrite binary_round_aux_exact.
    + repeat split; try lia.
    + apply digits2_pos_unique. rewrite Hm. exact Hb.
    + lia.
Qed.

(** The literal [0.3] is [5404319552844595 / 2 ^ 54]. *)
Lemma threeTenths_eq : threeTenths = S754_finite false 5404319552844595 (-54).
Proof. vm_compute. reflexivity. Qed.

(** The arithmetic of the estimate.  Ten times the numerator of
    [threeTenths] is [3 * 2 ^ 54 - 2], so the exact product lies just below
    three tenths of the size; [n * A] is the mantissa of the size and [k]
    the number of digits the product loses. *)
Lemma estimate_arith (n A k : Z) :
  k = 52 ∨ k = 53 →
  0 < n →
  A = 1 ∨ A = 2 ∨ A = 4 ∨ 8 <= A →
  2 ^ 52 <= n * A < 2 ^ 53 →
  2 ^ (52 + k) <= n * A * 5404319552844595 < 2 ^ (53 + k) →
  2 ^ 52 <= rounded (n * A * 5404319552844595) k < 2 ^ 53 ∧
  ∃ g, rounded (n * A * 5404319552844595) k / (2 ^ (54 - k) * A) = g ∧
       3 * n / 10 <= g <= 3 * n / 10 + 1 ∧
       (n < 7505999378950833 → g = 3 * n / 10).
Proof.
  intros Hk Hn HA HN Hm.
  pose proof (rounded_cases (n * A * 5404319552844595) k ltac:(lia) ltac:(lia))
    as Hr.
  pose proof (Z.div_mod (n * A * 5404319552844595) (2 ^ k) ltac:(lia)) as Hdm.
  pose proof (Z.mod_pos_bound (n * A * 5404319552844595) (2 ^ k) ltac:(lia))
    as Hrem.
  pose proof (Z.div_mod (3 * n) 10 ltac:(lia)) as Ht.
  pose proof (Z.mod_pos_bound (3 * n) 10 ltac:(lia)) as Hs.
  set (t := 3 * n / 10) in *. set (s := (3 * n) mod 10) in *.
  assert (HT : 3 * (n * A) = 10 * (t * A) + s * A)
    by (replace (3 * (n * A)) with (3 * n * A) by ring; rewrite Ht; ring).
  set (N := n * A) in *. set (T := t * A) in *.
  assert (HnA : A = 1 → N = n) by (intros ->; unfold N; ring).
  set (q' := rounded (N * 5404319552844595) k) in *.
  set (q := N * 5404319552844595 / 2 ^ k) in *.
  set (r := (N * 5404319552844595) mod 2 ^ k) in *.
  assert (Hgoal : 2 ^ 52 <= q' < 2 ^ 53 ∧
            (0 <= q' - 2 ^ (54 - k) * T < 2 ^ (54 - k) * A ∨
             7505999378950833 <= n ∧ q' - 2 ^ (54 - k) * T = 2 ^ (54 - k) * A)).
  { clearbody N T q' q r s t.
    assert (Hs' : s = 0 ∨ s = 1 ∨ s = 2 ∨ s = 3 ∨ s = 4 ∨ s = 5 ∨ s = 6 ∨ s = 7
                  ∨ s = 8 ∨ s = 9) by lia.
    destruct Hk as [-> | ->]; simpl Z.pow in *;
      destruct Hs' as [-> | [-> | [-> | [-> | [-> | [-> | [-> | [-> | [-> | ->]]]]]]]]];
      destruct HA as [-> | [-> | [-> | HA]]];
      destruct Hr as [[-> Hr] | [-> Hr]]; lia. }
  destruct Hgoal as [H1 H2]. split; [exact H1|].
  destruct H2 as [H2 | [H2 H3]].
  - exists t. split; [|lia].
    symmetry. apply (Z.div_unique _ _ _ (q' - 2 ^ (54 - k) * T)).
    + left. exact H2.
    + unfold T. ring.
  - exists (t + 1). split; [|lia].
    assert (0 < 2 ^ (54 - k) * A) by (destruct Hk as [-> | ->]; simpl Z.pow; lia).
    symmetry. apply (Z.div_unique _ _ _ 0); [lia|].
    unfold T in H3. lia.
Qed.

Lemma pow2_cases a :
  0 <= a → 2 ^ a = 1 ∨ 2 ^ a = 2 ∨ 2 ^ a = 4 ∨ 8 <= 2 ^ a.
Proof.
  intros Ha.
  destruct (Z.le_gt_cases 3 a) as [H|H].
  - right; right; right. change 8 with (2 ^ 3). apply Z.pow_le_mono_r; lia.
  - assert (a = 0 ∨ a = 1 ∨ a = 2) as [-> | [-> | ->]] by lia; simpl; lia.
Qed.

(** [Math.floor(n * 0.3)] on the integers a binary64 holds exactly. *)
Lemma approximateGzipSize_safe n :
  0 <= n < 2 ^ 53 →
  ∃ g, approximateGzipSize (Some n) = Some g ∧
       3 * n / 10 <= g <= 3 * n / 10 + 1 ∧
       (n < 7505999378950833 → g = 3 * n / 10).
Proof.
  intros [Hn Hu]. destruct (Z.eq_dec n 0) as [-> | Hn0].
  { exists 0. by vm_compute. }
  destruct (toFloat_normal n) as (a & mx & Ha & Hmx & Hb & Hf); [lia|].
  unfold approximateGzipSize. rewrite Hf, threeTenths_eq.
  unfold SFmul. simpl xorb.
  assert (Hp : Z.pos (mx * 5404319552844595) = n * 2 ^ a * 5404319552844595)
    by (rewrite Pos2Z.inj_mul, Hmx; done).
  assert (Hk : ∃ k, (k = 52 ∨ k = 53) ∧
             2 ^ (52 + k) <= n * 2 ^ a * 5404319552844595 < 2 ^ (53 + k)).
  { rewrite <- Hmx in *.
    destruct (Z.lt_ge_cases (Z.pos mx * 5404319552844595) (2 ^ 105)).
    - exists 52. simpl Z.pow in *. lia.
    - exists 53. simpl Z.pow in *. lia. }
  destruct Hk as (k & Hk & Hm).
  destruct (estimate_arith n (2 ^ a) k Hk ltac:(lia) (pow2_cases a ltac:(lia))
              ltac:(lia) Hm) as [Hr (g & Hq & Hg)].
  exists g. split; [|exact Hg].
  rewrite (binary_round_aux_shift false _ _ k).
  - rewrite Hp. unfold mathFloor.
    destruct (Z.leb_spec 0 (- a + -54 + k)) as [He|He]; [lia|].
    rewrite Z2Pos.id by lia. f_equal. rewrite <- Hq. f_equal.
    replace (- (- a + -54 + k)) with (54 - k + a) by lia.
    rewrite Z.pow_add_r by lia. done.
  - apply digits2_pos_unique. rewrite Hp.
    replace (53 + k - 1) with (52 + k) by lia. exact Hm.
  - lia.
  - lia.
  - by rewrite Hp.
Qed.

Example estimate_at_firstInexact :
  approximateGzipSize (Some firstInexact) = Some 2251799813685250 ∧
  3 * firstInexact / 10 = 2251799813685249.
Proof. split; vm_compute; reflexivity. Qed.

(** **** The estimates of a build *)

Lemma gzipEstimated_intro (size : number) :
  gzipEstimated size {| raw := size; gzip := approximateGzipSize size |}.
Proof.
  split; [done|]. destruct size as [r|]; [|done]. cbn [gzip]. split.
  - intros Hr.
    destruct (approximateGzipSize_safe r) as (g & -> & _ & Hg);
      [unfold firstInexact in Hr; simpl; lia|].
    f_equal. apply Hg. exact (proj2 Hr).
  - intros Hr. destruct (approximateGzipSize_safe r Hr) as (g & -> & Hg & He).
    exists g. split; [done|]. split; [done|].
    assert (0 <= 3 * r / 10) by (apply Z.div_pos; lia).
    assert (3 * r / 10 <= r) by (apply Z.div_le_upper_bound; lia).
    split; [lia|].
    destruct (Z.lt_ge_cases r 7505999378950833) as [Hlt|Hge].
    + rewrite (He Hlt). done.
    + assert (3 * r / 10 < r - 1); [|lia].
      apply Z.div_lt_upper_bound; lia.
Qed.

(** C10. In the output of every accepted input, every module and every
    asset carries the size of its record in the input as its raw size, and
    its gzip size is the estimate of that size: the floor of three tenths of
    it for a size from 0 up to 7505999378950833, that floor or one more, and
    between 0 and the size, for every size from 0 below 2 ^ 53, and absent
    for a record without size.  The total gzip size is the sum of the
    estimates of the assets. *)
Theorem gzip_estimates (now : Z) (stats : WebpackStats)
    (bs : NormalizedBuildStats) :
  loadAndProcessStatsFile now (Some stats) = Ok bs →
  Forall2 (fun m nm => gzipEstimated (wm_size m) (nm_size nm))
    (default [] (ws_modules stats)) (modules bs) ∧
  Forall2 (fun a na => gzipEstimated (wa_size a) (na_size na))
    (default [] (ws_assets stats)) (assets bs) ∧
  gzip (totalSize bs) = Some (sumZ (assetGzip <$> assets bs)).
Proof.
  unfold loadAndProcessStatsFile. intros H.
  apply bind_Ok_inv in H as [stats' [Hload H]].
  assert (stats' = stats) as ->.
  { unfold loadWebpackStats in Hload. destruct (_ && _); congruence. }
  apply normalize_Ok_inv in H
    as [st [acc [Hst [Hacc [-> [-> [-> _]]]]]]].
  apply processModules_resolved in Hst as [_ [_ HF]].
  apply assets_Ok in Hacc as [nas [HA [Hl [Hg _]]]]. simpl in Hl, Hg.
  split; [|split].
  - eapply Forall2_impl; [exact HF|]. intros m nm Hn.
    destruct Hn as [name [_ [_ [_ [_ [-> _]]]]]]. apply gzipEstimated_intro.
  - rewrite Hl. eapply Forall2_impl; [exact HA|]. intros a na Hc.
    rewrite (createAsset_size _ _ Hc). apply gzipEstimated_intro.
  - simpl. by rewrite Hg, Hl.
Qed.

Lemma gzip_estimates_witness :
  loadAndProcessStatsFile 0 (Some mockWebpackStats) = Ok mockBuildStats ∧
  Forall2 (fun m nm => gzipEstimated (wm_size m) (nm_size nm))
    (default [] (ws_modules mockWebpackStats)) (modules mockBuildStats) ∧
  Forall2 (fun a na => gzipEstimated (wa_size a) (na_size na))
    (default [] (ws_assets mockWebpackStats)) (assets mockBuildStats) ∧
  gzip (totalSize mockBuildStats)
    = Some (sumZ (assetGzip <$> assets mockBuildStats)).
Proof.
  assert (H : loadAndProcessStatsFile 0 (Some mockWebpackStats)
              = Ok mockBuildStats) by (vm_compute; reflexivity).
  split; [exact H|]. exact (gzip_estimates 0 mockWebpackStats mockBuildStats H).
Defined.

(** C10, as the specification states it, fails: a module of
    7505999378950833 bytes gets the estimate 2251799813685250, one more than
    the floor of three tenths of its size, and a module without size is
    accepted and gets no estimate. *)
Lemma gzip_estimates_counterexample :
  (∃ bs, loadAndProcessStatsFile 0 (Some largeModuleStats) = Ok bs ∧
         ¬ exactEstimates bs) ∧
  (∃ bs, loadAndProcessStatsFile 0 (Some missingSizeStats) = Ok bs ∧
         ¬ exactEstimates bs).
Proof.
  split.
  - eexists. split; [vm_compute; reflexivity|]. intros [Hm _].
    destruct (Hm _ (list_elem_of_here _ _)) as [g [Hg Hr]].
    vm_compute in Hg. injection Hg as <-.
    specialize (Hr _ eq_refl). vm_compute in Hr. discriminate Hr.
  - eexists. split; [vm_compute; reflexivity|]. intros [Hm _].
    destruct (Hm _ (list_elem_of_here _ _)) as [g [Hg _]].
    vm_compute in Hg. discriminate Hg.
Qed.

(** *** Entrypoints *)

Lemma indexed_keys st id :
  indexed st → (id ∈ nm_id <$> normalizedModules st ↔ is_Some (moduleMap st !! id)).
Proof.
  intros [I1 I2]. split.
  - intros [nm [-> [i Hi]%list_elem_of_lookup]]%list_elem_of_fmap. by eapply I2.
  - intros [i Hi]. destruct (I1 id i Hi) as [nm [Hnm <-]].
    apply list_elem_of_fmap. exists nm. split; [done|].
    by eapply list_elem_of_lookup_2.
Qed.

Lemma find_ext {A} (f g : A → bool) l :
  (∀ x, f x = g x) → List.find f l = List.find g l.
Proof. intros H. induction l as [|x l IH]; simpl; [done|]. by rewrite H, IH. Qed.

(** On a properly named chunk the code contributes what the specification
    says. *)
Lemma chunkEntrypoint_named mp ids c :
  (∀ id, id ∈ ids ↔ is_Some (mp !! id)) →
  properlyNamed c →
  chunkEntrypoint mp (createChunk c) = specEntrypoint ids c.
Proof.
  intros Hkeys [[n [names [Hn Hne]]] Hids].
  unfold chunkEntrypoint, specEntrypoint, declaredName, createChunk. simpl.
  rewrite Hn. unfold Str.truthy at 1.
  destruct (String.eqb_spec n "") as [->|_]; [done|]. simpl.
  set (l := default [] (wc_modules c)) in *.
  assert (Hl : match wc_modules c with
               | Some ms => (fun m => String_ (wm_id m)) <$> ms
               | None => []
               end = (fun m => String_ (wm_id m)) <$> l)
    by (subst l; by destruct (wc_modules c)).
  rewrite Hl. clear Hl.
  rewrite (find_ext _ (fun id => bool_decide (id ∈ ids))).
  2:{ intros x. apply bool_decide_ext. symmetry. apply Hkeys. }
  destruct (List.find _ _) as [x|] eqn:Hfind.
  - apply find_some in Hfind as [Hin _].
    apply list_elem_of_In, list_elem_of_fmap in Hin as [m [-> Hm]].
    rewrite Forall_forall in Hids. pose proof (Hids _ Hm) as Hne'.
    assert (Str.truthy (String_ (wm_id m)) = true) as ->.
    { unfold Str.truthy. by destruct (String.eqb_spec (String_ (wm_id m)) ""). }
    clear Hids. clearbody l.
    destruct l; [by apply elem_of_nil in Hm | done].
  - by destruct (0 <? _)%nat.
Qed.

(** When every chunk is properly named, the entrypoints are those of the
    specification. *)
Lemma entrypoints_of_named_chunks now stats bs :
  normalizeWebpackStats now stats = Ok bs →
  Forall properlyNamed (default [] (ws_chunks stats)) →
  entrypoints bs
    = omap (specEntrypoint (nm_id <$> modules bs)) (default [] (ws_chunks stats)).
Proof.
  intros H Hnamed.
  apply normalize_Ok_inv in H
    as [st [acc [Hst [_ [-> [_ [_ [_ ->]]]]]]]].
  apply processModules_resolved in Hst as [Hidx _].
  unfold determineEntrypoints, processChunks.
  induction Hnamed as [|c cs Hc _ IH]; [done|].
  simpl.
  rewrite (chunkEntrypoint_named _ (nm_id <$> normalizedModules st) c)
    by (try done; intros id; by apply indexed_keys).
  destruct (specEntrypoint _ c); [f_equal|]; exact IH.
Qed.

(** C7: a chunk that declares no name contributes an entrypoint all the
    same, because its normalized name is its id, which the test
    [chunk.name && ...] accepts. *)
Lemma unnamed_chunk_contributes :
  ∃ bs, normalizeWebpackStats 0 unnamedChunkStats = Ok bs ∧
    entrypoints bs = ["./a.js"] ∧
    omap (specEntrypoint (nm_id <$> modules bs))
      (default [] (ws_chunks unnamedChunkStats)) = [].
Proof. eexists. split; [vm_compute; reflexivity|]. split; reflexivity. Qed.

(** ** The treemap hierarchy *)

Lemma TreemapNodeData_forall_ind (P : TreemapNodeData → Prop) :
  (∀ n, Forall P (children n) → P n) → ∀ n, P n.
Proof.
  intros H. fix IH 1. intros [nm pth cs v ty d]. apply H. simpl.
  induction cs as [|c cs IHcs]; constructor; [apply IH | exact IHcs].
Qed.

Lemma allNodesAt_inv P p n :
  allNodesAt P p n →
  P p n ∧ Forall (fun c => allNodesAt P (p ++ [name c]) c) (children n).
Proof. by inversion 1. Qed.

Lemma allNodesAt_impl (P Q : list string → TreemapNodeData → Prop) :
  (∀ p n, P p n → Q p n) → ∀ n p, allNodesAt P p n → allNodesAt Q p n.
Proof.
  intros HPQ. induction n as [n IH] using TreemapNodeData_forall_ind.
  intros p [Hn Hcs]%allNodesAt_inv. constructor; [by apply HPQ|].
  rewrite Forall_forall in IH, Hcs |- *. intros c Hc. by apply IH, Hcs.
Qed.

Lemma nodeOk_mono ms m p n : nodeOk ms p n → nodeOk (ms ++ [m]) p n.
Proof.
  intros [Hd Hc]. split.
  - destruct (data n) as [m'|]; [|done]. destruct Hd as [Hin Hd].
    split; [|done]. apply elem_of_app. by left.
  - intros Hne. destruct (Hc Hne) as [m' [r [Hin Hr]]]. exists m', r.
    split; [|done]. apply elem_of_app. by left.
Qed.

(** *** One insertion *)

Lemma name_insertPath m pa rest n : name (insertPath m pa rest n) = name n.
Proof.
  destruct rest as [|part rest]; simpl; [done|].
  by destruct (list_find _ _) as [[k c]|].
Qed.

Lemma data_insertPath_cons m pa part rest n :
  data (insertPath m pa (part :: rest) n) = data n ∧
  value (insertPath m pa (part :: rest) n) = value n.
Proof. simpl. by destruct (list_find _ _) as [[k c]|]. Qed.

Lemma children_insertPath_cons m pa part rest n :
  children (insertPath m pa (part :: rest) n) ≠ [].
Proof.
  simpl. destruct (list_find _ _) as [[k c]|] eqn:Hfind; simpl.
  - apply list_find_Some in Hfind as [Hk _].
    intros Hnil. apply (f_equal length) in Hnil.
    rewrite length_alter in Hnil. apply lookup_lt_Some in Hk. simpl in Hnil. lia.
  - by destruct (children n).
Qed.

Lemma insertPath_nodeOk ms m : ∀ rest p pa n,
  segments m = p ++ rest →
  allNodesAt (nodeOk ms) p n →
  allNodesAt (nodeOk (ms ++ [m])) p (insertPath m pa rest n).
Proof.
  assert (Hm : m ∈ ms ++ [m]) by (apply elem_of_app; right; apply list_elem_of_here).
  assert (Hmono : ∀ n p, allNodesAt (nodeOk ms) p n →
                         allNodesAt (nodeOk (ms ++ [m])) p n).
  { apply allNodesAt_impl. intros p n. apply nodeOk_mono. }
  induction rest as [|part rest IH]; intros p pa n Hseg [Hn Hcs]%allNodesAt_inv.
  - rewrite app_nil_r in Hseg. simpl. constructor; simpl.
    + split; simpl; [done|]. intros Hne. destruct Hn as [_ Hc].
      destruct (Hc Hne) as [m' [r [Hin Hr]]]. exists m', r.
      split; [|done]. apply elem_of_app. by left.
    + eapply Forall_impl; [exact Hcs|]. intros c. apply Hmono.
  - constructor.
    + unfold nodeOk.
      destruct (data_insertPath_cons m pa part rest n) as [-> ->].
      split.
      * by apply (nodeOk_mono ms m) in Hn as [Hd _].
      * intros _. exists m, (part :: rest). by repeat split.
    + simpl. destruct (list_find _ _) as [[k c]|] eqn:Hfind; simpl.
      * apply list_find_Some in Hfind as [Hk [Hname _]].
        apply Forall_lookup. intros i c'. rewrite list_lookup_alter.
        rewrite Forall_lookup in Hcs. case_decide as Hi.
        -- subst i. rewrite Hk. intros [= <-]. rewrite name_insertPath.
           apply IH; [by rewrite Hname, <- app_assoc|]. by eapply Hcs.
        -- intros Hc'. apply Hmono. by eapply Hcs.
      * apply Forall_app. split.
        -- eapply Forall_impl; [exact Hcs|]. intros c. apply Hmono.
        -- constructor; [|constructor]. rewrite name_insertPath. simpl.
           apply IH; [by rewrite <- app_assoc|].
           constructor; [|constructor]. by split.
Qed.

Lemma insertPath_hasLeafData m : ∀ rest p pa n,
  Forall (fun c => allNodesAt hasLeafData (p ++ [name c]) c) (children n) →
  allNodesAt hasLeafData p (insertPath m pa rest n).
Proof.
  induction rest as [|part rest IH]; intros p pa n Hcs.
  - simpl. constructor; [|done]. intros _. by eexists.
  - constructor.
    + intros Hnil. by apply children_insertPath_cons in Hnil.
    + simpl. destruct (list_find _ _) as [[k c]|] eqn:Hfind; simpl.
      * apply list_find_Some in Hfind as [Hk _].
        apply Forall_lookup. intros i c'. rewrite list_lookup_alter.
        rewrite Forall_lookup in Hcs. case_decide as Hi; [|by eapply Hcs].
        subst i. rewrite Hk. intros [= <-]. rewrite name_insertPath.
        apply IH. by destruct (allNodesAt_inv _ _ _ (Hcs k c Hk)).
      * apply Forall_app. split; [done|].
        constructor; [|constructor]. rewrite name_insertPath. simpl.
        apply IH. constructor.
Qed.

(** *** The whole tree of data *)

Lemma splitOn_nonempty sep s : Str.splitOn sep s ≠ [].
Proof.
  destruct s as [|c s]; simpl; [done|].
  destruct (Ascii.eqb c sep); [done|]. by destruct (Str.splitOn sep s).
Qed.

Lemma addModule_nodeOk ms m root :
  allNodesAt (nodeOk ms) [] root →
  allNodesAt (nodeOk (ms ++ [m])) [] (addModule root m).
Proof. intros H. by apply insertPath_nodeOk. Qed.

Lemma fold_addModule_nodeOk ms : ∀ ms0 root,
  allNodesAt (nodeOk ms0) [] root →
  allNodesAt (nodeOk (ms0 ++ ms)) [] (fold_left addModule ms root).
Proof.
  induction ms as [|m ms IH]; intros ms0 root H; simpl.
  - by rewrite app_nil_r.
  - replace (ms0 ++ m :: ms) with ((ms0 ++ [m]) ++ ms)
      by (by rewrite <- app_assoc).
    apply IH. by apply addModule_nodeOk.
Qed.

Lemma buildRootData_nodeOk ms : allNodesAt (nodeOk ms) [] (buildRootData ms).
Proof.
  apply (fold_addModule_nodeOk ms [] rootData).
  constructor; [by split|constructor].
Qed.

Lemma addModule_root m root :
  data (addModule root m) = data root ∧
  (Forall (fun c => allNodesAt hasLeafData [name c] c) (children root) →
   Forall (fun c => allNodesAt hasLeafData [name c] c)
     (children (addModule root m))).
Proof.
  unfold addModule. pose proof (splitOn_nonempty slash (nm_path m)) as Hne.
  destruct (Str.splitOn slash (nm_path m)) as [|part rest] eqn:Hs; [done|].
  split; [apply data_insertPath_cons|]. intros H.
  by destruct (allNodesAt_inv _ _ _
                 (insertPath_hasLeafData m (part :: rest) [] [] root H)).
Qed.

Lemma buildRootData_root ms :
  data (buildRootData ms) = None ∧
  Forall (fun c => allNodesAt hasLeafData [name c] c)
    (children (buildRootData ms)).
Proof.
  unfold buildRootData.
  assert (H : data rootData = None ∧
              Forall (fun c => allNodesAt hasLeafData [name c] c)
                (children rootData)) by (split; [done|constructor]).
  revert H. generalize rootData. induction ms as [|m ms IH]; intros root H;
    simpl; [done|].
  apply IH. destruct (addModule_root m root) as [-> Hc]. destruct H. auto.
Qed.

(** Every node of the tree has the property of its path. *)
Lemma allNodesAt_nodes P : ∀ root p d,
  allNodesAt P p root → In d (nodes root) → ∃ q, P q d.
Proof.
  induction root as [root IH] using TreemapNodeData_forall_ind.
  intros p d [Hroot Hcs]%allNodesAt_inv Hd.
  destruct root as [nm pth cs v ty dt]. simpl in *.
  destruct Hd as [<-|Hd]; [by exists p|].
  apply in_flat_map in Hd as [c [Hc Hd]].
  rewrite Forall_forall in IH, Hcs. apply list_elem_of_In in Hc.
  by eapply (IH c Hc), Hd; apply Hcs.
Qed.

(** *** [sum] and [sort] *)

Lemma total_unfold d : total d = ownValue d + sumZ (total <$> children d).
Proof. by destruct d. Qed.

Lemma fold_jsAdd_Some (xs : list Z) : ∀ x,
  fold_left jsAdd (Some <$> xs) (Some x) = Some (x + sumZ xs).
Proof.
  induction xs as [|y xs IH]; intros x; simpl.
  - f_equal. unfold sumZ. simpl. lia.
  - rewrite IH. f_equal. unfold sumZ. simpl. lia.
Qed.

Lemma sum_hierarchy_value d :
  hvalue (sum ownValue (hierarchy d)) = Some (total d).
Proof.
  induction d as [d IH] using TreemapNodeData_forall_ind.
  destruct d as [nm pth cs v ty dt]. simpl in *.
  rewrite !map_map.
  rewrite (map_ext_Forall _ _ IH).
  rewrite <- (map_map total Some). apply fold_jsAdd_Some.
Qed.

Lemma view_unfold d :
  view d = HNode d (Some (total d)) (jsSort byValueDesc (view <$> children d)).
Proof.
  pose proof (sum_hierarchy_value d) as Hv.
  unfold view. destruct d as [nm pth cs v ty dt]. simpl in *.
  rewrite Hv. f_equal. f_equal. by rewrite !map_map.
Qed.

Lemma treemapRoot_view ms : treemapRoot ms = view (buildRootData ms).
Proof. reflexivity. Qed.

Lemma hvalue_view d : hvalue (view d) = Some (total d).
Proof. by rewrite view_unfold. Qed.

Lemma hdata_view d : hdata (view d) = d.
Proof. by rewrite view_unfold. Qed.

(** *** The stable sort *)

Section JsSort.
Context {A : Type} (compare : A → A → Z).
Hypothesis compare_total : ∀ x y, compare x y <= 0 ∨ compare y x <= 0.
Hypothesis compare_trans :
  ∀ x y z, compare x y <= 0 → compare y z <= 0 → compare x z <= 0.

Lemma sortInsert_Permutation x l : Permutation (sortInsert compare x l) (x :: l).
Proof using Type.
  induction l as [|y l IH]; simpl; [done|].
  destruct (compare x y <=? 0); [done|].
  rewrite IH. apply perm_swap.
Qed.

Lemma jsSort_Permutation l : Permutation (jsSort compare l) l.
Proof using Type.
  induction l as [|x l IH]; simpl; [done|].
  by rewrite sortInsert_Permutation, IH.
Qed.

Lemma sortInsert_sorted x l :
  StronglySorted (fun x y => compare x y <= 0) l →
  StronglySorted (fun x y => compare x y <= 0) (sortInsert compare x l).
Proof using compare_total compare_trans.
  induction 1 as [|y l Hl IH Hy]; simpl.
  - repeat constructor.
  - destruct (Z.leb_spec (compare x y) 0) as [Hxy|Hxy].
    + constructor; [by constructor|]. constructor; [done|].
      eapply Forall_impl; [exact Hy|]. intros z. by apply compare_trans.
    + constructor; [done|].
      rewrite sortInsert_Permutation. constructor; [|done].
      destruct (compare_total x y); [lia|done].
Qed.

Lemma jsSort_sorted l :
  StronglySorted (fun x y => compare x y <= 0) (jsSort compare l).
Proof using compare_total compare_trans.
  induction l as [|x l IH]; simpl; [constructor|by apply sortInsert_sorted].
Qed.

(** Stability: the elements of a class of ties keep their order. *)
Lemma sortInsert_filter (P : A → bool) x l :
  (∀ y, P x = true → P y = true → compare x y <= 0) →
  List.filter P (sortInsert compare x l) = List.filter P (x :: l).
Proof using Type.
  intros Hties. induction l as [|y l IH]; simpl; [done|].
  destruct (Z.leb_spec (compare x y) 0) as [Hxy|Hxy]; [done|].
  simpl in *. rewrite IH.
  destruct (P x) eqn:Hx, (P y) eqn:Hy; try done.
  specialize (Hties y eq_refl Hy). lia.
Qed.

Lemma jsSort_stable (P : A → bool) l :
  (∀ x y, P x = true → P y = true → compare x y <= 0) →
  List.filter P (jsSort compare l) = List.filter P l.
Proof using Type.
  intros Hties. induction l as [|x l IH]; simpl; [done|].
  rewrite sortInsert_filter by (intros y; apply Hties). simpl. by rewrite IH.
Qed.
End JsSort.

(** *** The nodes of the hierarchy *)

Lemma hchildren_view d :
  hchildren (view d) = jsSort byValueDesc (view <$> children d).
Proof. by rewrite view_unfold. Qed.

Lemma descendants_self h : In h (descendants h).
Proof. destruct h. by left. Qed.

Lemma nodes_self d : In d (nodes d).
Proof. destruct d. by left. Qed.

Lemma nodes_child d c e : In c (children d) → In e (nodes c) → In e (nodes d).
Proof.
  destruct d as [nm pth cs v ty dt]. simpl. intros Hc He. right.
  apply in_flat_map. eauto.
Qed.

(** The nodes of the hierarchy are the views of the data. *)
Lemma descendants_view : ∀ d h,
  In h (descendants (view d)) → ∃ e, In e (nodes d) ∧ h = view e.
Proof.
  induction d as [d IH] using TreemapNodeData_forall_ind. intros h.
  rewrite view_unfold at 1. simpl. rewrite <- view_unfold.
  intros [<-|Hh]; [exists d; split; [apply nodes_self|done]|].
  apply in_flat_map in Hh as [c' [Hc' Hh]].
  apply list_elem_of_In in Hc'. rewrite jsSort_Permutation in Hc'.
  apply list_elem_of_fmap in Hc' as [c [-> Hc]].
  rewrite Forall_forall in IH. destruct (IH c Hc h Hh) as [e [He ->]].
  exists e. split; [|done]. eapply nodes_child; [|exact He].
  by apply list_elem_of_In.
Qed.

Lemma sumZ_Permutation l k : Permutation l k → sumZ l = sumZ k.
Proof.
  unfold sumZ. induction 1 as [|x l k _ IH|x y l|l k j _ IH1 _ IH2]; simpl; lia.
Qed.

Lemma childValues_view d : childValues (view d) = sumZ (total <$> children d).
Proof.
  unfold childValues. rewrite hchildren_view.
  rewrite (sumZ_Permutation _ ((fun c => orZero (hvalue c)) <$> (view <$> children d))).
  - rewrite <- list_fmap_compose. f_equal. apply list_fmap_ext.
    intros _ c _. simpl. by rewrite hvalue_view.
  - apply fmap_Permutation, jsSort_Permutation.
Qed.

(** In any tree, the value of a node is its own value and the values of its
    children. *)
Lemma view_value_own_plus_children d :
  hvalue (view d) = Some (ownValue d + childValues (view d)).
Proof. by rewrite hvalue_view, childValues_view, total_unfold. Qed.

Lemma hchildren_view_nil d : hchildren (view d) = [] ↔ children d = [].
Proof.
  rewrite hchildren_view. split.
  - intros H. apply (f_equal length) in H.
    rewrite (Permutation_length (jsSort_Permutation _ _)), length_fmap in H.
    by destruct (children d).
  - by intros ->.
Qed.

Lemma properPrefixb_spec p : ∀ q,
  properPrefixb p q = true ↔ ∃ r, r ≠ [] ∧ q = p ++ r.
Proof.
  induction p as [|x p IH]; intros q; destruct q as [|y q]; simpl.
  - split; [done|]. by intros [r [Hr <-]].
  - split; [|done]. intros _. by exists (y :: q).
  - split; [done|]. intros [r [_ ?]]; done.
  - rewrite andb_true_iff, IH. split.
    + intros [->%String.eqb_eq [r [Hr ->]]]. by exists r.
    + intros [r [Hr [= -> ->]]]. split; [apply String.eqb_refl|by exists r].
Qed.

Lemma prefixFree_spec ms a b r :
  prefixFree ms → a ∈ ms → b ∈ ms → segments b = segments a ++ r → r = [].
Proof.
  unfold prefixFree. rewrite forallb_forall. intros H Ha Hb Hr.
  apply list_elem_of_In in Ha, Hb. specialize (H a Ha).
  rewrite forallb_forall in H. specialize (H b Hb).
  apply negb_true_iff in H. destruct r as [|x r]; [done|].
  assert (properPrefixb (segments a) (segments b) = true); [|congruence].
  apply properPrefixb_spec. by exists (x :: r).
Qed.

(** C1, as the code has it.  When no module's path continues the path of
    another module, every node of the hierarchy that has children has the
    sum of their values as its value, and every node without children,
    apart from the root of an empty tree, represents one of the modules and
    has its raw size as value. *)
Theorem hierarchy_aggregation (ms : list NormalizedModule) :
  prefixFree ms →
  Forall
    (fun h =>
       aggregates h ∧
       (hchildren h = [] →
        h = treemapRoot ms ∨ ∃ m, m ∈ ms ∧ data (hdata h) = Some m))
    (descendants (treemapRoot ms)).
Proof.
  intros Hfree. apply List.Forall_forall. intros h Hh.
  rewrite treemapRoot_view in *.
  apply descendants_view in Hh as [d [Hd ->]].
  destruct (allNodesAt_nodes _ _ _ d (buildRootData_nodeOk ms) Hd)
    as [p [Hdata Hchildren]].
  split; [split|].
  - intros Hne. rewrite view_value_own_plus_children. f_equal.
    assert (Hne' : children d ≠ [])
      by (intros E; by apply Hne, hchildren_view_nil).
    destruct (Hchildren Hne') as [m1 [r [Hm1 [Hr Hseg]]]].
    unfold ownValue. destruct (data d) as [m2|].
    + destruct Hdata as [Hm2 [Hp _]]. rewrite <- Hp in Hseg.
      by apply (prefixFree_spec ms m2 m1 r) in Hseg.
    + by rewrite Hdata.
  - intros Hnil%hchildren_view_nil m Hm. rewrite hdata_view in Hm.
    rewrite hvalue_view, total_unfold, Hnil.
    rewrite Hm in Hdata. destruct Hdata as [_ [_ Hv]].
    unfold ownValue. rewrite Hv. f_equal. unfold sumZ. simpl. lia.
  - intros Hnil%hchildren_view_nil.
    destruct (buildRootData_root ms) as [_ Hleaves].
    destruct (buildRootData ms) as [nm pth cs v ty dt] eqn:Hroot.
    simpl in Hd. destruct Hd as [<-|Hd]; [by left|]. right.
    apply in_flat_map in Hd as [c [Hc Hd]]. simpl in Hleaves.
    rewrite Forall_forall in Hleaves. apply list_elem_of_In in Hc.
    destruct (allNodesAt_nodes _ _ _ d (Hleaves c Hc) Hd) as [q Hleaf].
    destruct (Hleaf Hnil) as [m Hm]. exists m. rewrite hdata_view.
    split; [|done].
    rewrite Hm in Hdata. by destruct Hdata.
Qed.

Lemma hierarchy_aggregation_witness :
  prefixFree (modules mockBuildStats) ∧
  Forall
    (fun h =>
       aggregates h ∧
       (hchildren h = [] →
        h = treemapRoot (modules mockBuildStats) ∨
        ∃ m, m ∈ modules mockBuildStats ∧ data (hdata h) = Some m))
    (descendants (treemapRoot (modules mockBuildStats))).
Proof.
  assert (H : prefixFree (modules mockBuildStats)) by (vm_compute; reflexivity).
  split; [exact H|]. exact (hierarchy_aggregation (modules mockBuildStats) H).
Defined.

(** Without the condition on the paths, the value of every node is still
    its own value plus the values of its children. *)
Lemma hierarchy_value_own_plus_children (ms : list NormalizedModule) :
  Forall (fun h => hvalue h = Some (ownValue (hdata h) + childValues h))
    (descendants (treemapRoot ms)).
Proof.
  apply List.Forall_forall. intros h Hh. rewrite treemapRoot_view in Hh.
  apply descendants_view in Hh as [d [_ ->]].
  rewrite hdata_view. apply view_value_own_plus_children.
Qed.

(** C1, as the specification states it, fails when a module lies below the
    path of another module: the node of [a] has the child [b] of value 1,
    and the value 3. *)
Lemma nested_paths_counterexample :
  ∃ bs, normalizeWebpackStats 0 nestedStats = Ok bs ∧
        ¬ Forall aggregates (descendants (treemapRoot (modules bs))).
Proof.
  eexists. split; [vm_compute; reflexivity|]. intros H.
  vm_compute in H. apply Forall_inv_tail, Forall_inv in H.
  destruct H as [H _].
  assert (Hv : Some 3 = Some 1); [|discriminate Hv].
  apply H. discriminate.
Qed.

(** *** The order of children *)






(** Section 8: on the mock modules the root has the sum of the seven raw
    sizes as value, and the node of [./node_modules] has 180,000 + 250,000. *)
Example mock_hierarchy_values :
  hvalue (treemapRoot (modules mockBuildStats)) = Some 655000 ∧
  (fun h => (path (hdata h), hvalue h))
    <$> List.filter (fun h => String.eqb (path (hdata h)) "./node_modules")
          (descendants (treemapRoot (modules mockBuildStats)))
  = [("./node_modules", Some 430000)].
Proof. split; vm_compute; reflexivity. Qed.

(** * More of the code *)

(** ** Strings: suffixes, splitting and joining *)

Lemma length_append (a b : string) :
  String.length (a +:+ b) = (String.length a + String.length b)%nat.
Proof. induction a as [|c a IH]; [done|]. rewrite append_cons. simpl. by rewrite IH. Qed.

Lemma append_assoc (a b c : string) : (a +:+ b) +:+ c = a +:+ (b +:+ c).
Proof. induction a as [|x a IH]; [done|]. by rewrite !append_cons, IH. Qed.

Lemma append_empty_r (a : string) : a +:+ "" = a.
Proof. induction a as [|x a IH]; [done|]. by rewrite append_cons, IH. Qed.

Lemma substring_whole (t : string) : String.substring 0 (String.length t) t = t.
Proof. induction t as [|c t IH]; [done|]. simpl. by rewrite IH. Qed.

Lemma substring_suffix (p t : string) :
  String.substring (String.length p) (String.length t) (p +:+ t) = t.
Proof. induction p as [|c p IH]; [apply substring_whole|]. by rewrite append_cons. Qed.

Lemma substring_split (s : string) : ∀ n, (n <= String.length s)%nat →
  s = String.substring 0 n s +:+ String.substring n (String.length s - n) s.
Proof.
  induction s as [|c s IH]; intros n Hn; simpl in Hn.
  - by destruct n.
  - destruct n as [|n]; simpl.
    + by rewrite substring_whole.
    + rewrite append_cons. f_equal. apply IH. lia.
Qed.

Lemma endsWith_spec s t : Str.endsWith s t = true ↔ ∃ p, s = p +:+ t.
Proof.
  unfold Str.endsWith. rewrite andb_true_iff, Nat.leb_le, String.eqb_eq. split.
  - intros [Hlen Hsub].
    exists (String.substring 0 (String.length s - String.length t) s).
    assert (E : (String.length s - (String.length s - String.length t)
                 = String.length t)%nat) by lia.
    pose proof (substring_split s (String.length s - String.length t)
                  ltac:(lia)) as H.
    by rewrite E, Hsub in H.
  - intros [p ->]. rewrite length_append. split; [lia|].
    replace (String.length p + String.length t - String.length t)%nat
      with (String.length p) by lia.
    apply substring_suffix.
Qed.

Lemma append_eq_append (a b : string) : ∀ c d, a +:+ b = c +:+ d →
  (∃ l, a = c +:+ l ∧ d = l +:+ b) ∨ (∃ l, c = a +:+ l ∧ b = l +:+ d).
Proof.
  induction a as [|x a IH]; intros c d H.
  - right. exists c. split; [reflexivity|exact H].
  - destruct c as [|y c].
    + left. exists (String x a). split; [reflexivity|symmetry; exact H].
    + rewrite !append_cons in H. injection H as -> H.
      destruct (IH c d H) as [[l [-> ->]]|[l [-> ->]]]; [left|right];
        by exists l.
Qed.

(** Whether a name with the ending [e1] ends with [e2] is decided by the
    two endings, when [e2] is not longer than [e1] or does not end with it. *)
Lemma endsWith_append stem e1 e2 :
  (String.length e2 <=? String.length e1)%nat || negb (Str.endsWith e2 e1) = true →
  Str.endsWith (stem +:+ e1) e2 = Str.endsWith e1 e2.
Proof.
  intros Hcond. apply eq_true_iff_eq. rewrite !endsWith_spec. split.
  - intros [p Hp]. apply append_eq_append in Hp as [[l [-> Hl]]|[l [-> Hl]]].
    + apply orb_true_iff in Hcond as [Hlen%Nat.leb_le|Hno%negb_true_iff].
      * rewrite Hl, length_append in Hlen.
        destruct l; simpl in *; [by exists ""|lia].
      * assert (Str.endsWith e2 e1 = true) by (apply endsWith_spec; eauto).
        congruence.
    + by exists l.
  - intros [q ->]. exists (stem +:+ q). by rewrite append_assoc.
Qed.

Lemma toLowerCase_append a b :
  Str.toLowerCase (a +:+ b) = Str.toLowerCase a +:+ Str.toLowerCase b.
Proof. induction a as [|c a IH]; [done|]. rewrite !append_cons. simpl. by rewrite IH. Qed.

(** ** [getTypeFromName] *)

(** X1. A name that ends, in whatever case, with one of the twenty known
    extensions gets the type of that extension, whatever precedes it: no
    extension is shadowed by a test that comes earlier. *)
Theorem getTypeFromName_table (stem ext : string) (t : ModuleType) :
  (Str.toLowerCase ext, t) ∈ extensionTable →
  getTypeFromName (stem +:+ ext) = t.
Proof.
  intros Hin. unfold getTypeFromName. rewrite toLowerCase_append.
  apply list_elem_of_In in Hin. simpl in Hin.
  repeat (destruct Hin as [Hin|Hin]; [injection Hin as <- <-|]); [..|done];
    rewrite !endsWith_append by reflexivity; reflexivity.
Qed.

Lemma getTypeFromName_table_witness :
  (Str.toLowerCase ".JSON", json) ∈ extensionTable ∧
  getTypeFromName ("package" +:+ ".JSON") = json.
Proof.
  assert (H : (Str.toLowerCase ".JSON", json) ∈ extensionTable)
    by (apply list_elem_of_In; vm_compute;
        repeat ((left; reflexivity) || right)).
  split; [exact H|]. exact (getTypeFromName_table "package" ".JSON" json H).
Defined.

Lemma lowerAscii_dot c : Str.lowerAscii c = "."%char → c = "."%char.
Proof.
  destruct c as [[] [] [] [] [] [] [] []]; vm_compute; intros H;
    first [reflexivity | discriminate H].
Qed.

Lemma toLowerCase_dot_inv : ∀ s a b,
  Str.toLowerCase s = a +:+ "." +:+ b → ∃ a' b', s = a' +:+ "." +:+ b'.
Proof.
  induction s as [|c s IH]; intros a b H.
  - by destruct a.
  - destruct a as [|x a].
    + injection H as Hc _. apply lowerAscii_dot in Hc as ->. by exists "", s.
    + rewrite append_cons in H. injection H as _ H.
      destruct (IH a b H) as [a' [b' ->]]. by exists (String c a'), b'.
Qed.

Lemma endsWith_dot_false name e :
  Str.includes name "." = false →
  Str.endsWith (Str.toLowerCase name) (String "."%char e) = false.
Proof.
  intros Hno. apply not_true_is_false. intros [p Hp]%endsWith_spec.
  destruct (toLowerCase_dot_inv name p e Hp) as [a' [b' Hname]].
  assert (Str.includes name "." = true) by (apply includes_spec; eauto).
  congruence.
Qed.

(** X2. A name in which no dot occurs is of type [unknown]. *)
Theorem getTypeFromName_no_dot (name : string) :
  Str.includes name "." = false → getTypeFromName name = unknown.
Proof.
  intros Hno. unfold getTypeFromName.
  by rewrite !(endsWith_dot_false name _ Hno).
Qed.

Lemma getTypeFromName_no_dot_witness :
  Str.includes "LICENSE" "." = false ∧ getTypeFromName "LICENSE" = unknown.
Proof.
  assert (H : Str.includes "LICENSE" "." = false) by reflexivity.
  split; [exact H|]. exact (getTypeFromName_no_dot "LICENSE" H).
Defined.

(** ** Splitting and joining paths *)

Lemma join_cons sep p ps :
  ps ≠ [] → Str.join sep (p :: ps) = p +:+ sep +:+ Str.join sep ps.
Proof. by destruct ps. Qed.

Lemma join_snoc sep x : ∀ init,
  init ≠ [] → Str.join sep (init ++ [x]) = Str.join sep init +:+ sep +:+ x.
Proof.
  induction init as [|p init IH]; intros Hne; [done|].
  destruct init as [|q init]; [done|].
  change ((p :: q :: init) ++ [x]) with (p :: ((q :: init) ++ [x])).
  rewrite join_cons by done. rewrite IH by done.
  rewrite (join_cons sep p (q :: init)) by done.
  by rewrite !append_assoc.
Qed.

Lemma slashFree_cons c w :
  slashFree (String c w) ↔ c ≠ slash ∧ slashFree w.
Proof.
  unfold slashFree. simpl. destruct (Ascii.eqb_spec c "/"%char) as [->|Hc]; simpl.
  - split; [done|]. by intros [? _].
  - split; [by intros ->|]. by intros [_ ->].
Qed.

Lemma splitOn_slashFree s : Forall slashFree (Str.splitOn slash s).
Proof.
  induction s as [|c s IH]; simpl.
  - by constructor.
  - destruct (Ascii.eqb_spec c slash) as [->|Hc].
    + by constructor.
    + pose proof (splitOn_nonempty slash s).
      destruct (Str.splitOn slash s) as [|w ws]; [done|].
      inversion IH; subst. constructor; [|done]. by apply slashFree_cons.
Qed.

Lemma splitOn_append w rest :
  slashFree w →
  Str.splitOn slash (w +:+ "/" +:+ rest) = w :: Str.splitOn slash rest.
Proof.
  induction w as [|c w IH]; intros Hw; [done|].
  apply slashFree_cons in Hw as [Hc Hw]. rewrite append_cons. simpl.
  destruct (Ascii.eqb_spec c slash); [done|]. by rewrite IH.
Qed.

Lemma splitOn_slashFree_id w : slashFree w → Str.splitOn slash w = [w].
Proof.
  induction w as [|c w IH]; intros Hw; [done|].
  apply slashFree_cons in Hw as [Hc Hw]. simpl.
  destruct (Ascii.eqb_spec c slash); [done|]. by rewrite IH.
Qed.

(** Splitting a path at the slashes and joining the segments with
    slashes gives the path back; the segments contain no slash; and a
    non-empty list of segments without slashes is what splitting their join
    gives. *)
Theorem split_join_roundtrip :
  (∀ s, Str.join "/" (Str.splitOn slash s) = s ∧
        Forall slashFree (Str.splitOn slash s)) ∧
  (∀ parts, parts ≠ [] → Forall slashFree parts →
            Str.splitOn slash (Str.join "/" parts) = parts).
Proof.
  split.
  - intros s. split; [|apply splitOn_slashFree].
    induction s as [|c s IH]; [done|]. simpl.
    pose proof (splitOn_nonempty slash s) as Hne.
    destruct (Ascii.eqb_spec c slash) as [->|Hc].
    + rewrite join_cons by done. by rewrite IH.
    + destruct (Str.splitOn slash s) as [|w ws]; [done|].
      destruct ws as [|w' ws]; [simpl in *; by rewrite IH|].
      rewrite join_cons by done. rewrite join_cons in IH by done.
      by rewrite append_cons, IH.
  - induction parts as [|p parts IH]; intros Hne Hfree; [done|].
    inversion Hfree as [|? ? Hp Hparts]; subst.
    destruct parts as [|q parts]; [by apply splitOn_slashFree_id|].
    rewrite join_cons by done. rewrite splitOn_append by done.
    by rewrite IH.
Qed.

Lemma join_splitOn s : Str.join "/" (Str.splitOn slash s) = s.
Proof. apply split_join_roundtrip. Qed.

Lemma getShortModuleName_facts (p : string) :
  slashFree (getShortModuleName p) ∧
  ∃ dir, p = dir +:+ getShortModuleName p ∧
         (dir = "" ∨ Str.endsWith dir "/" = true).
Proof.
  unfold getShortModuleName.
  pose proof (splitOn_nonempty slash p) as Hne.
  pose proof (splitOn_slashFree p) as Hfree.
  pose proof (join_splitOn p) as Hjoin.
  rewrite (app_removelast_last "" Hne) in Hfree, Hjoin.
  set (lst := List.last (Str.splitOn slash p) "") in *.
  set (init := removelast (Str.splitOn slash p)) in *.
  split.
  - apply Forall_app in Hfree as [_ Hlast]. by inversion Hlast.
  - destruct init as [|x init].
    + exists "". split; [by rewrite <- Hjoin|by left].
    + rewrite join_snoc in Hjoin by done.
      exists (Str.join "/" (x :: init) +:+ "/"). split.
      * by rewrite append_assoc.
      * right. apply endsWith_spec. by eexists.
Qed.

(** X3. The short name of a path contains no slash and is the end of the
    path: the path is the short name itself, or what precedes the short
    name ends with a slash. *)
Theorem getShortModuleName_spec (p : string) :
  slashFree (getShortModuleName p) ∧
  ∃ dir, p = dir +:+ getShortModuleName p ∧
         (dir = "" ∨ Str.endsWith dir "/" = true).
Proof. apply getShortModuleName_facts. Qed.

(** X4. The nine module types have nine different colours, and a folder
    has the colour of [unknown]. *)
Theorem getTypeColor_distinct :
  (∀ t1 t2, getTypeColor (typeName t1) = getTypeColor (typeName t2) → t1 = t2) ∧
  getTypeColor (nodeTypeName folder) = getTypeColor (typeName unknown).
Proof.
  split; [|reflexivity].
  intros [] []; vm_compute; intros H; first [reflexivity | discriminate H].
Qed.

(** ** [sortModulesBySize] and the top five of the dashboard *)

Lemma bySizeDesc_total x y : bySizeDesc x y <= 0 ∨ bySizeDesc y x <= 0.
Proof. unfold bySizeDesc. lia. Qed.

Lemma bySizeDesc_trans x y z :
  bySizeDesc x y <= 0 → bySizeDesc y z <= 0 → bySizeDesc x z <= 0.
Proof. unfold bySizeDesc. lia. Qed.

Lemma sortModulesBySize_sorted ms :
  StronglySorted (fun a b => rawSize b <= rawSize a) (sortModulesBySize ms).
Proof.
  pose proof (jsSort_sorted bySizeDesc bySizeDesc_total bySizeDesc_trans ms) as Hs.
  unfold sortModulesBySize.
  induction Hs as [|x l _ IH Hx]; constructor; [done|].
  eapply Forall_impl; [exact Hx|]. intros y. unfold bySizeDesc, rawSize. lia.
Qed.

(** X5. [sortModulesBySize] returns the modules it is given, each as often
    as it is given, in the order of descending raw size; modules of one
    size keep the order they had. *)
Theorem sortModulesBySize_spec (ms : list NormalizedModule) :
  Permutation (sortModulesBySize ms) ms ∧
  StronglySorted (fun a b => rawSize b <= rawSize a) (sortModulesBySize ms) ∧
  ∀ v, List.filter (fun m => rawSize m =? v) (sortModulesBySize ms)
       = List.filter (fun m => rawSize m =? v) ms.
Proof.
  split; [apply jsSort_Permutation|]. split; [apply sortModulesBySize_sorted|].
  intros v. apply jsSort_stable.
  intros x y Hx%Z.eqb_eq Hy%Z.eqb_eq. unfold bySizeDesc, rawSize in *. lia.
Qed.

Lemma StronglySorted_app_inv {A} (R : A → A → Prop) l1 : ∀ l2,
  StronglySorted R (l1 ++ l2) → ∀ a b, In a l1 → In b l2 → R a b.
Proof.
  induction l1 as [|x l1 IH]; intros l2 Hs a b Ha Hb; [done|].
  simpl in Hs. apply StronglySorted_inv in Hs as [Hs Hx].
  destruct Ha as [<-|Ha]; [|by eapply IH].
  rewrite List.Forall_forall in Hx. apply Hx, in_or_app. by right.
Qed.

(** X6. The dashboard lists five modules, or all when there are fewer, and
    no module it leaves out is larger than a module it lists. *)
Theorem topModules_largest (stats : NormalizedBuildStats) :
  length (topModules (Some stats)) = Nat.min 5 (length (modules stats)) ∧
  ∃ rest, Permutation (topModules (Some stats) ++ rest) (modules stats) ∧
          ∀ a b, In a (topModules (Some stats)) → In b rest →
                 rawSize b <= rawSize a.
Proof.
  unfold topModules. split.
  - rewrite length_take.
    by rewrite (Permutation_length (jsSort_Permutation bySizeDesc _)).
  - exists (drop 5 (sortModulesBySize (modules stats))). split.
    + rewrite take_drop. apply jsSort_Permutation.
    + apply StronglySorted_app_inv. rewrite take_drop.
      apply sortModulesBySize_sorted.
Qed.

(** ** The links of the dependency graph *)

Lemma elem_of_visibleModuleIds ms t :
  t ∈ visibleModuleIds ms ↔ ∃ m, m ∈ ms ∧ nm_id m = t.
Proof.
  unfold visibleModuleIds. rewrite elem_of_list_to_set, list_elem_of_fmap.
  split; intros [m [? ?]]; by exists m.
Qed.

(** X7. The graph has a link from [s] to [t] exactly when [t] is listed as
    a dependency of a visible module with id [s] and [t] is the id of a
    visible module: both ends of every link are visible. *)
Theorem links_spec (ms : list NormalizedModule) (s t : string) :
  In (s, t) (links ms) ↔
  (∃ m, m ∈ ms ∧ nm_id m = s ∧ t ∈ nm_dependencies m) ∧
  (∃ m', m' ∈ ms ∧ nm_id m' = t).
Proof.
  unfold links. rewrite in_flat_map. split.
  - intros [m [Hm Hin]]. apply list_elem_of_In in Hin, Hm.
    apply list_elem_of_fmap in Hin as [t' [[= -> ->] Ht]].
    apply list_elem_of_In, filter_In in Ht as [Ht Hvis].
    apply bool_decide_eq_true, elem_of_visibleModuleIds in Hvis.
    split; [|done]. exists m. apply list_elem_of_In in Ht. by repeat split.
  - intros [[m [Hm [<- Ht]]] Hvis]. exists m.
    split; [by apply list_elem_of_In|].
    apply list_elem_of_In, list_elem_of_fmap. exists t. split; [done|].
    apply list_elem_of_In, filter_In. split; [by apply list_elem_of_In|].
    by apply bool_decide_eq_true, elem_of_visibleModuleIds.
Qed.

Lemma filter_all {A} (f : A → bool) l :
  (∀ x, In x l → f x = true) → List.filter f l = l.
Proof.
  induction l as [|x l IH]; intros H; simpl; [done|].
  rewrite (H x) by (by left). f_equal. apply IH. intros y Hy. apply H. by right.
Qed.

Lemma flat_map_ext_elem {A B} (f g : A → list B) l :
  (∀ x, In x l → f x = g x) → flat_map f l = flat_map g l.
Proof.
  induction l as [|x l IH]; intros H; simpl; [done|].
  rewrite (H x) by (by left). f_equal. apply IH. intros y Hy. apply H. by right.
Qed.

(** X8. Of normalized stats shown without any filter, the graph has every
    recorded dependency as a link, in order: none is dropped. *)
Theorem links_of_normalized (now : Z) (stats : WebpackStats)
    (bs : NormalizedBuildStats) :
  normalizeWebpackStats now stats = Ok bs →
  links (modules bs) = allEdges (modules bs).
Proof.
  intros H. apply normalize_Ok_inv in H as [st [acc [Hst [_ [-> _]]]]].
  apply processModules_resolved, resolved_closedEdges in Hst.
  unfold links, allEdges. apply flat_map_ext_elem. intros m Hm. f_equal.
  apply filter_all. intros t Ht.
  apply bool_decide_eq_true, elem_of_visibleModuleIds.
  apply (Hst m t); [by apply list_elem_of_In|]. left. by apply list_elem_of_In.
Qed.

Lemma links_of_normalized_witness :
  normalizeWebpackStats 0 mockWebpackStats = Ok mockBuildStats ∧
  links (modules mockBuildStats) = allEdges (modules mockBuildStats).
Proof.
  assert (H : normalizeWebpackStats 0 mockWebpackStats = Ok mockBuildStats)
    by (vm_compute; reflexivity).
  split; [exact H|]. exact (links_of_normalized 0 mockWebpackStats mockBuildStats H).
Defined.

(** ** The type filter of the application *)

Lemma isActive_toggle t k prev :
  isActive (handleToggleType t prev) k
  = if decide (t = k) then negb (isActive prev k) else isActive prev k.
Proof.
  unfold handleToggleType, isActive at 1. rewrite lookup_insert.
  by case_decide; subst.
Qed.

Lemma filteredModules_ext stats q at1 at2 :
  (∀ k, isActive at1 k = isActive at2 k) →
  filteredModules stats q at1 = filteredModules stats q at2.
Proof.
  intros H. destruct stats as [stats|]; [|done]. simpl.
  induction (modules stats) as [|m ms IH]; [done|]. simpl. by rewrite H, IH.
Qed.

(** X9. Clicking the check box of a type twice shows the modules that
    were shown before, whatever the filter state was, also when the state
    had no entry for the type. *)
Theorem toggle_twice (stats : option NormalizedBuildStats) (q t : string)
    (prev : gmap string bool) :
  filteredModules stats q (handleToggleType t (handleToggleType t prev))
  = filteredModules stats q prev.
Proof.
  apply filteredModules_ext. intros k. rewrite !isActive_toggle.
  case_decide; [|done]. by rewrite negb_involutive.
Qed.

Lemma typeName_inj t1 t2 : typeName t1 = typeName t2 → t1 = t2.
Proof. destruct t1, t2; vm_compute; intros H; first [reflexivity|discriminate H]. Qed.

(** X10. Clicking the check box of a type that is shown removes the
    modules of this type from the view, and only them. *)
Theorem toggle_off (stats : option NormalizedBuildStats) (q : string)
    (t : ModuleType) (prev : gmap string bool) :
  isActive prev (typeName t) = true →
  filteredModules stats q (handleToggleType (typeName t) prev)
  = List.filter (fun m => negb (bool_decide (nm_type m = t)))
      (filteredModules stats q prev).
Proof.
  intros Hact. destruct stats as [stats|]; [|done]. simpl.
  induction (modules stats) as [|m ms IH]; [done|]. simpl.
  rewrite isActive_toggle, IH. case_decide as Ht.
  - assert (Hmt : nm_type m = t) by (symmetry; by apply typeName_inj).
    rewrite Hmt, Hact. simpl.
    destruct (_ || _); [|done]. simpl. by rewrite bool_decide_eq_true_2.
  - destruct (isActive prev _ && _); [|done]. simpl.
    rewrite bool_decide_eq_false_2; [done|]. by intros <-.
Qed.

Lemma toggle_off_witness :
  isActive allActive (typeName css) = true ∧
  filteredModules (Some mockBuildStats) "" (handleToggleType (typeName css) allActive)
  = List.filter (fun m => negb (bool_decide (nm_type m = css)))
      (filteredModules (Some mockBuildStats) "" allActive).
Proof.
  assert (H : isActive allActive (typeName css) = true)
    by (vm_compute; reflexivity).
  split; [exact H|]. exact (toggle_off (Some mockBuildStats) "" css allActive H).
Defined.

Lemma afterToggles_hidden key toggles : ∀ start,
  key ∉ toggles → start !! key = None →
  afterToggles toggles start !! key = None.
Proof.
  unfold afterToggles. induction toggles as [|t toggles IH]; intros start Hk Hs;
    [done|].
  simpl. apply not_elem_of_cons in Hk as [Hne Hk]. apply IH; [done|].
  unfold handleToggleType. by rewrite lookup_insert_ne.
Qed.

(** X11. Whatever check boxes the user clicks, in whatever order, modules
    of the types [map] and [html] are never shown: the filter state starts
    without an entry for them and [FilterControls] offers no check box for
    them. *)
Theorem map_html_never_shown (toggles : list string)
    (stats : option NormalizedBuildStats) (q : string) :
  Forall (fun t => t ∈ moduleTypes) toggles →
  Forall (fun m => nm_type m ≠ map_ ∧ nm_type m ≠ html)
    (filteredModules stats q (afterToggles toggles initialActiveTypes)).
Proof.
  intros Htoggles.
  assert (Hhidden : ∀ key, key ∉ moduleTypes → initialActiveTypes !! key = None →
            isActive (afterToggles toggles initialActiveTypes) key = false).
  { intros key Hkey Hinit. unfold isActive.
    rewrite afterToggles_hidden; [done| |done].
    intros Hin. rewrite Forall_forall in Htoggles. by apply Hkey, Htoggles. }
  assert (Hmap : isActive (afterToggles toggles initialActiveTypes) "map" = false).
  { apply Hhidden; [|by vm_compute].
    intros H%list_elem_of_In. simpl in H.
    repeat (destruct H as [H|H]; [discriminate H|]). done. }
  assert (Hhtml : isActive (afterToggles toggles initialActiveTypes) "html" = false).
  { apply Hhidden; [|by vm_compute].
    intros H%list_elem_of_In. simpl in H.
    repeat (destruct H as [H|H]; [discriminate H|]). done. }
  destruct stats as [stats|]; [|constructor]. simpl.
  apply List.Forall_forall. intros m [_ Hm]%filter_In.
  apply andb_true_iff in Hm as [Hm _].
  split; intros Ht; rewrite Ht in Hm; simpl in Hm; congruence.
Qed.

Lemma map_html_never_shown_witness :
  Forall (fun t => t ∈ moduleTypes) ["css"; "js"; "css"] ∧
  Forall (fun m => nm_type m ≠ map_ ∧ nm_type m ≠ html)
    (filteredModules (Some mockBuildStats) ""
       (afterToggles ["css"; "js"; "css"] initialActiveTypes)).
Proof.
  assert (H : Forall (fun t => t ∈ moduleTypes) ["css"; "js"; "css"])
    by (repeat constructor; apply list_elem_of_In; vm_compute;
        repeat ((left; reflexivity) || right)).
  split; [exact H|].
  exact (map_html_never_shown ["css"; "js"; "css"] (Some mockBuildStats) "" H).
Defined.

(** ** The nodes of the treemap and the paths of the modules *)

Lemma allNodesAt_and (P Q : list string → TreemapNodeData → Prop) : ∀ n p,
  allNodesAt P p n → allNodesAt Q p n →
  allNodesAt (fun p n => P p n ∧ Q p n) p n.
Proof.
  induction n as [n IH] using TreemapNodeData_forall_ind.
  intros p [HP HPs]%allNodesAt_inv [HQ HQs]%allNodesAt_inv.
  constructor; [done|].
  rewrite Forall_forall in IH, HPs, HQs |- *. intros c Hc.
  apply IH; auto.
Qed.

Lemma path_insertPath m pa rest n : path (insertPath m pa rest n) = path n.
Proof.
  destruct rest as [|part rest]; simpl; [done|].
  by destruct (list_find _ _) as [[k c]|].
Qed.

Lemma last_snoc {A} (l : list A) x d : List.last (l ++ [x]) d = x.
Proof. induction l as [|y l IH]; [done|]. simpl. rewrite IH. by destruct l. Qed.

Lemma insertPath_pathOk m : ∀ rest p n,
  allNodesAt pathOk p n → allNodesAt pathOk p (insertPath m p rest n).
Proof.
  induction rest as [|part rest IH]; intros p n [Hn Hcs]%allNodesAt_inv.
  - by constructor.
  - constructor.
    + intros Hp. rewrite path_insertPath, name_insertPath. by apply Hn.
    + simpl. destruct (list_find _ _) as [[k c]|] eqn:Hfind; simpl.
      * apply list_find_Some in Hfind as [Hk [Hname _]].
        apply Forall_lookup. intros i c'. rewrite list_lookup_alter.
        rewrite Forall_lookup in Hcs. case_decide as Hi; [|by eapply Hcs].
        subst i. rewrite Hk. intros [= <-]. rewrite name_insertPath.
        rewrite Hname. apply IH. rewrite <- Hname. by eapply Hcs.
      * apply Forall_app. split; [done|].
        constructor; [|constructor]. rewrite name_insertPath. simpl.
        apply IH. constructor; [|constructor].
        intros _. simpl. by rewrite last_snoc.
Qed.

Lemma buildRootData_pathOk ms : allNodesAt pathOk [] (buildRootData ms).
Proof.
  unfold buildRootData.
  assert (H : allNodesAt pathOk [] rootData) by (constructor; [done|constructor]).
  revert H. generalize rootData.
  induction ms as [|m ms IH]; intros root H; simpl; [done|].
  apply IH. by apply insertPath_pathOk.
Qed.

(** X12. In the treemap, a node that represents a module has the path of
    the module as its [path] and the short name of that path as its
    [name]. *)
Theorem module_node_path (ms : list NormalizedModule) :
  Forall
    (fun h => ∀ m, data (hdata h) = Some m →
                   path (hdata h) = nm_path m ∧
                   name (hdata h) = getShortModuleName (nm_path m))
    (descendants (treemapRoot ms)).
Proof.
  apply List.Forall_forall. intros h Hh m Hm. rewrite treemapRoot_view in Hh.
  apply descendants_view in Hh as [d [Hd ->]]. rewrite hdata_view in *.
  destruct (allNodesAt_nodes _ _ _ d
              (allNodesAt_and _ _ _ _ (buildRootData_nodeOk ms)
                 (buildRootData_pathOk ms)) Hd) as [q [[Hdata _] Hpath]].
  rewrite Hm in Hdata. destruct Hdata as [_ [Hq _]].
  destruct Hpath as [-> ->].
  - rewrite <- Hq. apply splitOn_nonempty.
  - rewrite <- Hq. unfold segments. by rewrite join_splitOn.
Qed.

(** ** The value of the root *)

Lemma sumZ_total_alter f k : ∀ cs c,
  cs !! k = Some c →
  sumZ (total <$> alter f k cs) = sumZ (total <$> cs) + (total (f c) - total c).
Proof.
  induction k as [|k IH]; intros [|c' cs] c Hk; try done.
  - injection Hk as ->. unfold sumZ. simpl. lia.
  - simpl in Hk. specialize (IH cs c Hk).
    change (alter f (S k) (c' :: cs)) with (c' :: alter f k cs).
    rewrite !fmap_cons. unfold sumZ in *. simpl. lia.
Qed.

Lemma total_insertPath ms m : ∀ rest p pa n,
  (∀ m', m' ∈ ms → segments m' ≠ segments m) →
  segments m = p ++ rest →
  allNodesAt (nodeOk ms) p n →
  total (insertPath m pa rest n) = total n + rawSize m.
Proof.
  induction rest as [|part rest IH]; intros p pa n Hnew Hseg [Hn Hcs]%allNodesAt_inv.
  - rewrite app_nil_r in Hseg. destruct Hn as [Hdata _].
    destruct n as [nm pth cs v ty dt]. simpl in *. destruct dt as [m'|].
    + destruct Hdata as [Hin [Hp _]]. exfalso. apply (Hnew m' Hin). congruence.
    + rewrite Hdata. unfold rawSize. simpl. lia.
  - rewrite !total_unfold. unfold ownValue.
    destruct (data_insertPath_cons m pa part rest n) as [_ ->]. simpl.
    destruct (list_find _ _) as [[k c]|] eqn:Hfind; simpl.
    + apply list_find_Some in Hfind as [Hk [Hname _]].
      rewrite (sumZ_total_alter _ k _ c Hk).
      rewrite (IH (p ++ [part])); [lia|done|by rewrite <- app_assoc|].
      rewrite Forall_lookup in Hcs. rewrite <- Hname. by eapply Hcs.
    + rewrite fmap_app, sumZ_app.
      assert (E : ∀ x, sumZ (total <$> [x]) = total x)
        by (intros x; unfold sumZ; simpl; lia).
      rewrite E, (IH (p ++ [part])); [|done|by rewrite <- app_assoc|].
      * unfold sumZ. simpl. lia.
      * constructor; [|constructor]. by split.
Qed.

Lemma segments_inj a b : segments a = segments b → nm_path a = nm_path b.
Proof.
  unfold segments. intros H.
  by rewrite <- (join_splitOn (nm_path a)), <- (join_splitOn (nm_path b)), H.
Qed.

Lemma total_fold_addModule ms : ∀ ms0 root,
  NoDup (nm_path <$> (ms0 ++ ms)) →
  allNodesAt (nodeOk ms0) [] root →
  total (fold_left addModule ms root) = total root + sumZ (rawSize <$> ms).
Proof.
  induction ms as [|m ms IH]; intros ms0 root Hnd Hroot; simpl.
  - unfold sumZ. simpl. lia.
  - replace (ms0 ++ m :: ms) with ((ms0 ++ [m]) ++ ms) in Hnd
      by (by rewrite <- app_assoc).
    rewrite (IH (ms0 ++ [m])); [|done|by apply addModule_nodeOk].
    unfold addModule. rewrite (total_insertPath ms0 m _ [] [] root); [| |done|done].
    + by rewrite <- Z.add_assoc.
    + intros m' Hm' Heq%segments_inj.
      rewrite fmap_app, fmap_app in Hnd.
      apply NoDup_app in Hnd as [Hnd _]. apply NoDup_app in Hnd as [_ [Hnd _]].
      apply (Hnd (nm_path m')); [by apply list_elem_of_fmap_2|].
      rewrite Heq. apply list_elem_of_here.
Qed.

(** X13. When the modules have pairwise different paths, the value of the
    root of the treemap is the sum of their raw sizes. *)
Theorem root_value_sum (ms : list NormalizedModule) :
  NoDup (nm_path <$> ms) →
  hvalue (treemapRoot ms) = Some (sumZ (rawSize <$> ms)).
Proof.
  intros Hnd. rewrite treemapRoot_view, hvalue_view. f_equal.
  unfold buildRootData.
  rewrite (total_fold_addModule ms [] rootData); [done|done|].
  constructor; [by split|constructor].
Qed.

Lemma root_value_sum_witness :
  NoDup (nm_path <$> modules mockBuildStats) ∧
  hvalue (treemapRoot (modules mockBuildStats))
  = Some (sumZ (rawSize <$> modules mockBuildStats)).
Proof.
  assert (H : NoDup (nm_path <$> modules mockBuildStats))
    by (apply (bool_decide_unpack _); vm_compute; reflexivity).
  split; [exact H|]. exact (root_value_sum (modules mockBuildStats) H).
Defined.

(** ** Drilling down *)

Lemma find_exists {A} (f : A → bool) l :
  (∃ x, In x l ∧ f x = true) → ∃ y, List.find f l = Some y ∧ In y l ∧ f y = true.
Proof.
  intros [x [Hx Hfx]]. destruct (List.find f l) as [y|] eqn:Hfind.
  - exists y. apply find_some in Hfind as [? ?]. by repeat split.
  - by rewrite (find_none _ _ Hfind x Hx) in Hfx.
Qed.

Lemma descendants_unfold h c :
  In h (descendants c) ↔
  h = c ∨ ∃ c', In c' (hchildren c) ∧ In h (descendants c').
Proof.
  destruct c as [d v cs]. simpl. rewrite in_flat_map.
  split; intros [H|H]; eauto.
Qed.

Lemma height_child c c' : In c' (hchildren c) → (height c' < height c)%nat.
Proof.
  destruct c as [d v cs]. simpl. intros Hc.
  induction cs as [|x cs IH]; [done|]. simpl.
  destruct Hc as [->|Hc]; [lia|]. specialize (IH Hc). lia.
Qed.

Lemma levels_In fuel : ∀ current,
  Forall (fun c => (height c <= fuel)%nat) current →
  ∀ h, In h (levels fuel current) ↔ ∃ c, In c current ∧ In h (descendants c).
Proof.
  induction fuel as [|fuel IH]; intros current Hheight h.
  - destruct current as [|c cs]; simpl.
    + split; [done|]. by intros [c [[] _]].
    + inversion Hheight as [|? ? Hc _]; subst. destruct c; simpl in Hc. lia.
  - destruct current as [|c0 cs]; [simpl; split; [done|]; by intros [c [[] _]]|].
    set (current := c0 :: cs) in *.
    change (levels (S fuel) current)
      with (current ++ levels fuel (flat_map hchildren current)).
    rewrite in_app_iff, IH.
    + split.
      * intros [Hin|[c' [Hc' Hh]]].
        -- exists h. split; [done|apply descendants_self].
        -- apply in_flat_map in Hc' as [c [Hc Hc']]. exists c. split; [done|].
           apply descendants_unfold. right. eauto.
      * intros [c [Hc Hh]]. apply descendants_unfold in Hh as [->|[c' [Hc' Hh]]].
        -- by left.
        -- right. exists c'. split; [|done]. apply in_flat_map. eauto.
    + apply List.Forall_forall. intros c' [c [Hc Hc']]%in_flat_map.
      rewrite List.Forall_forall in Hheight. specialize (Hheight c Hc).
      apply height_child in Hc'. lia.
Qed.

(** The nodes d3 iterates are the nodes of the tree. *)
Lemma descendantsInOrder_In root h :
  In h (descendantsInOrder root) ↔ In h (descendants root).
Proof.
  unfold descendantsInOrder. rewrite levels_In by (by repeat constructor).
  split.
  - by intros [c [[<-|[]] Hh]].
  - intros Hh. exists root. split; [by left|done].
Qed.

Lemma currentRootNode_facts (root : HierarchyNode) (currentPath : list string) :
  In (currentRootNode root currentPath) (descendants root) ∧
  (currentPath = [] → currentRootNode root currentPath = root) ∧
  ((∀ d, In d (descendants root) →
         path (hdata d) ≠ Str.join "/" currentPath) →
   currentRootNode root currentPath = root) ∧
  (currentPath ≠ [] →
   (∃ d, In d (descendants root) ∧ path (hdata d) = Str.join "/" currentPath) →
   path (hdata (currentRootNode root currentPath)) = Str.join "/" currentPath).
Proof.
  unfold currentRootNode. destruct currentPath as [|part rest].
  - repeat split; try done. apply descendants_self.
  - destruct (List.find _ _) as [h|] eqn:Hfind; simpl.
    + pose proof (find_some _ _ Hfind) as [Hin Hpath%String.eqb_eq].
      apply descendantsInOrder_In in Hin.
      repeat split; try done. intros Hnone. by destruct (Hnone h Hin).
    + repeat split; try done; [apply descendants_self|].
      intros _ [d [Hd Hpath]]. apply descendantsInOrder_In in Hd.
      pose proof (find_none _ _ Hfind d Hd) as Hne.
      apply String.eqb_neq in Hne. by destruct Hne.
Qed.

(** X14. Drilling down always ends at a node of the tree: at the root when
    the path is empty or no node has the joined path as its [path], and
    otherwise at a node that has it. *)
Theorem currentRootNode_spec (root : HierarchyNode) (currentPath : list string) :
  In (currentRootNode root currentPath) (descendants root) ∧
  (currentPath = [] → currentRootNode root currentPath = root) ∧
  ((∀ d, In d (descendants root) →
         path (hdata d) ≠ Str.join "/" currentPath) →
   currentRootNode root currentPath = root) ∧
  (currentPath ≠ [] →
   (∃ d, In d (descendants root) ∧ path (hdata d) = Str.join "/" currentPath) →
   path (hdata (currentRootNode root currentPath)) = Str.join "/" currentPath).
Proof. apply currentRootNode_facts. Qed.

Lemma leaves_unfold h :
  leaves h = match hchildren h with [] => [h] | _ => flat_map leaves (hchildren h) end.
Proof. destruct h as [d v [|c cs]]; reflexivity. Qed.

Lemma leaves_view : ∀ d l,
  In l (leaves (view d)) → ∃ e, l = view e ∧ children e = [].
Proof.
  induction d as [d IH] using TreemapNodeData_forall_ind. intros l.
  rewrite leaves_unfold, hchildren_view.
  destruct (jsSort byValueDesc (view <$> children d)) as [|c cs] eqn:Hcs.
  - intros [<-|[]]. exists d. split; [done|].
    apply hchildren_view_nil. by rewrite hchildren_view.
  - rewrite <- Hcs. intros Hl. apply in_flat_map in Hl as [c' [Hc' Hl]].
    apply list_elem_of_In in Hc'. rewrite jsSort_Permutation in Hc'.
    apply list_elem_of_fmap in Hc' as [e [-> He]].
    rewrite Forall_forall in IH. by apply (IH e He).
Qed.

(** X15. No cell that the treemap draws reacts to a click: the cells are
    the leaves of the current root, the click handler changes the path only
    on a node with children, and a leaf has none. *)
Theorem click_never_drills_down (ms : list NormalizedModule)
    (currentPath : list string) :
  Forall (fun cell => ∀ p, onCellClick cell p = p)
    (leaves (currentRootNode (treemapRoot ms) currentPath)).
Proof.
  destruct (currentRootNode_facts (treemapRoot ms) currentPath) as [Hin _].
  rewrite treemapRoot_view in *.
  apply descendants_view in Hin as [e [_ ->]].
  apply List.Forall_forall. intros cell [e' [-> He']]%leaves_view p.
  unfold onCellClick. by rewrite hdata_view, He'.
Qed.

(** ** Every module has its node *)

Lemma nodes_unfold d e :
  In e (nodes d) ↔ e = d ∨ ∃ c, In c (children d) ∧ In e (nodes c).
Proof.
  destruct d as [nm pth cs v ty dt]. simpl. rewrite in_flat_map.
  split; intros [H|H]; eauto.
Qed.

Lemma insertPath_keeps_paths m s : ∀ rest pa n,
  (∃ d, In d (nodes n) ∧ path d = s) →
  ∃ d, In d (nodes (insertPath m pa rest n)) ∧ path d = s.
Proof.
  induction rest as [|part rest IH]; intros pa n [d [Hd Hs]].
  - apply nodes_unfold in Hd as [->|Hd].
    + eexists. split; [apply nodes_self|done].
    + exists d. split; [|done]. apply nodes_unfold. by right.
  - apply nodes_unfold in Hd as [->|[c [Hc Hd]]].
    + eexists. split; [apply nodes_self|]. by rewrite path_insertPath.
    + simpl. destruct (list_find _ _) as [[k c0]|] eqn:Hfind.
      * apply list_elem_of_In, list_elem_of_lookup in Hc as [i Hi].
        destruct (decide (i = k)) as [->|Hne].
        -- destruct (IH (pa ++ [part]) c (ex_intro _ d (conj Hd Hs)))
             as [d' [Hd' Hs']].
           exists d'. split; [|done]. apply nodes_unfold. right.
           eexists. split; [|exact Hd']. simpl.
           apply list_elem_of_In, list_elem_of_lookup. exists k.
           by rewrite list_lookup_alter_eq, Hi.
        -- exists d. split; [|done]. apply nodes_unfold. right.
           exists c. split; [|done]. simpl.
           apply list_elem_of_In, list_elem_of_lookup. exists i.
           by rewrite list_lookup_alter_ne.
      * exists d. split; [|done]. apply nodes_unfold. right.
        exists c. split; [|done]. simpl. apply in_or_app. by left.
Qed.

Lemma insertPath_creates m : ∀ rest p n,
  allNodesAt pathOk p n → p ++ rest ≠ [] →
  ∃ d, In d (nodes (insertPath m p rest n)) ∧ path d = Str.join "/" (p ++ rest).
Proof.
  induction rest as [|part rest IH]; intros p n [Hn Hcs]%allNodesAt_inv Hne.
  - rewrite app_nil_r in *. eexists. split; [apply nodes_self|].
    simpl. by apply Hn.
  - assert (Hp : (p ++ [part]) ++ rest ≠ []) by (by destruct p).
    replace (p ++ part :: rest) with ((p ++ [part]) ++ rest)
      by (by rewrite <- app_assoc).
    simpl. destruct (list_find _ _) as [[k c]|] eqn:Hfind.
    + apply list_find_Some in Hfind as [Hk [Hname _]].
      rewrite Forall_lookup in Hcs. pose proof (Hcs k c Hk) as Hc.
      rewrite Hname in Hc.
      destruct (IH (p ++ [part]) c Hc Hp) as [d [Hd Hpath]].
      exists d. split; [|done]. apply nodes_unfold. right.
      eexists. split; [|exact Hd]. simpl.
      apply list_elem_of_In, list_elem_of_lookup. exists k.
      by rewrite list_lookup_alter_eq, Hk.
    + edestruct (IH (p ++ [part])) as [d [Hd Hpath]]; [|exact Hp|].
      2:{ exists d. split; [|exact Hpath]. apply nodes_unfold. right.
          eexists. split; [|exact Hd]. simpl. apply in_or_app. right. by left. }
      constructor; [|constructor]. intros _. simpl. by rewrite last_snoc.
Qed.

Lemma fold_addModule_keeps_paths s ms : ∀ root,
  (∃ d, In d (nodes root) ∧ path d = s) →
  ∃ d, In d (nodes (fold_left addModule ms root)) ∧ path d = s.
Proof.
  induction ms as [|m ms IH]; intros root H; [done|].
  simpl. apply IH. by apply insertPath_keeps_paths.
Qed.

Lemma fold_addModule_has_node ms m : ∀ root,
  allNodesAt pathOk [] root → m ∈ ms →
  ∃ d, In d (nodes (fold_left addModule ms root)) ∧ path d = nm_path m.
Proof.
  induction ms as [|m0 ms IH]; intros root Hroot Hm; [by apply elem_of_nil in Hm|].
  simpl. apply elem_of_cons in Hm as [->|Hm].
  - apply fold_addModule_keeps_paths. unfold addModule.
    destruct (insertPath_creates m0 (Str.splitOn slash (nm_path m0)) [] root Hroot)
      as [d [Hd Hpath]]; [apply splitOn_nonempty|].
    exists d. split; [done|]. rewrite app_nil_l in Hpath.
    by rewrite Hpath, join_splitOn.
  - apply IH; [|done]. by apply insertPath_pathOk.
Qed.

Lemma view_descendants : ∀ d e, In e (nodes d) → In (view e) (descendants (view d)).
Proof.
  induction d as [d IH] using TreemapNodeData_forall_ind. intros e He.
  apply nodes_unfold in He as [->|[c [Hc He]]]; [apply descendants_self|].
  rewrite (view_unfold d). simpl. right. apply in_flat_map.
  exists (view c). split.
  - apply list_elem_of_In. rewrite jsSort_Permutation.
    apply list_elem_of_fmap_2. by apply list_elem_of_In.
  - rewrite Forall_forall in IH. apply IH; [by apply list_elem_of_In|done].
Qed.

(** X16. Drilling down to the path of a module ends at a node that has
    this path: every module of the list has its node in the tree, also
    under modules that are added after it. *)
Theorem drill_down_to_module (ms : list NormalizedModule) (m : NormalizedModule) :
  m ∈ ms →
  path (hdata (currentRootNode (treemapRoot ms) (segments m))) = nm_path m.
Proof.
  intros Hm.
  destruct (fold_addModule_has_node ms m rootData) as [d [Hd Hpath]]; [|done|].
  { constructor; [done|constructor]. }
  destruct (currentRootNode_facts (treemapRoot ms) (segments m)) as [_ [_ [_ H]]].
  unfold segments in *. rewrite join_splitOn in H. apply H.
  - apply splitOn_nonempty.
  - exists (view d). rewrite hdata_view. split; [|done].
    rewrite treemapRoot_view. by apply view_descendants.
Qed.

Lemma drill_down_to_module_witness :
  pathModule "1" "a/b" 1 ∈ nestedModules ∧
  path (hdata (currentRootNode (treemapRoot nestedModules)
                 (segments (pathModule "1" "a/b" 1))))
  = nm_path (pathModule "1" "a/b" 1).
Proof.
  assert (H : pathModule "1" "a/b" 1 ∈ nestedModules) by apply list_elem_of_here.
  split; [exact H|]. exact (drill_down_to_module nestedModules _ H).
Defined.

(** ** More about the normalizer *)

Lemma fold_jsAdd_None (xs : list number) : fold_left jsAdd xs None = None.
Proof. induction xs as [|x xs IH]; [done|]. simpl. exact IH. Qed.

Lemma fold_jsAdd_missing (xs : list number) : ∀ x,
  None ∈ xs → fold_left jsAdd xs x = None.
Proof.
  induction xs as [|y xs IH]; intros x Hin; [by apply elem_of_nil in Hin|].
  simpl. apply elem_of_cons in Hin as [<-|Hin]; [|by apply IH].
  destruct x; apply fold_jsAdd_None.
Qed.

Lemma asset_sizes ws nas :
  Forall2 (fun a na => createAsset a = Ok na) ws nas →
  wa_size <$> ws = (fun na => raw (na_size na)) <$> nas.
Proof.
  induction 1 as [|a na ws nas Hc _ IH]; [done|].
  rewrite !fmap_cons, IH. by rewrite (createAsset_size a na Hc).
Qed.

(** X17. The total raw size is the sum of the raw sizes of the assets when
    every asset has a size; as soon as one asset has none, the total raw
    size is not a number. *)
Theorem totalSize_raw (now : Z) (stats : WebpackStats)
    (bs : NormalizedBuildStats) :
  normalizeWebpackStats now stats = Ok bs →
  (Forall (fun a => is_Some (raw (na_size a))) (assets bs) →
   raw (totalSize bs)
   = Some (sumZ ((fun a => orZero (raw (na_size a))) <$> assets bs))) ∧
  (Exists (fun a => raw (na_size a) = None) (assets bs) →
   raw (totalSize bs) = None).
Proof.
  intros H. apply normalize_Ok_inv in H as [st [acc [_ [Hacc [_ [-> [-> _]]]]]]].
  apply assets_Ok in Hacc as [nas [HF [Hl [_ Hr]]]]. simpl in Hl, Hr.
  rewrite Hl. simpl. rewrite Hr, (asset_sizes _ _ HF). clear. split.
  - intros Hall.
    assert ((fun na => raw (na_size na)) <$> nas
            = Some <$> ((fun a => orZero (raw (na_size a))) <$> nas)) as ->.
    { rewrite <- list_fmap_compose. apply list_fmap_ext.
      intros i a Ha. rewrite Forall_lookup in Hall.
      destruct (Hall i a Ha) as [r Hr]. simpl. by rewrite Hr. }
    by rewrite fold_jsAdd_Some.
  - intros [a [Ha Hnone]]%Exists_exists. apply fold_jsAdd_missing.
    apply list_elem_of_fmap. by exists a.
Qed.

Lemma totalSize_raw_witness :
  normalizeWebpackStats 0 mockWebpackStats = Ok mockBuildStats ∧
  raw (totalSize mockBuildStats)
  = Some (sumZ ((fun a => orZero (raw (na_size a))) <$> assets mockBuildStats)).
Proof.
  assert (H : normalizeWebpackStats 0 mockWebpackStats = Ok mockBuildStats)
    by (vm_compute; reflexivity).
  split; [exact H|].
  apply (proj1 (totalSize_raw 0 mockWebpackStats mockBuildStats H)).
  repeat constructor; by eexists.
Defined.

Lemma length_omap_le {A B} (f : A → option B) l : (length (omap f l) <= length l)%nat.
Proof.
  induction l as [|x l IH]; [done|].
  change (omap f (x :: l))
    with (match f x with Some y => y :: omap f l | None => omap f l end).
  destruct (f x); simpl; lia.
Qed.

(** X18. There are at most as many entrypoints as chunks, and every
    entrypoint is a non-empty id of a normalized module: the first of the
    module ids of some chunk that is the id of a module. *)
Theorem entrypoints_resolve (now : Z) (stats : WebpackStats)
    (bs : NormalizedBuildStats) :
  normalizeWebpackStats now stats = Ok bs →
  (length (entrypoints bs) <= length (chunks bs))%nat ∧
  Forall
    (fun e =>
       e ≠ "" ∧ e ∈ nm_id <$> modules bs ∧
       ∃ c, c ∈ chunks bs ∧
            List.find (fun id => bool_decide (id ∈ nm_id <$> modules bs))
              (nc_modules c) = Some e)
    (entrypoints bs).
Proof.
  intros H.
  apply normalize_Ok_inv in H as [st [acc [Hst [_ [-> [_ [_ [-> ->]]]]]]]].
  apply processModules_resolved in Hst as [Hidx _].
  unfold determineEntrypoints. split; [apply length_omap_le|].
  apply Forall_forall. intros e [c [Hc He]]%list_elem_of_omap.
  unfold chunkEntrypoint in He.
  destruct (_ && _); [|done].
  rewrite (find_ext _ (fun id => bool_decide (id ∈ nm_id <$> normalizedModules st)))
    in He by (intros x; apply bool_decide_ext; symmetry; by apply indexed_keys).
  destruct (List.find _ _) as [x|] eqn:Hfind; [|done].
  unfold Str.truthy in He. destruct (String.eqb_spec x "") as [|Hne]; [done|].
  injection He as <-. split; [done|].
  apply find_some in Hfind as Hfound. destruct Hfound as [_ Hx%bool_decide_eq_true].
  split; [done|]. by exists c.
Qed.

Lemma entrypoints_resolve_witness :
  normalizeWebpackStats 0 mockWebpackStats = Ok mockBuildStats ∧
  (length (entrypoints mockBuildStats) <= length (chunks mockBuildStats))%nat.
Proof.
  assert (H : normalizeWebpackStats 0 mockWebpackStats = Ok mockBuildStats)
    by (vm_compute; reflexivity).
  split; [exact H|].
  exact (proj1 (entrypoints_resolve 0 mockWebpackStats mockBuildStats H)).
Defined.

Lemma lastSegmentOr_short name :
  (lastSegmentOr name = getShortModuleName name ∨
   (getShortModuleName name = "" ∧ lastSegmentOr name = name)) ∧
  getShortModuleName (lastSegmentOr name) = getShortModuleName name.
Proof.
  unfold lastSegmentOr. fold (getShortModuleName name). unfold Str.truthy.
  destruct (String.eqb_spec (getShortModuleName name) "") as [He|Hne]; simpl.
  - split; [by right|done].
  - split; [by left|]. destruct (getShortModuleName_facts name) as [Hfree _].
    unfold getShortModuleName at 1. by rewrite splitOn_slashFree_id.
Qed.

(** X19. The display name of a normalized module is the short name of its
    path, or the whole path when that short name is empty (a path that is
    empty or ends with a slash); the label the graph draws for it, the
    short name of the display name, is the short name of the path. *)
Theorem module_display_name (now : Z) (stats : WebpackStats)
    (bs : NormalizedBuildStats) :
  normalizeWebpackStats now stats = Ok bs →
  Forall
    (fun m =>
       (nm_name m = getShortModuleName (nm_path m) ∨
        (getShortModuleName (nm_path m) = "" ∧ nm_name m = nm_path m)) ∧
       getShortModuleName (nm_name m) = getShortModuleName (nm_path m))
    (modules bs).
Proof.
  intros H. apply normalize_Ok_inv in H as [st [acc [Hst [_ [-> _]]]]].
  apply processModules_resolved in Hst as [_ [_ HF]].
  apply Forall_lookup. intros i m Hi.
  destruct (Forall2_lookup_r _ _ _ _ _ HF Hi) as [rm [_ Hn]].
  destruct Hn as [name [_ [_ [-> [-> _]]]]]. apply lastSegmentOr_short.
Qed.

Lemma module_display_name_witness :
  normalizeWebpackStats 0 mockWebpackStats = Ok mockBuildStats ∧
  Forall
    (fun m =>
       (nm_name m = getShortModuleName (nm_path m) ∨
        (getShortModuleName (nm_path m) = "" ∧ nm_name m = nm_path m)) ∧
       getShortModuleName (nm_name m) = getShortModuleName (nm_path m))
    (modules mockBuildStats).
Proof.
  assert (H : normalizeWebpackStats 0 mockWebpackStats = Ok mockBuildStats)
    by (vm_compute; reflexivity).
  split; [exact H|]. exact (module_display_name 0 mockWebpackStats mockBuildStats H).
Defined.

(** ** The edges the resolution pass records *)

Lemma creation_resolved ms st :
  forEachM creationStep ms emptyStore = Ok st →
  resolved ms st ∧
  Forall (fun nm => nm_dependencies nm = [] ∧ nm_dependents nm = [])
    (normalizedModules st).
Proof.
  intros H. destruct (creation_Ok ms _ _ H) as [nms [HF Hl]]. simpl in Hl.
  assert (Hfresh : Forall (fun nm => nm_dependencies nm = [] ∧ nm_dependents nm = [])
                     (normalizedModules st)).
  { rewrite Hl. clear -HF.
    induction HF as [|m nm ms nms Hc _ IH]; constructor; [|done].
    by eapply createModule_fresh. }
  split; [|done].
  split; [by apply (creation_indexed ms _ _ H), indexed_empty|].
  split; [by apply linked_fresh|].
  rewrite Hl. eapply Forall2_impl; [exact HF|]. apply createModule_normalizedFrom.
Qed.

Lemma processModules_Ok_inv oms st :
  processModules oms = Ok st →
  ∃ st1, resolved (default [] oms) st1 ∧
         Forall (fun nm => nm_dependencies nm = [] ∧ nm_dependents nm = [])
           (normalizedModules st1) ∧
         st = fold_left resolutionStep (default [] oms) st1.
Proof.
  destruct oms as [ms|]; simpl.
  - intros H. apply bind_Ok_inv in H as [st1 [H1 H2]]. injection H2 as <-.
    exists st1. destruct (creation_resolved ms st1 H1) as [Hr Hf].
    split; [exact Hr|]. split; [exact Hf|reflexivity].
  - intros [= <-]. exists emptyStore.
    split; [apply resolved_empty|]. split; [constructor|done].
Qed.

Lemma linkReason_length src i st r :
  length (normalizedModules (linkReason src i st r))
  = length (normalizedModules st).
Proof.
  unfold linkReason. destruct (moduleMap st !! _); [|done].
  case_decide; [|done]. simpl. by rewrite !length_alter.
Qed.

Lemma eqb_decide (a b : string) :
  negb (String.eqb a b) = bool_decide (a ≠ b).
Proof.
  destruct (String.eqb_spec a b).
  - by rewrite bool_decide_eq_false_2 by (intros ?; done).
  - by rewrite bool_decide_eq_true_2.
Qed.

Lemma linkReason_depsAt src i st r k :
  is_Some (normalizedModules st !! i) →
  depsAt (linkReason src i st r) k
  = depsAt st k ++
    (if decide (k = i)
     then List.filter (resolvableFrom (moduleMap st) src) [moduleIdentifier r]
     else []).
Proof.
  intros Hi. unfold linkReason, resolvableFrom. simpl. rewrite eqb_decide.
  destruct (moduleMap st !! moduleIdentifier r) as [j|] eqn:Hj.
  - rewrite (bool_decide_eq_true_2 (is_Some (Some j))) by by eexists.
    simpl. case_decide as Hne.
    + rewrite bool_decide_eq_true_2 by done.
      unfold depsAt. simpl. rewrite lookup_two_alters.
      destruct (normalizedModules st !! k) as [nm|] eqn:Hk; simpl.
      * by rewrite linkAt_dependencies.
      * case_decide; [subst k; rewrite Hk in Hi; by destruct Hi|done].
    + rewrite bool_decide_eq_false_2 by (intros Hc; by apply Hc).
      by case_decide; rewrite app_nil_r.
  - rewrite (bool_decide_eq_false_2 (is_Some None)) by (by intros [? ?]).
    by case_decide; rewrite app_nil_r.
Qed.

Lemma reasons_depsAt src i k rs : ∀ st,
  is_Some (normalizedModules st !! i) →
  depsAt (fold_left (linkReason src i) rs st) k
  = depsAt st k ++
    (if decide (k = i)
     then List.filter (resolvableFrom (moduleMap st) src) (moduleIdentifier <$> rs)
     else []).
Proof.
  induction rs as [|r rs IH]; intros st Hi; simpl.
  - by case_decide; rewrite app_nil_r.
  - rewrite IH, linkReason_depsAt, linkReason_moduleMap by
      (try done; apply lookup_lt_is_Some; rewrite linkReason_length;
       by apply lookup_lt_is_Some).
    rewrite <- app_assoc. f_equal. case_decide; [|done]. simpl.
    by destruct (resolvableFrom _ _ _).
Qed.

Lemma resolutionStep_depsAt raws st m k :
  resolved raws st →
  depsAt (resolutionStep st m) k
  = depsAt st k ++
    (if decide (moduleMap st !! String_ (wm_id m) = Some k)
     then List.filter (resolvableFrom (moduleMap st) (String_ (wm_id m)))
            (reasonIds m)
     else []).
Proof.
  intros [[I1 _] _]. unfold resolutionStep, reasonIds.
  destruct (moduleMap st !! String_ (wm_id m)) as [i|] eqn:Hi.
  - destruct (wm_reasons m) as [rs|]; simpl.
    + destruct (I1 _ _ Hi) as [nm [Hnm _]].
      rewrite reasons_depsAt by by eexists.
      f_equal. by repeat case_decide; simplify_eq.
    + by case_decide; rewrite app_nil_r.
  - by rewrite decide_False, app_nil_r by done.
Qed.

Lemma resolution_depsAt raws k ms : ∀ st,
  resolved raws st →
  depsAt (fold_left resolutionStep ms st) k
  = depsAt st k ++
    flat_map
      (fun m =>
         if decide (moduleMap st !! String_ (wm_id m) = Some k)
         then List.filter (resolvableFrom (moduleMap st) (String_ (wm_id m)))
                (reasonIds m)
         else [])
      ms.
Proof.
  induction ms as [|m ms IH]; intros st Hst; simpl; [by rewrite app_nil_r|].
  destruct (resolutionStep_resolved raws st m Hst) as [Hst' Hmap].
  rewrite IH, Hmap, (resolutionStep_depsAt raws) by done.
  by rewrite <- app_assoc.
Qed.

Lemma flat_map_single {A B} (P : A → Prop) `{∀ x, Decision (P x)}
    (h : A → list B) : ∀ (l : list A) (k : nat) (x : A),
  l !! k = Some x →
  (∀ j y, l !! j = Some y → P y ↔ j = k) →
  flat_map (fun y => if decide (P y) then h y else []) l = h x.
Proof.
  induction l as [|y l IH]; intros k x Hk HP; [done|]. simpl.
  destruct k as [|k].
  - injection Hk as ->. rewrite decide_True by (by apply (HP 0%nat x)).
    assert (flat_map (fun y => if decide (P y) then h y else []) l = []) as ->.
    { clear IH. assert (Hl : ∀ j y, l !! j = Some y → ¬ P y).
      { intros j y Hj Hy. by apply (HP (S j) y Hj) in Hy. }
      clear HP. induction l as [|z l IHl]; [done|]. simpl.
      rewrite decide_False by (by apply (Hl 0%nat)).
      apply IHl. intros j y' Hj. by apply (Hl (S j)). }
    by rewrite app_nil_r.
  - rewrite decide_False.
    + apply (IH k); [done|]. intros j y' Hj.
      rewrite (HP (S j) y' Hj). split; [by intros [= ->]|by intros ->].
    + intros Hy. by apply (HP 0%nat y) in Hy.
Qed.

(** With pairwise different ids, the index maps the id of the record at
    position [j] to [j]. *)
Lemma resolved_position raws st j m :
  resolved raws st →
  NoDup (nm_id <$> normalizedModules st) →
  raws !! j = Some m →
  moduleMap st !! String_ (wm_id m) = Some j.
Proof.
  intros [[I1 I2] [_ HF]] Hnd Hj.
  destruct (Forall2_lookup_l _ _ _ _ _ HF Hj) as [nm [Hnm Hfrom]].
  destruct Hfrom as [name [_ [Hid _]]].
  destruct (I2 j nm Hnm) as [i Hi]. rewrite Hid in Hi.
  destruct (I1 _ _ Hi) as [nm' [Hnm' Hid']].
  assert (i = j) as ->; [|done].
  eapply (NoDup_lookup _ _ _ (String_ (wm_id m)) Hnd);
    rewrite list_lookup_fmap; [rewrite Hnm'|rewrite Hnm]; simpl; congruence.
Qed.

Lemma normalizedFrom_ids raws l :
  Forall2 normalizedFrom raws l →
  nm_id <$> l = (fun m => String_ (wm_id m)) <$> raws.
Proof.
  induction 1 as [|m nm ms' l' [name [_ [Hid _]]] _ IH]; [done|].
  by rewrite !fmap_cons, IH, Hid.
Qed.

Lemma fresh_depsAt st k :
  Forall (fun nm => nm_dependencies nm = [] ∧ nm_dependents nm = [])
    (normalizedModules st) →
  depsAt st k = [] ∧ dptsAt st k = [].
Proof.
  intros HF. unfold depsAt, dptsAt.
  destruct (normalizedModules st !! k) as [nm|] eqn:Hk; [|done].
  rewrite Forall_lookup in HF. by destruct (HF k nm Hk) as [-> ->].
Qed.

(** X20. When the ids are pairwise different, the dependencies of a module
    are exactly the identifiers its raw record names as reasons that are
    ids of modules of the input other than its own, in the order of the
    reasons and as often as they are named. *)
Theorem dependencies_exact (now : Z) (stats : WebpackStats)
    (bs : NormalizedBuildStats) :
  normalizeWebpackStats now stats = Ok bs →
  NoDup (nm_id <$> modules bs) →
  Forall2
    (fun rm nm =>
       nm_dependencies nm
       = List.filter
           (fun t => bool_decide (t ∈ nm_id <$> modules bs)
                     && negb (String.eqb (nm_id nm) t))
           (reasonIds rm))
    (default [] (ws_modules stats)) (modules bs).
Proof.
  intros H. apply normalize_Ok_inv in H as [st [acc [Hst [_ [-> _]]]]].
  apply processModules_Ok_inv in Hst as [st1 [Hst1 [Hfresh ->]]].
  intros Hnd. set (raws := default [] (ws_modules stats)) in *.
  destruct (resolution_resolved raws raws st1 Hst1) as [Hres Hmap].
  pose proof (normalizedFrom_ids raws _ (proj2 (proj2 Hst1))) as Hids1.
  pose proof (normalizedFrom_ids raws _ (proj2 (proj2 Hres))) as Hids.
  rewrite Hids in Hnd. rewrite Hids.
  apply Forall2_same_length_lookup.
  split; [by apply (Forall2_length _ _ _ (proj2 (proj2 Hres)))|].
  intros i rm nm Hrm Hnm.
  assert (nm_dependencies nm = depsAt (fold_left resolutionStep raws st1) i) as ->
    by (unfold depsAt; by rewrite Hnm).
  rewrite (resolution_depsAt raws) by done.
  rewrite (proj1 (fresh_depsAt st1 i Hfresh)). simpl.
  rewrite (flat_map_single
             (fun m => moduleMap st1 !! String_ (wm_id m) = Some i) _ raws i rm Hrm).
  - apply filter_ext. intros t. unfold resolvableFrom. f_equal.
    + apply bool_decide_ext. rewrite <- Hids1. symmetry.
      apply indexed_keys, Hst1.
    + destruct (Forall2_lookup_r _ _ _ _ _ (proj2 (proj2 Hres)) Hnm)
        as [rm' [Hrm' [name [_ [Hid _]]]]].
      by rewrite Hid, (Some_inj _ _ (eq_trans (eq_sym Hrm) Hrm')).
  - intros j y Hj.
    rewrite (resolved_position raws st1 j y Hst1) by (by rewrite ?Hids1).
    split; [by intros [= ->]|by intros ->].
Qed.

Lemma dependencies_exact_witness :
  normalizeWebpackStats 0 mockWebpackStats = Ok mockBuildStats ∧
  NoDup (nm_id <$> modules mockBuildStats) ∧
  Forall2
    (fun rm nm =>
       nm_dependencies nm
       = List.filter
           (fun t => bool_decide (t ∈ nm_id <$> modules mockBuildStats)
                     && negb (String.eqb (nm_id nm) t))
           (reasonIds rm))
    (default [] (ws_modules mockWebpackStats)) (modules mockBuildStats).
Proof.
  assert (H : normalizeWebpackStats 0 mockWebpackStats = Ok mockBuildStats)
    by (vm_compute; reflexivity).
  assert (Hnd : NoDup (nm_id <$> modules mockBuildStats))
    by (apply (bool_decide_unpack _); vm_compute; reflexivity).
  split; [exact H|]. split; [exact Hnd|].
  exact (dependencies_exact 0 mockWebpackStats mockBuildStats H Hnd).
Defined.

Lemma linkReason_dptsAt src i st r k :
  indexed st →
  dptsAt (linkReason src i st r) k
  = dptsAt st k ++ dependentEntry (moduleMap st) src k (moduleIdentifier r).
Proof.
  intros [I1 _]. unfold linkReason, dependentEntry. rewrite eqb_decide.
  destruct (moduleMap st !! moduleIdentifier r) as [j|] eqn:Hj.
  - case_decide as Hne.
    + rewrite (bool_decide_eq_true_2 (src ≠ _)) by done. rewrite andb_true_r.
      unfold dptsAt. simpl. rewrite lookup_two_alters.
      destruct (normalizedModules st !! k) as [nm|] eqn:Hk; simpl.
      * rewrite linkAt_dependents. f_equal.
        case_decide as Hkj; [subst k; by rewrite bool_decide_eq_true_2|].
        rewrite bool_decide_eq_false_2; [done|]. by intros [= ->].
      * rewrite bool_decide_eq_false_2; [done|]. intros [= ->].
        destruct (I1 _ _ Hj) as [nm [Hnm _]]. congruence.
    + rewrite (bool_decide_eq_false_2 (src ≠ _)) by (intros Hc; by apply Hc).
      by rewrite andb_false_r, app_nil_r.
  - rewrite (bool_decide_eq_false_2 (None = Some k)) by done.
    by rewrite app_nil_r.
Qed.

Lemma reasons_dptsAt src i k rs : ∀ st,
  indexed st →
  dptsAt (fold_left (linkReason src i) rs st) k
  = dptsAt st k
    ++ flat_map (dependentEntry (moduleMap st) src k) (moduleIdentifier <$> rs).
Proof.
  induction rs as [|r rs IH]; intros st Hst; simpl; [by rewrite app_nil_r|].
  rewrite IH, linkReason_dptsAt, linkReason_moduleMap
    by (try done; by apply linkReason_indexed).
  by rewrite <- app_assoc.
Qed.

Lemma resolutionStep_dptsAt raws st m k :
  resolved raws st →
  dptsAt (resolutionStep st m) k
  = dptsAt st k ++
    (if bool_decide (is_Some (moduleMap st !! String_ (wm_id m)))
     then flat_map (dependentEntry (moduleMap st) (String_ (wm_id m)) k)
            (reasonIds m)
     else []).
Proof.
  intros [Hidx _]. unfold resolutionStep, reasonIds.
  destruct (moduleMap st !! String_ (wm_id m)) as [i|] eqn:Hi.
  - rewrite bool_decide_eq_true_2 by by eexists.
    destruct (wm_reasons m) as [rs|]; simpl; [|by rewrite app_nil_r].
    by apply reasons_dptsAt.
  - rewrite bool_decide_eq_false_2 by (by intros [? ?]). by rewrite app_nil_r.
Qed.

Lemma resolution_dptsAt raws k ms : ∀ st,
  resolved raws st →
  dptsAt (fold_left resolutionStep ms st) k
  = dptsAt st k ++
    flat_map
      (fun m =>
         if bool_decide (is_Some (moduleMap st !! String_ (wm_id m)))
         then flat_map (dependentEntry (moduleMap st) (String_ (wm_id m)) k)
                (reasonIds m)
         else [])
      ms.
Proof.
  induction ms as [|m ms IH]; intros st Hst; simpl; [by rewrite app_nil_r|].
  destruct (resolutionStep_resolved raws st m Hst) as [Hst' Hmap].
  rewrite IH, Hmap, (resolutionStep_dptsAt raws) by done.
  by rewrite <- app_assoc.
Qed.

(** X21. When the ids are pairwise different, the dependents of a module
    are exactly the ids of the raw records that name it as a reason, other
    than itself, in the order of the records and once for every such
    reason. *)
Theorem dependents_exact (now : Z) (stats : WebpackStats)
    (bs : NormalizedBuildStats) :
  normalizeWebpackStats now stats = Ok bs →
  NoDup (nm_id <$> modules bs) →
  Forall
    (fun nm =>
       nm_dependents nm
       = flat_map
           (fun rm =>
              flat_map
                (fun t =>
                   if String.eqb t (nm_id nm)
                      && negb (String.eqb (String_ (wm_id rm)) t)
                   then [String_ (wm_id rm)] else [])
                (reasonIds rm))
           (default [] (ws_modules stats)))
    (modules bs).
Proof.
  intros H. apply normalize_Ok_inv in H as [st [acc [Hst [_ [-> _]]]]].
  apply processModules_Ok_inv in Hst as [st1 [Hst1 [Hfresh ->]]].
  intros Hnd. set (raws := default [] (ws_modules stats)) in *.
  destruct (resolution_resolved raws raws st1 Hst1) as [Hres Hmap].
  pose proof (normalizedFrom_ids raws _ (proj2 (proj2 Hst1))) as Hids1.
  pose proof (normalizedFrom_ids raws _ (proj2 (proj2 Hres))) as Hids.
  rewrite Hids in Hnd.
  apply Forall_lookup. intros k nm Hnm.
  assert (nm_dependents nm = dptsAt (fold_left resolutionStep raws st1) k) as ->
    by (unfold dptsAt; by rewrite Hnm).
  rewrite (resolution_dptsAt raws) by done.
  rewrite (proj2 (fresh_depsAt st1 k Hfresh)). simpl.
  destruct (Forall2_lookup_r _ _ _ _ _ (proj2 (proj2 Hres)) Hnm)
    as [rk [Hrk [name [_ [Hid _]]]]].
  pose proof (resolved_position raws st1 k rk Hst1) as Hpos.
  rewrite Hids1 in Hpos. specialize (Hpos Hnd Hrk). rewrite <- Hid in Hpos.
  apply flat_map_ext_elem. intros rm Hrm.
  apply list_elem_of_In, list_elem_of_lookup in Hrm as [j Hj].
  pose proof (resolved_position raws st1 j rm Hst1) as Hposj.
  rewrite Hids1 in Hposj. specialize (Hposj Hnd Hj).
  rewrite bool_decide_eq_true_2 by by eexists.
  apply flat_map_ext. intros t. unfold dependentEntry. f_equal. f_equal.
  destruct (String.eqb_spec t (nm_id nm)) as [->|Hne].
  - by rewrite bool_decide_eq_true_2.
  - rewrite bool_decide_eq_false_2; [done|]. intros Ht.
    destruct (proj1 (proj1 Hst1) _ _ Ht) as [nm1 [Hnm1 Hid1]].
    destruct (proj1 (proj1 Hst1) _ _ Hpos) as [nm2 [Hnm2 Hid2]].
    congruence.
Qed.

Lemma dependents_exact_witness :
  normalizeWebpackStats 0 mockWebpackStats = Ok mockBuildStats ∧
  NoDup (nm_id <$> modules mockBuildStats) ∧
  Forall
    (fun nm =>
       nm_dependents nm
       = flat_map
           (fun rm =>
              flat_map
                (fun t =>
                   if String.eqb t (nm_id nm)
                      && negb (String.eqb (String_ (wm_id rm)) t)
                   then [String_ (wm_id rm)] else [])
                (reasonIds rm))
           (default [] (ws_modules mockWebpackStats)))
    (modules mockBuildStats).
Proof.
  assert (H : normalizeWebpackStats 0 mockWebpackStats = Ok mockBuildStats)
    by (vm_compute; reflexivity).
  assert (Hnd : NoDup (nm_id <$> modules mockBuildStats))
    by (apply (bool_decide_unpack _); vm_compute; reflexivity).
  split; [exact H|]. split; [exact Hnd|].
  exact (dependents_exact 0 mockWebpackStats mockBuildStats H Hnd).
Defined.

(** ** The number of recorded edges *)

Lemma sum_list_with_alter {A} (f : A → nat) g k : ∀ l x,
  l !! k = Some x →
  (sum_list_with f (alter g k l) + f x = sum_list_with f l + f (g x))%nat.
Proof.
  induction k as [|k IH]; intros [|y l] x Hk; try done.
  - injection Hk as ->. simpl. lia.
  - simpl in Hk. specialize (IH l x Hk).
    change (alter g (S k) (y :: l)) with (y :: alter g k l). simpl. lia.
Qed.

Lemma linkReason_counts src i st r :
  indexed st → moduleMap st !! src = Some i →
  (dependencyCount (normalizedModules (linkReason src i st r))
   + dependentCount (normalizedModules st)
   = dependencyCount (normalizedModules st)
     + dependentCount (normalizedModules (linkReason src i st r)))%nat.
Proof.
  intros [I1 _] Hi. unfold linkReason.
  destruct (moduleMap st !! moduleIdentifier r) as [j|] eqn:Hj; [|lia].
  case_decide; [|lia]. simpl.
  destruct (I1 _ _ Hi) as [ns [Hns _]]. destruct (I1 _ _ Hj) as [nt [Hnt _]].
  set (l := normalizedModules st) in *.
  set (l1 := alter (pushDependency (moduleIdentifier r)) i l).
  assert (is_Some (l1 !! j)) as [x1 Hx1].
  { apply lookup_lt_is_Some. unfold l1. rewrite length_alter.
    by apply lookup_lt_is_Some. }
  unfold dependencyCount, dependentCount.
  pose proof (sum_list_with_alter (fun m => length (nm_dependencies m))
                (pushDependent src) j l1 x1 Hx1) as E1.
  pose proof (sum_list_with_alter (fun m => length (nm_dependents m))
                (pushDependent src) j l1 x1 Hx1) as E2.
  pose proof (sum_list_with_alter (fun m => length (nm_dependencies m))
                (pushDependency (moduleIdentifier r)) i l ns Hns) as E3.
  pose proof (sum_list_with_alter (fun m => length (nm_dependents m))
                (pushDependency (moduleIdentifier r)) i l ns Hns) as E4.
  fold l1 in E3, E4. simpl in E1, E2, E3, E4.
  rewrite length_app in E2, E3. simpl in E2, E3. lia.
Qed.

Lemma resolution_counts raws ms : ∀ st,
  resolved raws st →
  dependencyCount (normalizedModules st) = dependentCount (normalizedModules st) →
  dependencyCount (normalizedModules (fold_left resolutionStep ms st))
  = dependentCount (normalizedModules (fold_left resolutionStep ms st)).
Proof.
  induction ms as [|m ms IH]; intros st Hst Hc; [done|]. simpl.
  destruct (resolutionStep_resolved raws st m Hst) as [Hst' _].
  apply IH; [done|]. clear IH Hst'. unfold resolutionStep.
  destruct (moduleMap st !! String_ (wm_id m)) as [i|] eqn:Hi; [|done].
  destruct (wm_reasons m) as [rs|]; [|done].
  revert st Hst Hc Hi. induction rs as [|r rs IHrs]; intros st Hst Hc Hi; [done|].
  simpl. destruct (reasons_resolved raws _ i [r] st Hi Hst) as [Hst1 Hmap1].
  simpl in Hst1, Hmap1. apply IHrs; [done| |by rewrite Hmap1].
  pose proof (linkReason_counts _ i st r (proj1 Hst) Hi). lia.
Qed.

(** X22. In every output of the normalizer the dependency lists have, all
    together, as many entries as the dependent lists: every edge is
    recorded once at each of its ends, also when ids repeat. *)
Theorem edge_counts (now : Z) (stats : WebpackStats) (bs : NormalizedBuildStats) :
  normalizeWebpackStats now stats = Ok bs →
  dependencyCount (modules bs) = dependentCount (modules bs).
Proof.
  intros H. apply normalize_Ok_inv in H as [st [acc [Hst [_ [-> _]]]]].
  apply processModules_Ok_inv in Hst as [st1 [Hst1 [Hfresh ->]]].
  apply (resolution_counts (default [] (ws_modules stats))); [done|].
  unfold dependencyCount, dependentCount.
  induction Hfresh as [|nm l [Hd Hp] _ IH]; [done|]. simpl.
  by rewrite Hd, Hp, IH.
Qed.

Lemma edge_counts_witness :
  normalizeWebpackStats 0 duplicateIdStats = Ok duplicateIdBuildStats ∧
  dependencyCount (modules duplicateIdBuildStats)
  = dependentCount (modules duplicateIdBuildStats).
Proof.
  assert (H : normalizeWebpackStats 0 duplicateIdStats = Ok duplicateIdBuildStats)
    by (vm_compute; reflexivity).
  split; [exact H|]. exact (edge_counts 0 duplicateIdStats duplicateIdBuildStats H).
Defined.

(** ** The shape of the treemap *)

Lemma names_alter_insertPath m pa rest k (cs : list TreemapNodeData) :
  name <$> alter (insertPath m pa rest) k cs = name <$> cs.
Proof.
  apply list_eq. intros i. rewrite !list_lookup_fmap, list_lookup_alter.
  case_decide; [subst i|done].
  destruct (cs !! k); simpl; [|done]. by rewrite name_insertPath.
Qed.

Lemma insertPath_siblingsDistinct m : ∀ rest p pa n,
  allNodesAt siblingsDistinct p n →
  allNodesAt siblingsDistinct p (insertPath m pa rest n).
Proof.
  induction rest as [|part rest IH]; intros p pa n [Hn Hcs]%allNodesAt_inv.
  - by constructor.
  - unfold siblingsDistinct in Hn. constructor.
    + unfold siblingsDistinct. simpl.
      destruct (list_find _ _) as [[k c]|] eqn:Hfind; simpl.
      * by rewrite names_alter_insertPath.
      * apply list_find_None in Hfind.
        rewrite fmap_app. apply NoDup_app. split; [done|]. split.
        -- intros x [c [-> Hc]]%list_elem_of_fmap Hx.
           apply list_elem_of_singleton in Hx. rewrite name_insertPath in Hx.
           simpl in Hx. rewrite Forall_forall in Hfind. by apply (Hfind c Hc).
        -- apply NoDup_singleton.
    + simpl. destruct (list_find _ _) as [[k c]|] eqn:Hfind; simpl.
      * apply list_find_Some in Hfind as [Hk _].
        apply Forall_lookup. intros i c'. rewrite list_lookup_alter.
        rewrite Forall_lookup in Hcs. case_decide as Hi; [|by eapply Hcs].
        subst i. rewrite Hk. intros [= <-]. rewrite name_insertPath.
        apply IH. by eapply Hcs.
      * apply Forall_app. split; [done|].
        constructor; [|constructor]. apply IH.
        constructor; [apply NoDup_nil_2|constructor].
Qed.

Lemma buildRootData_siblingsDistinct ms :
  allNodesAt siblingsDistinct [] (buildRootData ms).
Proof.
  unfold buildRootData.
  assert (H : allNodesAt siblingsDistinct [] rootData)
    by (constructor; [apply NoDup_nil_2|constructor]).
  revert H. generalize rootData.
  induction ms as [|m ms IH]; intros root H; simpl; [done|].
  apply IH. by apply insertPath_siblingsDistinct.
Qed.

(** X23. In the treemap the children of a node have pairwise different
    names: a path segment below a node is created once and found again by
    every later module that passes through it. *)
Theorem sibling_names_distinct (ms : list NormalizedModule) :
  Forall (fun h => NoDup ((fun c => name (hdata c)) <$> hchildren h))
    (descendants (treemapRoot ms)).
Proof.
  apply List.Forall_forall. intros h Hh. rewrite treemapRoot_view in Hh.
  apply descendants_view in Hh as [d [Hd ->]].
  destruct (allNodesAt_nodes _ _ _ d (buildRootData_siblingsDistinct ms) Hd)
    as [q Hnd].
  unfold siblingsDistinct in Hnd. rewrite hchildren_view.
  rewrite (fmap_Permutation _ _ _ (jsSort_Permutation byValueDesc _)).
  rewrite <- list_fmap_compose.
  replace ((fun c => name (hdata c)) ∘ view <$> children d)
    with (name <$> children d); [done|].
  apply list_fmap_ext. intros i c _. simpl. by rewrite hdata_view.
Qed.

Lemma allNodesAt_nodes_below P : ∀ root p d,
  allNodesAt P p root → In d (nodes root) → ∃ r, P (p ++ r) d.
Proof.
  induction root as [root IH] using TreemapNodeData_forall_ind.
  intros p d [Hroot Hcs]%allNodesAt_inv Hd.
  apply nodes_unfold in Hd as [->|[c [Hc Hd]]].
  - exists []. by rewrite app_nil_r.
  - rewrite Forall_forall in IH, Hcs. apply list_elem_of_In in Hc.
    destruct (IH c Hc _ d (Hcs c Hc) Hd) as [r Hr].
    exists (name c :: r). by rewrite <- app_assoc in Hr.
Qed.

(** X24. Every node of the treemap other than the root lies on the path of
    a module of the list: its [path] is the join of a non-empty beginning of
    the segments of that module.  No folder is there without a module
    below it. *)
Theorem nodes_lead_to_modules (ms : list NormalizedModule) :
  Forall
    (fun h =>
       h = treemapRoot ms ∨
       ∃ m q r, m ∈ ms ∧ q ≠ [] ∧ segments m = q ++ r ∧
                path (hdata h) = Str.join "/" q)
    (descendants (treemapRoot ms)).
Proof.
  apply List.Forall_forall. intros h Hh. rewrite treemapRoot_view in *.
  apply descendants_view in Hh as [d [Hd ->]].
  apply nodes_unfold in Hd as [->|[c [Hc Hd]]]; [by left|]. right.
  destruct (allNodesAt_inv _ _ _
              (allNodesAt_and _ _ _ _ (buildRootData_nodeOk ms)
                 (buildRootData_pathOk ms))) as [_ Hcs].
  destruct (buildRootData_root ms) as [_ Hleaves].
  rewrite Forall_forall in Hcs, Hleaves. apply list_elem_of_In in Hc.
  destruct (allNodesAt_nodes_below _ _ _ d (Hcs c Hc) Hd)
    as [r [[Hdata Hchildren] Hpath]].
  destruct (allNodesAt_nodes _ _ _ d (Hleaves c Hc) Hd) as [q' Hleaf].
  simpl in *. set (q := name c :: r) in *.
  assert (Hq : q ≠ []) by done. destruct (Hpath Hq) as [Hp _].
  rewrite hdata_view, Hp.
  destruct (children d) as [|c' cs'] eqn:Hkids.
  - destruct (Hleaf Hkids) as [m Hm]. rewrite Hm in Hdata.
    destruct Hdata as [Hin [Hseg _]]. exists m, q, [].
    by rewrite app_nil_r.
  - destruct Hchildren as [m [r' [Hin [_ Hseg]]]]; [done|].
    by exists m, q, r'.
Qed.
